(** * VDATASIM: erasure-coded drive pool simulator

    A shallow embedding of the storage engine of the four program variants
    (VDATASIM-v1.0, VDSimm-v1.1, VDATASIM-v2.1, VDSimm2-5-26): topology,
    chunk striping, local and global parity, rebuild and the integrity
    analyzer.  Every Python method of [ErasureCodedStorage] becomes a
    function of the immutable layout ([config]) and the mutable part of
    [self] ([state]); a Python exception is [None] in the [option] monad.

    A drive is a file; its content is a list of bytes (integers of
    [0, 256)).  The hex preview cache and the progress callback are display
    concerns and are left out. *)

From Stdlib Require Import ZArith String.
From stdpp Require Import base option list numbers gmap strings.

Local Open Scope nat_scope.

(** ** Data model *)

Abbreviation bytes := (list Z).

(** One entry of [dbox['local_groups']]. *)
Record group := Group {
  g_data_drives : list nat;
  g_parity_drive : option nat
}.

(** One entry of [self.dboxes] ([self.dnodes] in v2.1). *)
Record dbox := Dbox {
  d_id : nat;
  d_data_drives : list nat;
  d_local_groups : list group;
  d_local_parity_drives : list nat;
  d_global_parity_drive : nat;
  d_spare_drives : list nat;
  d_all_drives : list nat
}.

(** The fields of [self] that never change after [__init__]. *)
Record config := Config {
  total_drives : nat;
  drive_size : nat;
  chunk_size : nat;
  drives_per_dbox : nat;
  dboxes : list dbox
}.

(** The fields of [self] that methods assign to, and the drive files:
    [disk st !! d] is the content of the file [self.drives[d]]. *)
Record state := State {
  drive_status : list bool;
  disk : list bytes;
  stored_file_data : option bytes;
  stored_file_name : option string;
  ha_mode : bool
}.

Definition set_disk (st : state) (dk : list bytes) : state :=
  State (drive_status st) dk (stored_file_data st) (stored_file_name st) (ha_mode st).

Definition set_status (st : state) (ds : list bool) : state :=
  State ds (disk st) (stored_file_data st) (stored_file_name st) (ha_mode st).

Definition set_stored (st : state) (data : bytes) (name : string) : state :=
  State (drive_status st) (disk st) (Some data) (Some name) (ha_mode st).

(** ** Topology ([_configure_dboxes]) *)

(** [data_drives[start_idx:end_idx]] *)
Definition slice {A} (l : list A) (start stop : nat) : list A :=
  take (stop - start) (drop start l).

Definition configure_dbox (drives_per : nat) (dbox_id : nat) : dbox :=
  let base_drive := dbox_id * drives_per in
  let data_drives := seq base_drive 38 in
  let local_parity_drives := seq (base_drive + 38) 3 in
  let global_parity_drive := base_drive + 41 in
  let spare_drives := seq (base_drive + 42) 2 in
  let local_groups :=
    map (fun i =>
           let start_idx := i * 13 in
           let end_idx := Nat.min (start_idx + 13) 38 in
           Group (slice data_drives start_idx end_idx) (local_parity_drives !! i))
        (seq 0 3) in
  Dbox dbox_id data_drives local_groups local_parity_drives
       global_parity_drive spare_drives (seq base_drive 44).

Definition _configure_dboxes (dboxes_count drives_per : nat) : list dbox :=
  map (configure_dbox drives_per) (seq 0 dboxes_count).

(** The layout of VDSimm2-5-26 and VDATASIM-v2.1 with the sizes left open:
    both variants fix [drive_size = 1024 * 1024] and [chunk_size = 4096]. *)
Definition pool (dsz csz : nat) : config :=
  Config 484 dsz csz 44 (_configure_dboxes 11 44).

Definition pool_484 : config := pool (1024 * 1024) 4096.

Definition get_all_data_drives (cfg : config) : list nat :=
  concat (map d_data_drives (dboxes cfg)).

Inductive drive_type := Data | LocalParity | GlobalParity | HotSpare | Unknown.

Fixpoint drive_type_in (dbs : list dbox) (drive_id : nat) : drive_type :=
  match dbs with
  | [] => Unknown
  | db :: rest =>
      if bool_decide (drive_id ∈ d_data_drives db) then Data
      else if bool_decide (drive_id ∈ d_local_parity_drives db) then LocalParity
      else if bool_decide (drive_id = d_global_parity_drive db) then GlobalParity
      else if bool_decide (drive_id ∈ d_spare_drives db) then HotSpare
      else drive_type_in rest drive_id
  end.

Definition get_drive_type (cfg : config) (drive_id : nat) : drive_type :=
  drive_type_in (dboxes cfg) drive_id.

(** [drive_id // self.drives_per_dbox]; division by zero raises. *)
Definition get_dbox_for_drive (cfg : config) (drive_id : nat) : option nat :=
  if bool_decide (drives_per_dbox cfg = 0) then None
  else Some (drive_id / drives_per_dbox cfg).

(** ** Files *)

(** [b.ljust(n, b'\x00')] *)
Definition ljust (b : bytes) (n : nat) : bytes :=
  b ++ replicate (n - length b) 0%Z.

(** [f.seek(off); f.read(n)] on a file opened ['rb'] *)
Definition read_at (content : bytes) (off n : nat) : bytes :=
  take n (drop off content).

(** [f.seek(off); f.write(data)] on a file opened ['r+b']: the rest of the
    file stays, and a gap past the end is filled with zeros. *)
Definition overwrite_at (content : bytes) (off : nat) (data : bytes) : bytes :=
  take off content ++ replicate (off - length content) 0%Z
    ++ data ++ drop (off + length data) content.

(** [open(self.drives[d], 'wb').write(data)]: the file is replaced. *)
Definition write_wb (st : state) (d : nat) (data : bytes) : option state :=
  _ ← disk st !! d;
  Some (set_disk st (<[d := data]> (disk st))).

(** [open(self.drives[d], 'r+b')], seek, write. *)
Definition write_rplus (st : state) (d off : nat) (data : bytes) : option state :=
  content ← disk st !! d;
  Some (set_disk st (<[d := overwrite_at content off data]> (disk st))).

(** The chunk read in every parity loop:
    [f.seek(chunk_idx * self.chunk_size); f.read(self.chunk_size)]. *)
Definition read_chunk (cfg : config) (st : state) (d idx : nat) : option bytes :=
  content ← disk st !! d;
  Some (read_at content (idx * chunk_size cfg) (chunk_size cfg)).

(** A loop whose body may raise. *)
Fixpoint for_each {A S : Type} (body : S → A → option S) (l : list A) (s : S)
  : option S :=
  match l with
  | [] => Some s
  | x :: l' => s' ← body s x; for_each body l' s'
  end.

(** ** Parity engine *)

(** [parity ^= chunk] on numpy [uint8] arrays: elementwise on equal shapes,
    a one-element right operand is broadcast, any other shape raises. *)
Definition ixor (parity chunk : bytes) : option bytes :=
  if bool_decide (length chunk = length parity)
  then Some (zip_with Z.lxor parity chunk)
  else match chunk with
       | [c] => Some (map (fun p => Z.lxor p c) parity)
       | _ => None
       end.

Fixpoint xor_into (parity : bytes) (data_chunks : list bytes) : option bytes :=
  match data_chunks with
  | [] => Some parity
  | chunk :: rest => p ← ixor parity chunk; xor_into p rest
  end.

Definition calculate_parity (cfg : config) (data_chunks : list bytes)
  : option bytes :=
  if bool_decide (length data_chunks = 0)
  then Some (replicate (chunk_size cfg) 0%Z)
  else xor_into (replicate (chunk_size cfg) 0%Z) data_chunks.

(** [np.uint8(..)], [.astype(np.uint8)] and [uint16] arithmetic wrap. *)
Definition uint8 (z : Z) : Z := (z mod 256)%Z.
Definition uint16 (z : Z) : Z := (z mod 65536)%Z.

(** [weight = np.uint8((drive_id % 255) + 1)] *)
Definition weight (drive_id : nat) : Z :=
  uint8 (Z.of_nat drive_id mod 255 + 1)%Z.

(** [np.remainder(chunk.astype(np.uint16) * weight, 256).astype(np.uint8)]:
    the product is taken in [uint16]. *)
Definition weighted (drive_id : nat) (chunk : bytes) : bytes :=
  map (fun b => uint8 (uint16 (uint16 b * weight drive_id) mod 256)%Z) chunk.

Definition plain (drive_id : nat) (chunk : bytes) : bytes := chunk.

(** The inner loop shared by the parity procedures:
    [for drive_id in data_drives: if self.drive_status[drive_id]: ... if
    len(chunk) == self.chunk_size: chunks.append(tr(chunk))], where [tr] is
    the identity for local parity and [weighted] for global parity. *)
Fixpoint online_chunks (cfg : config) (st : state) (tr : nat → bytes → bytes)
    (data_drives : list nat) (chunk_idx : nat) : option (list bytes) :=
  match data_drives with
  | [] => Some []
  | drive_id :: rest =>
      online ← drive_status st !! drive_id;
      if (online : bool) then
        chunk ← read_chunk cfg st drive_id chunk_idx;
        chunks ← online_chunks cfg st tr rest chunk_idx;
        Some (if bool_decide (length chunk = chunk_size cfg)
              then tr drive_id chunk :: chunks else chunks)
      else online_chunks cfg st tr rest chunk_idx
  end.

(** [for chunk_idx in range(chunks_per_drive): ... parity_data +=
    parity_chunk.tobytes()] *)
Definition parity_data (cfg : config) (st : state) (tr : nat → bytes → bytes)
    (data_drives : list nat) (chunks_per_drive : nat) : option bytes :=
  rows ← mapM (fun chunk_idx =>
                 chunks ← online_chunks cfg st tr data_drives chunk_idx;
                 calculate_parity cfg chunks)
              (seq 0 chunks_per_drive);
  Some (concat rows).

Definition _calculate_local_parity_group (cfg : config) (st : state)
    (g : group) (chunks_per_drive : nat) : option state :=
  match g_parity_drive g with
  | None => Some st
  | Some parity_drive =>
      pd ← parity_data cfg st plain (g_data_drives g) chunks_per_drive;
      write_wb st parity_drive (ljust pd (drive_size cfg))
  end.

Definition _calculate_global_parity_dbox (cfg : config) (st : state)
    (db : dbox) (chunks_per_drive : nat) : option state :=
  pd ← parity_data cfg st weighted (d_data_drives db) chunks_per_drive;
  write_wb st (d_global_parity_drive db) (ljust pd (drive_size cfg)).

(** ** Chunker / striper *)

(** What the write methods return next to [True] / [False]; the f-string
    messages are kept as their kind and the numbers they print. *)
Inductive message :=
| NoFilesSelected
| FilesTooLarge (size available : Z)
| NoDataDrives
| WroteNormal (nbytes ndrives : nat)
| HARequires18 (navailable : nat)
| WroteHA (nbytes ndrives : nat).

(** [[d for d in data_drives if self.drive_status[d]]] *)
Fixpoint online_of (st : state) (data_drives : list nat) : option (list nat) :=
  match data_drives with
  | [] => Some []
  | d :: rest =>
      online ← drive_status st !! d;
      ds ← online_of st rest;
      Some (if (online : bool) then d :: ds else ds)
  end.

(** The inner loop of [_write_data_normal_mode]:
    [for _ in range(chunks_per_drive)], building [drive_data] and advancing
    [chunk_index]. *)
Fixpoint fill_drive (cfg : config) (data : bytes) (num_chunks : nat)
    (count : nat) (chunk_index : nat) (drive_data : bytes) : bytes * nat :=
  match count with
  | 0 => (drive_data, chunk_index)
  | S count' =>
      if bool_decide (chunk_index < num_chunks) then
        let start := chunk_index * chunk_size cfg in
        let stop := start + chunk_size cfg in
        fill_drive cfg data num_chunks count' (S chunk_index)
                   (drive_data ++ slice data start stop)
      else
        fill_drive cfg data num_chunks count' chunk_index
                   (drive_data ++ replicate (chunk_size cfg) 0%Z)
  end.

(** The outer loop, [for drive_id in available_drives]. *)
Fixpoint write_drives (cfg : config) (data : bytes) (num_chunks : nat)
    (chunks_per_drive : nat) (available_drives : list nat)
    (st : state) (chunk_index : nat) : option state :=
  match available_drives with
  | [] => Some st
  | drive_id :: rest =>
      let '(drive_data, chunk_index') :=
        fill_drive cfg data num_chunks chunks_per_drive chunk_index [] in
      st' ← write_wb st drive_id (ljust drive_data (drive_size cfg));
      write_drives cfg data num_chunks chunks_per_drive rest st' chunk_index'
  end.

Definition local_parity_pass (cfg : config) (chunks_per_drive : nat)
    (st : state) : option state :=
  for_each (fun s db =>
              for_each (fun s' g =>
                          _calculate_local_parity_group cfg s' g chunks_per_drive)
                       (d_local_groups db) s)
           (dboxes cfg) st.

Definition global_parity_pass (cfg : config) (chunks_per_drive : nat)
    (st : state) : option state :=
  for_each (fun s db => _calculate_global_parity_dbox cfg s db chunks_per_drive)
           (dboxes cfg) st.

Definition clear_spares (cfg : config) (st : state) : option state :=
  for_each (fun s db =>
              for_each (fun s' spare_id =>
                          write_wb s' spare_id (replicate (drive_size cfg) 0%Z))
                       (d_spare_drives db) s)
           (dboxes cfg) st.

(** [(num_chunks + len(available_drives) - 1) // len(available_drives)] *)
Definition chunks_per_drive_of (num_chunks ndrives : nat) : nat :=
  (num_chunks + ndrives - 1) / ndrives.

Definition _write_data_normal_mode (cfg : config) (st : state) (data : bytes)
  : option ((bool * message) * state) :=
  if bool_decide (chunk_size cfg = 0) then None else
  let num_chunks := length data / chunk_size cfg in
  available_drives ← online_of st (get_all_data_drives cfg);
  if bool_decide (length available_drives = 0)
  then Some ((false, NoDataDrives), st)
  else
    let chunks_per_drive :=
      chunks_per_drive_of num_chunks (length available_drives) in
    st1 ← write_drives cfg data num_chunks chunks_per_drive available_drives st 0;
    st2 ← local_parity_pass cfg chunks_per_drive st1;
    st3 ← global_parity_pass cfg chunks_per_drive st2;
    st4 ← clear_spares cfg st3;
    Some ((true, WroteNormal (length data) (length available_drives)), st4).

(** The selection of [_write_data_ha_mode]:
    [available_in_dbox = [d for d in dbox['data_drives'][:2] if
    self.drive_status[d]]; selected_drives.extend(available_in_dbox[:2])]. *)
Fixpoint ha_select (st : state) (dbs : list dbox) : option (list nat) :=
  match dbs with
  | [] => Some []
  | db :: rest =>
      available_in_dbox ← online_of st (take 2 (d_data_drives db));
      selected ← ha_select st rest;
      Some (take 2 available_in_dbox ++ selected)
  end.

(** One pass of [for drive_id in selected_drives] inside the [while]; the
    [else: break] branch leaves the pass. *)
Fixpoint ha_stripe (cfg : config) (data : bytes) (num_chunks stripe_index : nat)
    (drives : list nat) (st : state) (chunk_index : nat)
  : option (state * nat) :=
  match drives with
  | [] => Some (st, chunk_index)
  | drive_id :: rest =>
      if bool_decide (chunk_index < num_chunks) then
        let start := chunk_index * chunk_size cfg in
        let stop := start + chunk_size cfg in
        st' ← write_rplus st drive_id (stripe_index * chunk_size cfg)
                          (slice data start stop);
        ha_stripe cfg data num_chunks stripe_index rest st' (S chunk_index)
      else Some (st, chunk_index)
  end.

(** [while chunk_index < num_chunks: <pass>; stripe_index += 1].  The loop is
    unrolled [fuel] times; [None] also stands for a loop that is not over
    when the fuel is. *)
Fixpoint ha_stripes (fuel : nat) (cfg : config) (data : bytes)
    (num_chunks : nat) (selected_drives : list nat) (st : state)
    (stripe_index chunk_index : nat) : option (state * nat) :=
  if bool_decide (chunk_index < num_chunks) then
    match fuel with
    | 0 => None
    | S fuel' =>
        '(st', chunk_index') ←
          ha_stripe cfg data num_chunks stripe_index selected_drives st chunk_index;
        ha_stripes fuel' cfg data num_chunks selected_drives st'
                   (S stripe_index) chunk_index'
    end
  else Some (st, stripe_index).

(** The chunk loop of [_calculate_ha_parity]: no status test here. *)
Fixpoint full_chunks (cfg : config) (st : state) (data_drives : list nat)
    (stripe_idx : nat) : option (list bytes) :=
  match data_drives with
  | [] => Some []
  | drive_id :: rest =>
      chunk ← read_chunk cfg st drive_id stripe_idx;
      chunks ← full_chunks cfg st rest stripe_idx;
      Some (if bool_decide (length chunk = chunk_size cfg)
            then chunk :: chunks else chunks)
  end.

Definition ha_parity_data (cfg : config) (st : state) (data_drives : list nat)
    (num_stripes : nat) : option bytes :=
  rows ← mapM (fun stripe_idx =>
                 chunks ← full_chunks cfg st data_drives stripe_idx;
                 calculate_parity cfg chunks)
              (seq 0 num_stripes);
  Some (concat rows).

(** [for i, dbox in enumerate(self.dboxes[:4])]: the parity drives used. *)
Fixpoint ha_parity_drives (i : nat) (dbs : list dbox)
  : option (list nat * list nat) :=
  match dbs with
  | [] => Some ([], [])
  | db :: rest =>
      if bool_decide (i < 2) then
        p ← d_local_parity_drives db !! 0;
        '(lp, gp) ← ha_parity_drives (S i) rest;
        Some (p :: lp, gp)
      else
        '(lp, gp) ← ha_parity_drives (S i) rest;
        Some (lp, d_global_parity_drive db :: gp)
  end.

(** [for parity_idx, parity_drive in enumerate(local_parity_drives)] *)
Fixpoint ha_local_pass (cfg : config) (data_drives : list nat)
    (num_stripes : nat) (parity_idx : nat) (local_parity_drives : list nat)
    (st : state) : option state :=
  match local_parity_drives with
  | [] => Some st
  | parity_drive :: rest =>
      let start_drive := parity_idx * 9 in
      let end_drive := start_drive + 9 in
      pd ← ha_parity_data cfg st (slice data_drives start_drive end_drive)
                          num_stripes;
      st' ← write_wb st parity_drive (ljust pd (drive_size cfg));
      ha_local_pass cfg data_drives num_stripes (S parity_idx) rest st'
  end.

Definition _calculate_ha_parity (cfg : config) (st : state)
    (data_drives : list nat) (num_stripes : nat) : option state :=
  '(local_parity_drives, global_parity_drives) ←
    ha_parity_drives 0 (take 4 (dboxes cfg));
  st1 ← ha_local_pass cfg data_drives num_stripes 0 local_parity_drives st;
  for_each (fun s parity_drive =>
              pd ← ha_parity_data cfg s data_drives num_stripes;
              write_wb s parity_drive (ljust pd (drive_size cfg)))
           global_parity_drives st1.

Definition _write_data_ha_mode (cfg : config) (st : state) (data : bytes)
  : option ((bool * message) * state) :=
  if bool_decide (chunk_size cfg = 0) then None else
  let num_chunks := length data / chunk_size cfg in
  selected_drives ← ha_select st (dboxes cfg);
  if bool_decide (length selected_drives < 18)
  then Some ((false, HARequires18 (length selected_drives)), st)
  else
    let selected_drives := take 18 selected_drives in
    '(st1, stripe_index) ←
      ha_stripes num_chunks cfg data num_chunks selected_drives st 0 0;
    st2 ← _calculate_ha_parity cfg st1 selected_drives stripe_index;
    Some ((true, WroteHA (length data) (length selected_drives)), st2).

(** An input file as [write_files] sees it: the path given, the UTF-8 bytes
    of [os.path.basename(filepath)] and the bytes read from it. *)
Record input_file := InputFile {
  f_path : string;
  f_basename : bytes;
  f_data : bytes
}.

(** [struct.pack] of one unsigned integer of [width] bytes (['I'] is 4,
    ['Q'] is 8), least significant byte first; out of range raises. *)
Fixpoint le_bytes (width : nat) (n : Z) : bytes :=
  match width with
  | 0 => []
  | S w => (n mod 256)%Z :: le_bytes w (n / 256)%Z
  end.

Definition struct_pack (width : nat) (n : nat) : option bytes :=
  if bool_decide (Z.of_nat n < 256 ^ Z.of_nat width)%Z
  then Some (le_bytes width (Z.of_nat n)) else None.

(** The packing loop of [write_files]. *)
Fixpoint combine_files (input_files : list input_file) (combined_data : bytes)
  : option bytes :=
  match input_files with
  | [] => Some combined_data
  | f :: rest =>
      h1 ← struct_pack 4 (length (f_basename f));
      h2 ← struct_pack 8 (length (f_data f));
      combine_files rest (combined_data ++ (h1 ++ f_basename f ++ h2) ++ f_data f)
  end.

(** [((len(data) + self.chunk_size - 1) // self.chunk_size) * self.chunk_size] *)
Definition padded_size (cfg : config) (len : nat) : nat :=
  (len + chunk_size cfg - 1) / chunk_size cfg * chunk_size cfg.

Record stats := Stats { s_total : Z; s_used : Z; s_available : Z }.

Definition get_storage_stats (cfg : config) (st : state) : stats :=
  let total_capacity :=
    if ha_mode st then (18 * Z.of_nat (drive_size cfg))%Z
    else (Z.of_nat (length (get_all_data_drives cfg)) * Z.of_nat (drive_size cfg))%Z in
  let used_space :=
    match stored_file_data st with
    | Some (b :: data) => Z.of_nat (length (b :: data))
    | _ => 0%Z
    end in
  Stats total_capacity used_space (total_capacity - used_space)%Z.

Definition write_files (cfg : config) (st : state) (input_files : list input_file)
  : option ((bool * message) * state) :=
  match input_files with
  | [] => Some ((false, NoFilesSelected), st)
  | first :: others =>
      combined_data ← combine_files input_files [];
      let st := set_stored st combined_data
                  (match others with
                   | [] => f_path first
                   | _ => "combined_files.dat"%string
                   end) in
      let stats := get_storage_stats cfg st in
      if bool_decide (Z.of_nat (length combined_data) > s_available stats)%Z
      then Some ((false, FilesTooLarge (Z.of_nat (length combined_data))
                                       (s_available stats)), st)
      else
        if bool_decide (chunk_size cfg = 0) then None else
        let combined_data :=
          ljust combined_data (padded_size cfg (length combined_data)) in
        if ha_mode st then _write_data_ha_mode cfg st combined_data
        else _write_data_normal_mode cfg st combined_data
  end.

(** ** Recovery engine *)

Inductive rebuild_note :=
| LocalRebuild (drive nread : nat)
| ParityRebuild (drive nread : nat)
| GlobalRebuild (drive nread : nat).

(** The inner loop of [_rebuild_data_drive]:
    [if drive_id != failed_drive and self.drive_status[drive_id]: ... if
    len(chunk) == self.chunk_size: chunks.append(chunk);
    drives_read.append(drive_id)]. *)
Fixpoint other_chunks (cfg : config) (st : state) (failed_drive : nat)
    (data_drives : list nat) (chunk_idx : nat) : option (list (nat * bytes)) :=
  match data_drives with
  | [] => Some []
  | drive_id :: rest =>
      if bool_decide (drive_id ≠ failed_drive) then
        online ← drive_status st !! drive_id;
        if (online : bool) then
          chunk ← read_chunk cfg st drive_id chunk_idx;
          more ← other_chunks cfg st failed_drive rest chunk_idx;
          Some (if bool_decide (length chunk = chunk_size cfg)
                then (drive_id, chunk) :: more else more)
        else other_chunks cfg st failed_drive rest chunk_idx
      else other_chunks cfg st failed_drive rest chunk_idx
  end.

(** One round of [for chunk_idx in range(chunks_per_drive)]: the rebuilt
    chunk and what the round appends to [drives_read].  The parity chunk is
    read first and is not tested for its length. *)
Definition rebuild_chunk (cfg : config) (st : state) (failed_drive : nat)
    (g : group) (chunk_idx : nat) : option (bytes * list nat) :=
  parity_drive ← g_parity_drive g;
  parity_chunk ← read_chunk cfg st parity_drive chunk_idx;
  others ← other_chunks cfg st failed_drive (g_data_drives g) chunk_idx;
  rebuilt_chunk ← calculate_parity cfg (parity_chunk :: map snd others);
  Some (rebuilt_chunk, parity_drive :: map fst others).

(** Returns [list(set(drives_read))], kept as a set: Python fixes no order. *)
Definition _rebuild_data_drive (cfg : config) (st : state) (failed_drive : nat)
    (g : group) : option (gset nat * state) :=
  if bool_decide (chunk_size cfg = 0) then None else
  let chunks_per_drive := drive_size cfg / chunk_size cfg in
  rounds ← mapM (rebuild_chunk cfg st failed_drive g) (seq 0 chunks_per_drive);
  st' ← write_wb st failed_drive (concat (map fst rounds));
  Some (list_to_set (concat (map snd rounds)), st').

(** [for group in dbox['local_groups']: if <test>: ...; break] *)
Fixpoint first_group (test : group → bool) (gs : list group) : option group :=
  match gs with
  | [] => None
  | g :: rest => if test g then Some g else first_group test rest
  end.

Definition rebuild_acc : Type := gset nat * list rebuild_note * state.

(** The body of [for failed_drive in failed_drives]. *)
Definition rebuild_one (cfg : config) (bring_online : bool)
    (acc : rebuild_acc) (failed_drive : nat) : option rebuild_acc :=
  let '(drives_read, rebuild_info, st) := acc in
  online ← drive_status st !! failed_drive;
  if (online : bool) then Some acc else
  dbox_id ← get_dbox_for_drive cfg failed_drive;
  db ← dboxes cfg !! dbox_id;
  '(drives_read, rebuild_info, st) ←
    match get_drive_type cfg failed_drive with
    | Data =>
        match first_group (fun g => bool_decide (failed_drive ∈ g_data_drives g))
                          (d_local_groups db) with
        | Some g =>
            '(read_drives, st') ← _rebuild_data_drive cfg st failed_drive g;
            Some (drives_read ∪ read_drives,
                  rebuild_info ++ [LocalRebuild failed_drive (size read_drives)],
                  st')
        | None => Some acc
        end
    | LocalParity =>
        match first_group (fun g => bool_decide (g_parity_drive g = Some failed_drive))
                          (d_local_groups db) with
        | Some g =>
            let read_drives := g_data_drives g in
            if bool_decide (chunk_size cfg = 0) then None else
            let chunks_per_drive := drive_size cfg / chunk_size cfg in
            st' ← _calculate_local_parity_group cfg st g chunks_per_drive;
            Some (drives_read ∪ list_to_set read_drives,
                  rebuild_info ++ [ParityRebuild failed_drive (length read_drives)],
                  st')
        | None => Some acc
        end
    | GlobalParity =>
        let read_drives := d_data_drives db in
        if bool_decide (chunk_size cfg = 0) then None else
        let chunks_per_drive := drive_size cfg / chunk_size cfg in
        st' ← _calculate_global_parity_dbox cfg st db chunks_per_drive;
        Some (drives_read ∪ list_to_set read_drives,
              rebuild_info ++ [GlobalRebuild failed_drive (length read_drives)],
              st')
    | _ => Some acc
    end;
  let st := if bring_online
            then set_status st (<[failed_drive := true]> (drive_status st))
            else st in
  _ ← disk st !! failed_drive;
  Some (drives_read, rebuild_info, st).

Definition rebuild_drives (cfg : config) (st : state) (failed_drives : list nat)
    (bring_online : bool) : option (gset nat * list rebuild_note * state) :=
  for_each (rebuild_one cfg bring_online) failed_drives (∅, [], st).

(** ** Integrity analyzer *)

Inductive summary :=
| AllDrivesOnline
| DataAtRisk (vulnerable : list nat)
| RecoverableWith (nfailures : nat).

(** [[i for i, status in enumerate(self.drive_status) if not status]] *)
Fixpoint offline_from (i : nat) (status : list bool) : list nat :=
  match status with
  | [] => []
  | online :: rest =>
      if (online : bool) then offline_from (S i) rest
      else i :: offline_from (S i) rest
  end.

(** [sum(1 for d in group['data_drives'] if not self.drive_status[d])] *)
Fixpoint group_failures (st : state) (data_drives : list nat) : option nat :=
  match data_drives with
  | [] => Some 0
  | d :: rest =>
      online ← drive_status st !! d;
      n ← group_failures st rest;
      Some (if (online : bool) then n else 1 + n)
  end.

Fixpoint max_group_failures (st : state) (gs : list group) (acc : nat)
  : option nat :=
  match gs with
  | [] => Some acc
  | g :: rest =>
      n ← group_failures st (g_data_drives g);
      max_group_failures st rest (Nat.max acc n)
  end.

(** [for dbox in self.dboxes] of VDSimm2-5-26. *)
Fixpoint check_dboxes (st : state) (offline_drives : list nat)
    (dbs : list dbox) (vulnerable_dboxes : list nat) : option (list nat) :=
  match dbs with
  | [] => Some vulnerable_dboxes
  | db :: rest =>
      let dbox_failures := filter (fun d => d ∈ d_all_drives db) offline_drives in
      if bool_decide (length dbox_failures = 0)
      then check_dboxes st offline_drives rest vulnerable_dboxes
      else
        m ← max_group_failures st (d_local_groups db) 0;
        if bool_decide (2 < m)
        then check_dboxes st offline_drives rest (vulnerable_dboxes ++ [d_id db])
        else check_dboxes st offline_drives rest vulnerable_dboxes
  end.

Definition check_result : Type := bool * summary * list nat.

Definition check_data_integrity (cfg : config) (st : state)
  : option check_result :=
  let offline_drives := offline_from 0 (drive_status st) in
  if bool_decide (length offline_drives = 0)
  then Some (true, AllDrivesOnline, [])
  else
    vulnerable_dboxes ← check_dboxes st offline_drives (dboxes cfg) [];
    if bool_decide (0 < length vulnerable_dboxes)
    then Some (false, DataAtRisk vulnerable_dboxes, vulnerable_dboxes)
    else Some (true, RecoverableWith (length offline_drives), []).

(** The method as a call on [self]: it assigns to no field and opens no
    file, so the state it leaves is the state it found. *)
Definition call_check_data_integrity (cfg : config) (st : state)
  : option (check_result * state) :=
  r ← check_data_integrity cfg st; Some (r, st).

(** ** VDATASIM-v2.1: the integrity analyzer differs *)

Module V21.

(** [for dnode in self.dnodes], with the second risk test of v2.1. *)
Fixpoint check_dnodes (st : state) (offline_drives : list nat)
    (dns : list dbox) (vulnerable_dnodes : list nat) : option (list nat) :=
  match dns with
  | [] => Some vulnerable_dnodes
  | dn :: rest =>
      let dnode_failures := filter (fun d => d ∈ d_all_drives dn) offline_drives in
      if bool_decide (length dnode_failures = 0)
      then check_dnodes st offline_drives rest vulnerable_dnodes
      else
        let local_parity_failures :=
          filter (fun d => d ∈ d_local_parity_drives dn) dnode_failures in
        m ← max_group_failures st (d_local_groups dn) 0;
        if bool_decide (2 < m)
        then check_dnodes st offline_drives rest (vulnerable_dnodes ++ [d_id dn])
        else if bool_decide (m = 2 ∧ 0 < length local_parity_failures)
        then check_dnodes st offline_drives rest (vulnerable_dnodes ++ [d_id dn])
        else check_dnodes st offline_drives rest vulnerable_dnodes
  end.

Definition check_data_integrity (cfg : config) (st : state)
  : option check_result :=
  let offline_drives := offline_from 0 (drive_status st) in
  if bool_decide (length offline_drives = 0)
  then Some (true, AllDrivesOnline, [])
  else
    vulnerable_dnodes ← check_dnodes st offline_drives (dboxes cfg) [];
    if bool_decide (0 < length vulnerable_dnodes)
    then Some (false, DataAtRisk vulnerable_dnodes, vulnerable_dnodes)
    else Some (true, RecoverableWith (length offline_drives), []).

Definition call_check_data_integrity (cfg : config) (st : state)
  : option (check_result * state) :=
  r ← check_data_integrity cfg st; Some (r, st).

End V21.

(** ** VDATASIM-v1.0: one pool of 142 data and 4 parity drives *)

Module V10.

Definition num_data_drives : nat := 142.

(** The 146-drive pool; it has no domains. *)
Definition pool (dsz csz : nat) : config := Config 146 dsz csz 146 [].

Inductive message10 :=
| InputFileNotFound
| FileTooLarge (max_size : nat)
| DataWritten.

(** [for drive_id in range(self.num_data_drives)]: every data drive is
    written, whatever its status, from offset 0 of a file opened ['r+b']. *)
Fixpoint write_drives (cfg : config) (data : bytes) (num_chunks : nat)
    (chunks_per_drive : nat) (drive_ids : list nat)
    (st : state) (chunk_index : nat) : option state :=
  match drive_ids with
  | [] => Some st
  | drive_id :: rest =>
      let '(drive_data, chunk_index') :=
        fill_drive cfg data num_chunks chunks_per_drive chunk_index [] in
      st' ← write_rplus st drive_id 0 drive_data;
      write_drives cfg data num_chunks chunks_per_drive rest st' chunk_index'
  end.

Definition _calculate_local_parity (cfg : config) (st : state)
    (start_drive end_drive parity_drive chunks_per_drive : nat) : option state :=
  pd ← parity_data cfg st plain (seq start_drive (end_drive - start_drive))
                   chunks_per_drive;
  write_rplus st parity_drive 0 pd.

(** [((chunk * (drive_id + 1)) % 256).astype(np.uint8)]: the product of a
    [uint8] array and a small Python integer stays in [uint8]. *)
Definition weighted10 (drive_id : nat) (chunk : bytes) : bytes :=
  map (fun b => uint8 (uint8 (b * (Z.of_nat drive_id + 1)) mod 256)%Z) chunk.

Definition _calculate_global_parity (cfg : config) (st : state)
    (chunks_per_drive : nat) : option state :=
  pd0 ← parity_data cfg st plain (seq 0 num_data_drives) chunks_per_drive;
  st1 ← write_rplus st 144 0 pd0;
  pd1 ← parity_data cfg st1 weighted10 (seq 0 num_data_drives) chunks_per_drive;
  write_rplus st1 145 0 pd1.

(** [input_file] is [None] when [os.path.exists] fails, else the bytes of
    the file. *)
Definition write_data (cfg : config) (st : state) (input_file : option bytes)
  : option ((bool * message10) * state) :=
  match input_file with
  | None => Some ((false, InputFileNotFound), st)
  | Some file_data =>
      let file_size := length file_data in
      let total_capacity := num_data_drives * drive_size cfg in
      if bool_decide (total_capacity < file_size)
      then Some ((false, FileTooLarge total_capacity), st)
      else
        if bool_decide (chunk_size cfg = 0) then None else
        let file_data := ljust file_data (padded_size cfg (length file_data)) in
        let num_chunks := length file_data / chunk_size cfg in
        let chunks_per_drive := chunks_per_drive_of num_chunks num_data_drives in
        st1 ← write_drives cfg file_data num_chunks chunks_per_drive
                            (seq 0 num_data_drives) st 0;
        st2 ← _calculate_local_parity cfg st1 0 71 142 chunks_per_drive;
        st3 ← _calculate_local_parity cfg st2 71 142 143 chunks_per_drive;
        st4 ← _calculate_global_parity cfg st3 chunks_per_drive;
        Some ((true, DataWritten), st4)
  end.

End V10.

(** ** Vocabulary of the specification *)

Definition is_online (st : state) (d : nat) : bool :=
  default false (drive_status st !! d).

Definition content (st : state) (d : nat) : bytes :=
  default [] (disk st !! d).

(** Chunk [i] of drive [d]: what a read of [chunk_size] bytes at offset
    [i * chunk_size] returns. *)
Definition chunk (cfg : config) (st : state) (d i : nat) : bytes :=
  read_at (content st d) (i * chunk_size cfg) (chunk_size cfg).

Definition xor_bytes (a b : bytes) : bytes := zip_with Z.lxor a b.

(** The XOR-fold with the all-zero chunk as its identity element. *)
Definition xor_fold (n : nat) (chunks : list bytes) : bytes :=
  foldl xor_bytes (replicate n 0%Z) chunks.

Definition online_drives (st : state) (drives : list nat) : list nat :=
  filter (fun d => is_online st d) drives.

(** The drives that take part in the fold of chunk [i]: online, and the read
    returned a whole chunk. *)
Definition participants (cfg : config) (st : state) (drives : list nat)
    (i : nat) : list nat :=
  filter (fun d => is_online st d ∧ length (chunk cfg st d i) = chunk_size cfg)
         drives.

(** The parity of chunk [i] over [drives], each chunk first sent through
    [tr]. *)
Definition parity_chunk_of (cfg : config) (st : state)
    (tr : nat → bytes → bytes) (drives : list nat) (i : nat) : bytes :=
  xor_fold (chunk_size cfg) (map (fun d => tr d (chunk cfg st d i)) drives).

(** A drive file as a parity procedure leaves it: [n] parity chunks, padded
    with zeros to the drive size. *)
Definition parity_image (cfg : config) (st : state)
    (tr : nat → bytes → bytes) (drives : list nat) (n : nat) : bytes :=
  ljust (concat (map (parity_chunk_of cfg st tr drives) (seq 0 n)))
        (drive_size cfg).

(** Every byte of every drive is a byte. *)
Definition bytes_ok (st : state) : Prop :=
  Forall (Forall (fun b => 0 ≤ b < 256)%Z) (disk st).

(** The drive ids of a list are indices of the status list and name files. *)
Definition drives_exist (st : state) (drives : list nat) : Prop :=
  Forall (fun d => d < length (drive_status st) ∧ d < length (disk st)) drives.

(** Every online drive of the list holds at least [n] whole chunks. *)
Definition holds_chunks (cfg : config) (st : state) (drives : list nat)
    (n : nat) : Prop :=
  Forall (fun d => is_online st d → n * chunk_size cfg ≤ length (content st d))
         drives.

(** Two states with the same status in which every online drive of the list
    has the same content. *)
Definition agree_online (st1 st2 : state) (drives : list nat) : Prop :=
  drive_status st1 = drive_status st2 ∧
  Forall (fun d => is_online st1 d → disk st1 !! d = disk st2 !! d) drives.

(** ** Pool states used in examples *)

(** [__init__] followed by [initialize_drives]: every drive online, every
    file [drive_size] zero bytes. *)
Definition initialize_drives (cfg : config) : state :=
  State (replicate (total_drives cfg) true)
        (replicate (total_drives cfg) (replicate (drive_size cfg) 0%Z))
        None None false.

(** The status toggle of the display: [self.drive_status[d] = online]. *)
Definition toggle (st : state) (d : nat) (online : bool) : state :=
  set_status st (<[d := online]> (drive_status st)).

(** The state a call leaves, for calls that return. *)
Definition state_after {R} (r : option (R * state)) (st : state) : state :=
  match r with Some (_, st') => st' | None => st end.

(** The 484-drive layout with 4-byte drives and 2-byte chunks. *)
Definition small_pool : config := pool 4 2.

Definition sample_file : input_file :=
  InputFile "a.txt" [97; 46; 116; 120; 116]%Z [11; 22; 33; 44; 55]%Z.

(** A one-domain layout small enough to trace by hand: data drives 0-3 in
    two groups with the local-parity drives 4 and 5, global parity on 6 and
    one spare, 7; 16-byte drives and 2-byte chunks. *)
Definition tiny_group0 : group := Group [0; 1] (Some 4).
Definition tiny_group1 : group := Group [2; 3] (Some 5).

Definition tiny_dbox : dbox :=
  Dbox 0 [0; 1; 2; 3] [tiny_group0; tiny_group1] [4; 5] 6 [7] (seq 0 8).

Definition tiny_pool : config := Config 8 16 2 8 [tiny_dbox].

(** The tiny pool after one Normal-mode write of [sample_file]. *)
Definition tiny_written : state :=
  state_after (write_files tiny_pool (initialize_drives tiny_pool) [sample_file])
              (initialize_drives tiny_pool).

(** The tiny pool after the write, with data drive 1 offline. *)
Definition tiny_degraded : state := toggle tiny_written 1 false.

(** The pool properties above can be checked by evaluation. *)
#[global] Instance drives_exist_dec st ds : Decision (drives_exist st ds).
Proof. unfold drives_exist. apply _. Defined.

#[global] Instance holds_chunks_dec cfg st ds n : Decision (holds_chunks cfg st ds n).
Proof. unfold holds_chunks. apply _. Defined.

#[global] Instance bytes_ok_dec st : Decision (bytes_ok st).
Proof. unfold bytes_ok. apply _. Defined.

#[global] Instance agree_online_dec st1 st2 ds : Decision (agree_online st1 st2 ds).
Proof. unfold agree_online. apply _. Defined.

Ltac by_compute := apply (bool_decide_unpack _); vm_compute; exact I.

(** Domain 0 of the 484-drive layout and its first local group. *)
Definition dbox0 : dbox := configure_dbox 44 0.
Definition group0 : group := Group (seq 0 13) (Some 38).


(** A file too large for what the tiny pool has left: 59 bytes once
    packed, of a total of 64. *)
Definition big_file : input_file :=
  InputFile "big.bin" [98; 105; 103; 46; 98; 105; 110]%Z (replicate 40 7%Z).

(** The written tiny pool after the write of [big_file] is refused. *)
Definition tiny_rejected : state :=
  state_after (write_files tiny_pool tiny_written [big_file]) tiny_written.




(** The HA selection as the specification words it: the first two online
    data drives of each domain. *)
Definition first_two_online (st : state) (dbs : list dbox) : list nat :=
  concat (map (fun db => take 2 (online_drives st (d_data_drives db))) dbs).

(** A small pool in HA mode whose first two data drives are offline in
    every domain; all other drives are online. *)
Definition first_two_offline : state :=
  State (concat (replicate 11 ([false; false] ++ replicate 42 true)))
        (disk (initialize_drives small_pool)) None None true.

(** A small pool in HA mode with drive 0 offline. *)
Definition drive0_offline : state :=
  State (false :: replicate 483 true)
        (disk (initialize_drives small_pool)) None None true.

Definition is_offline (st : state) (d : nat) : bool :=
  match drive_status st !! d with Some false => true | _ => false end.

Definition offline_count (st : state) (drives : list nat) : nat :=
  length (filter (fun d => is_offline st d) drives).

(** The maximum, over the local groups, of the count of offline data
    drives of the group. *)
Definition max_offline_of (st : state) (gs : list group) : nat :=
  foldr (fun g m => Nat.max (offline_count st (g_data_drives g)) m) 0 gs.

Definition max_offline (st : state) (db : dbox) : nat :=
  max_offline_of st (d_local_groups db).

(** Some local-parity drive of the domain is offline. *)
Definition parity_offline (st : state) (db : dbox) : Prop :=
  Exists (fun p => is_offline st p) (d_local_parity_drives db).

#[global] Instance parity_offline_dec st db : Decision (parity_offline st db).
Proof. unfold parity_offline. apply _. Defined.

(** The drives the analyzer looks at are indices of the status list and
    belong to the id range of their domain. *)
Definition layout_indexed (cfg : config) (st : state) : Prop :=
  Forall (fun db =>
            Forall (fun g =>
                      Forall (fun d => d < length (drive_status st) ∧
                                       d ∈ d_all_drives db)
                             (g_data_drives g))
                   (d_local_groups db) ∧
            Forall (fun p => p ∈ d_all_drives db) (d_local_parity_drives db))
         (dboxes cfg).

#[global] Instance layout_indexed_dec cfg st : Decision (layout_indexed cfg st).
Proof. unfold layout_indexed. apply _. Defined.

(** The rule of C4 as the specification words it, for an analyzer [check]:
    a domain is in the vulnerable list exactly when its maximum is over 2. *)
Definition flags_exactly_over_two
    (check : config → state → option check_result)
    (cfg : config) (st : state) : Prop :=
  ∀ recoverable summary vulnerable,
    check cfg st = Some (recoverable, summary, vulnerable) →
    ∀ db, db ∈ dboxes cfg → (d_id db ∈ vulnerable ↔ 2 < max_offline st db).

(** A small pool with two data drives of group 0 and the local-parity drive
    38 offline. *)
Definition two_and_parity_offline : state :=
  toggle (toggle (toggle (initialize_drives small_pool) 0 false) 1 false) 38 false.

(** The placement of C8 in the words of the specification: chunk [i] goes
    to the drive at position [i mod n] of the selected list, at stripe
    [i / n], that is at byte offset [(i / n) * chunk_size]. *)
Definition stripe_write (cfg : config) (data : bytes) (selected_drives : list nat)
    (st : state) (i : nat) : option state :=
  let n := length selected_drives in
  drive_id ← selected_drives !! (i mod n);
  write_rplus st drive_id ((i / n) * chunk_size cfg)
              (slice data (i * chunk_size cfg) (i * chunk_size cfg + chunk_size cfg)).

(** The 18 drives an HA write selects in a pool with every drive online. *)
Definition ha_selected : list nat :=
  [0; 1; 44; 45; 88; 89; 132; 133; 176; 177; 220; 221; 264; 265; 308; 309; 352; 353].

(** Twenty chunks of input for the small pool. *)
Definition forty_bytes : bytes := map Z.of_nat (seq 1 40).

(** The drives of the layout by role. *)
Definition all_groups (cfg : config) : list group :=
  concat (map d_local_groups (dboxes cfg)).

Definition local_parity_drives (cfg : config) : list nat :=
  omap g_parity_drive (all_groups cfg).

Definition global_parity_drives (cfg : config) : list nat :=
  map d_global_parity_drive (dboxes cfg).

Definition spare_drives (cfg : config) : list nat :=
  concat (map d_spare_drives (dboxes cfg)).

Definition all_roles (cfg : config) : list nat :=
  get_all_data_drives cfg ++ local_parity_drives cfg
    ++ global_parity_drives cfg ++ spare_drives cfg.

(** No drive has two roles or appears twice in one, and the data drives of
    every local group are data drives of the layout. *)
Definition wf_layout (cfg : config) : Prop :=
  NoDup (all_roles cfg) ∧
  Forall (fun g => Forall (fun d => d ∈ get_all_data_drives cfg) (g_data_drives g))
         (all_groups cfg).

#[global] Instance wf_layout_dec cfg : Decision (wf_layout cfg).
Proof. unfold wf_layout. apply _. Defined.

(** A check of [wf_layout] by evaluation, on binary numbers. *)
Fixpoint distinct_N (l : list N) : bool :=
  match l with
  | [] => true
  | x :: rest => negb (existsb (N.eqb x) rest) && distinct_N rest
  end.

Definition distinct (l : list nat) : bool := distinct_N (map N.of_nat l).

Definition member (l : list N) (d : nat) : bool :=
  existsb (N.eqb (N.of_nat d)) l.

Definition wf_layout_check (cfg : config) : bool :=
  distinct (all_roles cfg) &&
  (let data := map N.of_nat (get_all_data_drives cfg) in
   forallb (fun g => forallb (member data) (g_data_drives g)) (all_groups cfg)).

(** [st'] differs from [st] at most in the files of the drives [written]. *)
Definition unchanged_outside (written : list nat) (st st' : state) : Prop :=
  drive_status st' = drive_status st ∧
  length (disk st') = length (disk st) ∧
  ∀ d, d ∉ written → disk st' !! d = disk st !! d.

(** The other online data drives of a group: what a rebuild of [failed]
    reads next to the parity drive. *)
Definition peers (st : state) (failed : nat) (drives : list nat) : list nat :=
  filter (fun d => d ≠ failed ∧ is_online st d) drives.

#[global] Instance group_eq_dec : EqDecision group.
Proof. solve_decision. Defined.

#[global] Instance dbox_eq_dec : EqDecision dbox.
Proof. solve_decision. Defined.

#[global] Instance drive_type_eq_dec : EqDecision drive_type.
Proof. solve_decision. Defined.

(** What one round of the rebuild folds: the parity chunk and the chunks of
    the peers. *)
Definition rebuilt_chunk (cfg : config) (st : state) (failed : nat)
    (g : group) (p i : nat) : bytes :=
  xor_fold (chunk_size cfg)
    (chunk cfg st p i
       :: map (fun d => chunk cfg st d i) (peers st failed (g_data_drives g))).

(** How [rebuild_drives] finds the group of a failed data drive: the domain
    by division, the role by [get_drive_type], the group by the first one
    that lists the drive; [p] is the local-parity drive of that group. *)
Definition rebuild_route (cfg : config) (failed : nat)
    (db : dbox) (g : group) (p : nat) : Prop :=
  drives_per_dbox cfg ≠ 0 ∧
  dboxes cfg !! (failed / drives_per_dbox cfg) = Some db ∧
  get_drive_type cfg failed = Data ∧
  first_group (fun g => bool_decide (failed ∈ g_data_drives g))
              (d_local_groups db) = Some g ∧
  g_parity_drive g = Some p ∧
  p ∉ g_data_drives g.

#[global] Instance rebuild_route_dec cfg failed db g p :
  Decision (rebuild_route cfg failed db g p).
Proof. unfold rebuild_route. apply _. Defined.

(** The same search as a function. *)
Definition route_of (cfg : config) (failed : nat) : option (dbox * group * nat) :=
  if bool_decide (drives_per_dbox cfg = 0) then None else
  db ← dboxes cfg !! (failed / drives_per_dbox cfg);
  if bool_decide (get_drive_type cfg failed = Data) then
    g ← first_group (fun g => bool_decide (failed ∈ g_data_drives g))
                    (d_local_groups db);
    p ← g_parity_drive g;
    if bool_decide (p ∉ g_data_drives g) then Some (db, g, p) else None
  else None.

(** The state after drive [failed] of [st0] fails: it is offline and its
    file holds [junk]. *)
Definition failed_state (st0 : state) (failed : nat) (junk : bytes) : state :=
  set_disk (toggle st0 failed false) (<[failed := junk]> (disk st0)).

(** The parity drive [p] of group [g] holds, chunk for chunk over the whole
    drive, the XOR of all the data drives of the group. *)
Definition parity_consistent (cfg : config) (st : state) (g : group) (p : nat)
  : Prop :=
  Forall (fun i => chunk cfg st p i
                   = xor_fold (chunk_size cfg)
                       (map (fun d => chunk cfg st d i) (g_data_drives g)))
         (seq 0 (drive_size cfg / chunk_size cfg)).

#[global] Instance parity_consistent_dec cfg st g p :
  Decision (parity_consistent cfg st g p).
Proof. unfold parity_consistent. apply _. Defined.

(** Every drive of the list holds at least a whole drive of chunks. *)
Definition whole_files (cfg : config) (st : state) (drives : list nat) : Prop :=
  Forall (fun d => drive_size cfg / chunk_size cfg * chunk_size cfg
                   ≤ length (content st d)) drives.

#[global] Instance whole_files_dec cfg st drives :
  Decision (whole_files cfg st drives).
Proof. unfold whole_files. apply _. Defined.

(** The rule of C2 as the specification words it: the rebuild of [failed]
    leaves in its file what the file held before. *)
Definition rebuild_restores (cfg : config) (st : state) (failed : nat) : Prop :=
  ∀ drives_read notes st',
    rebuild_drives cfg st [failed] true = Some (drives_read, notes, st') →
    content st' failed = content st failed.

(** A fresh small pool switched to HA mode, the write of [sample_file] to
    it, and the failure of data drive 0 after that write. *)
Definition small_ha_fresh : state :=
  State (replicate 484 true) (disk (initialize_drives small_pool)) None None true.

Definition small_ha_written : state :=
  state_after (write_files small_pool small_ha_fresh [sample_file]) small_ha_fresh.

Definition small_ha_failed : state := toggle small_ha_written 0 false.

(** What drive 0 holds after [rebuild_drives([0])] on that pool. *)
Definition small_ha_rebuilt : option bytes :=
  r ← rebuild_drives small_pool small_ha_failed [0] true;
  Some (content r.2 0).

(** The capacity [get_storage_stats] starts from: every data drive of the
    layout, online or not (18 drives in HA mode). *)
Definition total_capacity (cfg : config) (st : state) : Z :=
  s_total (get_storage_stats cfg st).

(** ** Further vocabulary and models *)

(** The written tiny pool after a second write of [sample_file], made while
    data drive 1 is offline. *)
Definition tiny_rewritten : state :=
  state_after (write_files tiny_pool tiny_degraded [sample_file]) tiny_degraded.

(** How [rebuild_drives] finds the group of a failed local-parity drive:
    the domain by division, the role by [get_drive_type], the group by the
    first one whose parity drive it is. *)
Definition parity_route (cfg : config) (failed : nat) (db : dbox) (g : group)
  : Prop :=
  drives_per_dbox cfg ≠ 0 ∧
  dboxes cfg !! (failed / drives_per_dbox cfg) = Some db ∧
  get_drive_type cfg failed = LocalParity ∧
  first_group (fun g => bool_decide (g_parity_drive g = Some failed))
              (d_local_groups db) = Some g.

#[global] Instance parity_route_dec cfg failed db g :
  Decision (parity_route cfg failed db g).
Proof. unfold parity_route. apply _. Defined.

(** The same for a failed global-parity drive: the domain found by division
    is the one whose global-parity drive it is. *)
Definition global_route (cfg : config) (failed : nat) (db : dbox) : Prop :=
  drives_per_dbox cfg ≠ 0 ∧
  dboxes cfg !! (failed / drives_per_dbox cfg) = Some db ∧
  get_drive_type cfg failed = GlobalParity ∧
  d_global_parity_drive db = failed.

#[global] Instance global_route_dec cfg failed db :
  Decision (global_route cfg failed db).
Proof. unfold global_route. apply _. Defined.

(** A drive of the list with the global-parity role is the global-parity
    drive of the domain found by division. *)
Definition global_parity_by_division (cfg : config) (drives : list nat) : Prop :=
  Forall (fun d =>
            get_drive_type cfg d = GlobalParity →
            d_global_parity_drive <$> dboxes cfg !! (d / drives_per_dbox cfg)
            = Some d)
         drives.

#[global] Instance global_parity_by_division_dec cfg drives :
  Decision (global_parity_by_division cfg drives).
Proof. unfold global_parity_by_division. apply _. Defined.

(** [self.drive_status[d] = True] for every drive of the list, in turn. *)
Definition brought_online (status : list bool) (drives : list nat) : list bool :=
  foldl (fun s d => <[d := true]> s) status drives.

(** The written tiny pool with data drive 1, local-parity drive 4, the
    global-parity drive 6 and the spare 7 offline, and what a rebuild of
    these four and of the online drive 0 leaves. *)
Definition tiny_four_failed : state :=
  toggle (toggle (toggle (toggle tiny_written 1 false) 4 false) 6 false) 7 false.

Definition tiny_rebuilt : state :=
  state_after (rebuild_drives tiny_pool tiny_four_failed [1; 4; 6; 7; 0] true)
              tiny_four_failed.

(** ** Whole-domain failures *)

(** [for drive_id in drives: self.drive_status[drive_id] = value]; an index
    past the end of the list raises. *)
Definition set_status_all (st : state) (drives : list nat) (value : bool)
  : option state :=
  for_each (fun s drive_id =>
              if bool_decide (drive_id < length (drive_status s))
              then Some (set_status s (<[drive_id := value]> (drive_status s)))
              else None)
           drives st.




(** ** VDATASIM-v1.0: the integrity analyzer *)

Module V10Analyzer.

Inductive verdict :=
| AllDrivesOnline
| OneFailure
| GroupA
| GroupB
| Distributed
| DataLossPossible (nfailures : nat).

Definition check_data_integrity (st : state) : bool * verdict :=
  let offline_drives := offline_from 0 (drive_status st) in
  if bool_decide (length offline_drives = 0) then (true, AllDrivesOnline)
  else if bool_decide (length offline_drives = 1) then (true, OneFailure)
  else
    let group_a_failures := filter (fun d => d < 71) offline_drives in
    let group_b_failures := filter (fun d => 71 ≤ d ∧ d < 142) offline_drives in
    if bool_decide (length group_a_failures ≤ 2 ∧ length group_b_failures = 0)
    then (true, GroupA)
    else if bool_decide (length group_b_failures ≤ 2 ∧ length group_a_failures = 0)
    then (true, GroupB)
    else if bool_decide (length group_a_failures ≤ 1 ∧ length group_b_failures ≤ 1)
    then (true, Distributed)
    else (false, DataLossPossible (length offline_drives)).

End V10Analyzer.

(** A 146-drive status list with the four parity drives and the data drives
    3 and 70 offline. *)
Definition v10_parity_lost : state :=
  State (<[3 := false]> (<[70 := false]> (replicate 142 true))
           ++ replicate 4 false)
        [] None None false.

(** ** VDSimm-v1.1: ten local groups, four Dnodes *)

Module V11.

(** [self.local_groups]: ten groups of 14 data drives, parity on 142-151;
    the data drives 140 and 141 are in no group. *)
Definition local_groups : list group :=
  map (fun i => Group (seq (i * 14) 14) (Some (142 + i))) (seq 0 10).

Definition global_parity_drives : list nat := [152; 153].

Definition hot_spare_drives : list nat := [154; 155].

Record dnode := Dnode {
  n_id : nat;
  n_drives : list nat;
  n_name : string
}.

Definition _configure_dnodes : list dnode :=
  [ Dnode 0 (seq 0 35 ++ [142; 143; 144; 152] ++ [154]) "Dnode-0";
    Dnode 1 (seq 35 35 ++ [145; 146; 147; 153] ++ [155]) "Dnode-1";
    Dnode 2 (seq 70 35 ++ [148; 149; 150]) "Dnode-2";
    Dnode 3 (seq 105 37 ++ [151]) "Dnode-3" ].

Inductive summary :=
| AllDrivesOnline
| DataLossInGroups (vulnerable : list nat)
| TooManyGroupFailures (vulnerable : list nat)
| RecoverableWith (nfailures : nat).

(** [for group_id, group in enumerate(self.local_groups)] *)
Fixpoint check_groups (st : state) (group_id : nat) (gs : list group)
    (vulnerable_groups : list nat) : option (list nat) :=
  match gs with
  | [] => Some vulnerable_groups
  | g :: rest =>
      group_failures ← group_failures st (g_data_drives g);
      parity_drive ← g_parity_drive g;
      parity_online ← drive_status st !! parity_drive;
      let parity_failed := negb parity_online in
      if bool_decide (1 < group_failures ∨
                      (group_failures = 1 ∧ parity_failed = true))
      then check_groups st (S group_id) rest (vulnerable_groups ++ [group_id])
      else check_groups st (S group_id) rest vulnerable_groups
  end.

Definition check_result : Type := bool * summary * list nat.

Definition check_data_integrity (st : state) : option check_result :=
  let offline_drives := offline_from 0 (drive_status st) in
  if bool_decide (length offline_drives = 0)
  then Some (true, AllDrivesOnline, [])
  else
    vulnerable_groups ← check_groups st 0 local_groups [];
    global_parity_failures ← group_failures st global_parity_drives;
    if bool_decide (0 < length vulnerable_groups ∧ 2 ≤ global_parity_failures)
    then Some (false, DataLossInGroups vulnerable_groups, vulnerable_groups)
    else if bool_decide (2 < length vulnerable_groups)
    then Some (false, TooManyGroupFailures vulnerable_groups, vulnerable_groups)
    else Some (true, RecoverableWith (length offline_drives), vulnerable_groups).

(** The what-if of a whole Dnode: the status list is copied, the drives of
    the Dnode are marked failed, the analyzer runs, and the copy is put
    back. *)
Definition check_dnode_failure_impact (st : state) (dnode_id : nat)
  : option (check_result * state) :=
  dnode ← _configure_dnodes !! dnode_id;
  let failed_drives := n_drives dnode in
  let original_status := drive_status st in
  st1 ← set_status_all st failed_drives false;
  r ← check_data_integrity st1;
  Some (r, set_status st1 original_status).

(** The 156-drive pool; it has no domains of the later kind. *)
Definition pool (dsz csz : nat) : config := Config 156 dsz csz 156 [].

(** Global parity of v1.1: drive 152 takes the plain XOR of the online data
    drives, drive 153 the XOR weighted as in v1.0; both files are
    replaced. *)
Definition _calculate_global_parity (cfg : config) (st : state)
    (chunks_per_drive : nat) : option state :=
  pd0 ← parity_data cfg st plain (seq 0 142) chunks_per_drive;
  st1 ← write_wb st 152 (ljust pd0 (drive_size cfg));
  pd1 ← parity_data cfg st1 V10.weighted10 (seq 0 142) chunks_per_drive;
  write_wb st1 153 (ljust pd1 (drive_size cfg)).

(** [rebuild_drive]: a data drive of a local group is rebuilt from the
    parity of the group ([_rebuild_using_local_parity] is the loop of
    [_rebuild_data_drive]), a parity drive is recomputed, any other drive
    is left as it is; the preview update at the end opens the file. *)
Definition rebuild_drive (cfg : config) (st : state) (failed_drive : nat)
  : option state :=
  st' ← match first_group (fun g => bool_decide (failed_drive ∈ g_data_drives g))
                          local_groups with
        | Some g =>
            '(_, st') ← _rebuild_data_drive cfg st failed_drive g; Some st'
        | None =>
            if bool_decide (Some failed_drive ∈ map g_parity_drive local_groups)
            then
              match first_group
                      (fun g => bool_decide (g_parity_drive g = Some failed_drive))
                      local_groups with
              | Some g =>
                  if bool_decide (chunk_size cfg = 0) then None else
                  _calculate_local_parity_group cfg st g
                    (drive_size cfg / chunk_size cfg)
              | None => Some st
              end
            else if bool_decide (failed_drive ∈ global_parity_drives)
            then
              if bool_decide (chunk_size cfg = 0) then None else
              _calculate_global_parity cfg st (drive_size cfg / chunk_size cfg)
            else Some st
        end;
  _ ← disk st' !! failed_drive;
  Some st'.

Inductive rebuild_all_result :=
| NoDrivesToRebuild
| RebuildFailed (message : summary)
| Rebuilt (ndrives : nat).

(** [StorageGUI.rebuild_all], the engine side of it: the analyzer decides
    whether to go on, then every offline drive is rebuilt and set online.
    The loop runs in a thread of its own; it is taken here as one call. *)
Definition rebuild_all (cfg : config) (st : state)
  : option (rebuild_all_result * state) :=
  let offline_drives := offline_from 0 (drive_status st) in
  if bool_decide (length offline_drives = 0) then Some (NoDrivesToRebuild, st)
  else
    '(can_recover, message, vulnerable) ← check_data_integrity st;
    if negb can_recover then Some (RebuildFailed message, st)
    else
      st' ← for_each (fun s drive_id =>
                        s1 ← rebuild_drive cfg s drive_id;
                        if bool_decide (drive_id < length (drive_status s1))
                        then Some (set_status s1 (<[drive_id := true]> (drive_status s1)))
                        else None)
                     offline_drives st;
      Some (Rebuilt (length offline_drives), st').

End V11.

(** A 156-drive pool of VDSimm-v1.1 with every drive online. *)
Definition v11_fresh : state :=
  State (replicate 156 true) (replicate 156 []) None None false.

(** Every drive online in [st'] is online in [st]: [st'] has the failures
    of [st] and maybe more. *)
Definition more_failures (st st' : state) : Prop :=
  Forall2 (fun online online' : bool => online' → online)
          (drive_status st) (drive_status st').

#[global] Instance more_failures_dec st st' : Decision (more_failures st st').
Proof. unfold more_failures. apply _. Defined.

(** The role of a drive by its offset in its domain: 38 data drives, three
    local-parity drives, one global-parity drive, two spares. *)
Definition role_by_offset (offset : nat) : drive_type :=
  if bool_decide (offset < 38) then Data
  else if bool_decide (offset < 41) then LocalParity
  else if bool_decide (offset = 41) then GlobalParity
  else HotSpare.

(** ** Reading back what [write_files] packed *)


Inductive retrieve_message := NoFileStored | FileRetrieved.

(** [retrieve_file] of VDSimm2-5-26: [not self.stored_file_data] holds for
    [None] and for the empty buffer. *)
Definition retrieve_file (st : state) : option bytes * retrieve_message :=
  match stored_file_data st with
  | Some (b :: data) => (Some (b :: data), FileRetrieved)
  | _ => (None, NoFileStored)
  end.

(** ** VDATASIM-v2.1: capacity, packing and the file table *)

Module V21Files.

(** One entry of [self.stored_files]; the name is kept as its UTF-8
    bytes. *)
Record file_meta := FileMeta {
  m_name : bytes;
  m_size : nat;
  m_offset : nat
}.

Definition get_available_capacity (cfg : config) (st : state) : option nat :=
  if ha_mode st then Some (18 * drive_size cfg)
  else
    let usable_drives := length (get_all_data_drives cfg) in
    online ← online_of st (get_all_data_drives cfg);
    let online_count := length online in
    let usable_drives := Nat.min usable_drives online_count in
    Some (usable_drives * drive_size cfg).

(** The packing loop of v2.1's [write_files], which also fills
    [file_metadata]. *)
Fixpoint pack_files (input_files : list input_file) (combined_data : bytes)
    (file_metadata : list file_meta) : option (bytes * list file_meta) :=
  match input_files with
  | [] => Some (combined_data, file_metadata)
  | f :: rest =>
      let file_size := length (f_data f) in
      let file_metadata :=
        file_metadata ++ [FileMeta (f_basename f) file_size (length combined_data)] in
      h1 ← struct_pack 4 (length (f_basename f));
      h2 ← struct_pack 8 file_size;
      pack_files rest (combined_data ++ (h1 ++ f_basename f ++ h2) ++ f_data f)
                 file_metadata
  end.

(** v2.1's [write_files] on the engine state and [self.stored_files]:
    [os.path.getsize] is the length of the file's bytes. *)
Definition write_files (cfg : config) (st : state) (stored_files : list file_meta)
    (input_files : list input_file)
  : option ((bool * message) * state * list file_meta) :=
  match input_files with
  | [] => Some ((false, NoFilesSelected), st, stored_files)
  | _ =>
      let total_size := foldr Nat.add 0 (map (fun f => length (f_data f)) input_files) in
      available ← get_available_capacity cfg st;
      if bool_decide (available < total_size)
      then Some ((false, FilesTooLarge (Z.of_nat total_size) (Z.of_nat available)),
                 st, stored_files)
      else
        '(combined_data, file_metadata) ← pack_files input_files [] [];
        let stored_files := file_metadata in
        if bool_decide (chunk_size cfg = 0) then None else
        let combined_data :=
          ljust combined_data (padded_size cfg (length combined_data)) in
        '(result, st') ← (if ha_mode st then _write_data_ha_mode cfg st combined_data
                          else _write_data_normal_mode cfg st combined_data);
        Some (result, st', stored_files)
  end.

End V21Files.



(** A call changed no field of [self] but, maybe, the drive files. *)
Definition same_store (st st' : state) : Prop :=
  drive_status st' = drive_status st ∧
  stored_file_data st' = stored_file_data st ∧
  stored_file_name st' = stored_file_name st ∧
  ha_mode st' = ha_mode st.

(** ** The parity of an HA-mode write *)

(** The drives of the list whose read of chunk [i] returns a whole chunk:
    [_calculate_ha_parity] folds these, online or not. *)
Definition whole_chunk_drives (cfg : config) (st : state) (drives : list nat)
    (i : nat) : list nat :=
  filter (fun d => length (chunk cfg st d i) = chunk_size cfg) drives.

(** A parity drive as [_calculate_ha_parity] leaves it: for each stripe the
    plain XOR of the chunks of [drives], padded to the drive size. *)
Definition ha_parity_image (cfg : config) (st : state) (drives : list nat)
    (num_stripes : nat) : bytes :=
  ljust (concat (map (fun i =>
                        xor_fold (chunk_size cfg)
                          (map (fun d => chunk cfg st d i)
                               (whole_chunk_drives cfg st drives i)))
                     (seq 0 num_stripes)))
        (drive_size cfg).

(** The 22 drives the HA selection finds in a pool with every drive
    online. *)
Definition ha_selected_22 : list nat :=
  ha_selected ++ [396; 397; 440; 441].



(** A 156-drive pool of VDSimm-v1.1 in which drive [d] alone is offline and
    the files hold [dk]. *)
Definition v11_one_offline (d : nat) (dk : list bytes) : state :=
  State (<[d := false]> (replicate 156 true)) dk None None false.

(** What the rebuild of every offline drive of [tiny_four_failed] leaves. *)
Definition tiny_all_rebuilt : state :=
  state_after (rebuild_drives tiny_pool tiny_four_failed
                 (offline_from 0 (drive_status tiny_four_failed)) true)
              tiny_four_failed.

(** The written tiny pool with both data drives of group 0 offline. *)
Definition tiny_two_failed : state :=
  toggle (toggle tiny_written 0 false) 1 false.

(** The data drives of a list that are not online. *)
Definition offline_drives (st : state) (drives : list nat) : list nat :=
  filter (fun d => ¬ is_online st d) drives.

(** ** Proofs *)

(** *** Lists, files and the XOR-fold *)

Lemma mapM_total {A B} (f : A → option B) (g : A → B) (l : list A) :
  Forall (fun x => f x = Some (g x)) l → mapM f l = Some (map g l).
Proof.
  intros H. apply mapM_Some. induction H; simpl; constructor; auto.
Qed.

Lemma for_each_app {A S} (body : S → A → option S) (l1 l2 : list A) (s : S) :
  for_each body (l1 ++ l2) s = (s' ← for_each body l1 s; for_each body l2 s').
Proof.
  revert s. induction l1 as [|x l1 IH]; intros s; simpl; [done|].
  destruct (body s x) as [s1|]; simpl; [apply IH | done].
Qed.

Lemma for_each_nested {A B S} (body : S → B → option S) (inner : A → list B)
    (l : list A) (s : S) :
  for_each (fun s x => for_each body (inner x) s) l s
  = for_each body (concat (map inner l)) s.
Proof.
  revert s. induction l as [|x l IH]; intros s; simpl; [done|].
  rewrite for_each_app. destruct (for_each body (inner x) s); simpl; auto.
Qed.

Lemma ixor_same_length (p c : bytes) :
  length c = length p → ixor p c = Some (xor_bytes p c).
Proof. intros H. unfold ixor. by rewrite bool_decide_eq_true_2. Qed.

Lemma length_xor_bytes (p c : bytes) :
  length c = length p → length (xor_bytes p c) = length p.
Proof. intros H. unfold xor_bytes. by rewrite length_zip_with_l_eq. Qed.

Lemma xor_into_fold (chunks : list bytes) : ∀ p : bytes,
  Forall (fun c => length c = length p) chunks →
  xor_into p chunks = Some (foldl xor_bytes p chunks).
Proof.
  induction chunks as [|c chunks IH]; intros p H; simpl; [done|].
  inversion H as [|? ? Hc Hrest]; subst.
  rewrite ixor_same_length by done. simpl. apply IH.
  rewrite length_xor_bytes by done. done.
Qed.

Lemma calculate_parity_fold (cfg : config) (chunks : list bytes) :
  Forall (fun c => length c = chunk_size cfg) chunks →
  calculate_parity cfg chunks = Some (xor_fold (chunk_size cfg) chunks).
Proof.
  intros H. unfold calculate_parity, xor_fold.
  case_bool_decide as Hlen.
  - destruct chunks; [done | discriminate].
  - apply xor_into_fold. by rewrite length_replicate.
Qed.

Lemma length_foldl_xor (chunks : list bytes) : ∀ p : bytes,
  Forall (fun c => length c = length p) chunks →
  length (foldl xor_bytes p chunks) = length p.
Proof.
  induction chunks as [|c chunks IH]; intros p H; simpl; [done|].
  inversion H as [|? ? Hc Hrest]; subst.
  rewrite IH; rewrite length_xor_bytes by done; done.
Qed.

Lemma length_xor_fold (n : nat) (chunks : list bytes) :
  Forall (fun c => length c = n) chunks → length (xor_fold n chunks) = n.
Proof.
  intros H. unfold xor_fold. rewrite length_foldl_xor; rewrite length_replicate; done.
Qed.

Lemma lookup_status (st : state) (d : nat) :
  d < length (drive_status st) →
  drive_status st !! d = Some (is_online st d).
Proof.
  intros H. apply lookup_lt_is_Some in H as [b Hb].
  unfold is_online. by rewrite Hb.
Qed.

Lemma lookup_disk (st : state) (d : nat) :
  d < length (disk st) → disk st !! d = Some (content st d).
Proof.
  intros H. apply lookup_lt_is_Some in H as [c Hc].
  unfold content. by rewrite Hc.
Qed.

Lemma read_chunk_chunk (cfg : config) (st : state) (d i : nat) :
  d < length (disk st) → read_chunk cfg st d i = Some (chunk cfg st d i).
Proof. intros H. unfold read_chunk, chunk. by rewrite lookup_disk. Qed.

(** *** The parity loops read the participants and nothing else *)

Lemma online_chunks_participants (cfg : config) (st : state)
    (tr : nat → bytes → bytes) (drives : list nat) (i : nat) :
  drives_exist st drives →
  online_chunks cfg st tr drives i
  = Some (map (fun d => tr d (chunk cfg st d i)) (participants cfg st drives i)).
Proof.
  unfold participants.
  induction 1 as [|d drives [Hs Hd] _ IH]; simpl; [done|].
  rewrite lookup_status by done. simpl.
  rewrite filter_cons.
  destruct (is_online st d) eqn:Hon; simpl.
  - rewrite read_chunk_chunk by done. simpl. rewrite IH. simpl.
    case_bool_decide as Hlen.
    + rewrite decide_True by done. done.
    + rewrite decide_False by (intros [_ ?]; done). done.
  - by rewrite IH.
Qed.

Lemma participants_full (cfg : config) (st : state) (drives : list nat) (i : nat) :
  Forall (fun d => length (chunk cfg st d i) = chunk_size cfg)
         (participants cfg st drives i).
Proof.
  unfold participants. apply Forall_forall. intros d Hd.
  apply list_elem_of_filter in Hd. tauto.
Qed.

Lemma parity_data_participants (cfg : config) (st : state)
    (tr : nat → bytes → bytes) (drives : list nat) (n : nat) :
  drives_exist st drives →
  (∀ d c, length (tr d c) = length c) →
  parity_data cfg st tr drives n
  = Some (concat (map (fun i => parity_chunk_of cfg st tr (participants cfg st drives i) i)
                      (seq 0 n))).
Proof.
  intros Hex Htr. unfold parity_data.
  erewrite mapM_total; [done|].
  apply Forall_forall. intros i _.
  rewrite online_chunks_participants by done. simpl.
  apply calculate_parity_fold.
  apply Forall_map. eapply Forall_impl; [apply participants_full|].
  intros d Hd. simpl. by rewrite Htr.
Qed.

Lemma chunk_full (cfg : config) (st : state) (d i n : nat) :
  i < n → n * chunk_size cfg ≤ length (content st d) →
  length (chunk cfg st d i) = chunk_size cfg.
Proof.
  intros Hi Hn. unfold chunk, read_at.
  rewrite length_take, length_drop. nia.
Qed.

Lemma participants_online (cfg : config) (st : state) (drives : list nat)
    (i n : nat) :
  holds_chunks cfg st drives n → i < n →
  participants cfg st drives i = online_drives st drives.
Proof.
  intros H Hi. unfold participants, online_drives.
  induction H as [|d drives Hd _ IH]; [done|].
  rewrite !filter_cons, IH.
  destruct (decide (is_online st d)) as [Hon|Hoff].
  - rewrite decide_True; [done|]. split; [done|].
    eapply chunk_full; eauto.
  - rewrite decide_False; [done|]. tauto.
Qed.

Lemma parity_data_online (cfg : config) (st : state)
    (tr : nat → bytes → bytes) (drives : list nat) (n : nat) :
  drives_exist st drives →
  holds_chunks cfg st drives n →
  (∀ d c, length (tr d c) = length c) →
  parity_data cfg st tr drives n
  = Some (concat (map (parity_chunk_of cfg st tr (online_drives st drives))
                      (seq 0 n))).
Proof.
  intros Hex Hn Htr. rewrite parity_data_participants by done.
  f_equal. f_equal. apply map_ext_in. intros i Hi.
  apply in_seq in Hi. erewrite participants_online; eauto. lia.
Qed.

Lemma length_weighted (d : nat) (c : bytes) : length (weighted d c) = length c.
Proof. unfold weighted. by rewrite length_map. Qed.

Lemma length_plain (d : nat) (c : bytes) : length (plain d c) = length c.
Proof. done. Qed.

(** *** Writing a drive file *)

Lemma write_wb_Some (st : state) (d : nat) (data : bytes) :
  d < length (disk st) →
  write_wb st d data = Some (set_disk st (<[d := data]> (disk st))).
Proof. intros H. unfold write_wb. by rewrite lookup_disk. Qed.

Lemma write_wb_inv (st st' : state) (d : nat) (data : bytes) :
  write_wb st d data = Some st' →
  d < length (disk st) ∧ st' = set_disk st (<[d := data]> (disk st)).
Proof.
  unfold write_wb. intros H.
  destruct (disk st !! d) as [c|] eqn:Hd; simpl in H; [|done].
  split; [by eapply lookup_lt_Some | congruence].
Qed.

Lemma content_set_disk_eq (st : state) (d : nat) (data : bytes) :
  d < length (disk st) →
  content (set_disk st (<[d := data]> (disk st))) d = data.
Proof. intros H. unfold content. simpl. by rewrite list_lookup_insert_eq. Qed.

Lemma content_set_disk_ne (st : state) (d d' : nat) (data : bytes) :
  d ≠ d' →
  content (set_disk st (<[d := data]> (disk st))) d' = content st d'.
Proof. intros H. unfold content. simpl. by rewrite list_lookup_insert_ne. Qed.

(** *** The weighting of the global parity *)

Lemma weight_value (d : nat) : weight d = (Z.of_nat d mod 255 + 1)%Z.
Proof.
  unfold weight, uint8.
  pose proof (Z.mod_pos_bound (Z.of_nat d) 255 ltac:(lia)).
  apply Z.mod_small. lia.
Qed.

Lemma weighted_byte (d : nat) (b : Z) :
  (0 ≤ b < 256)%Z →
  (uint16 b * weight d < 65536)%Z ∧
  uint8 (uint16 (uint16 b * weight d) mod 256)%Z
  = ((b * (Z.of_nat d mod 255 + 1)) mod 256)%Z.
Proof.
  intros Hb. rewrite weight_value.
  pose proof (Z.mod_pos_bound (Z.of_nat d) 255 ltac:(lia)) as Hw.
  assert (uint16 b = b) as -> by (unfold uint16; apply Z.mod_small; lia).
  assert (0 ≤ b * (Z.of_nat d mod 255 + 1) < 65536)%Z as Hp by nia.
  split; [lia|].
  unfold uint16, uint8. rewrite (Z.mod_small _ 65536) by lia.
  apply Z.mod_small. apply Z.mod_pos_bound. lia.
Qed.

Lemma chunk_bytes_ok (cfg : config) (st : state) (d i : nat) :
  bytes_ok st → Forall (fun b => 0 ≤ b < 256)%Z (chunk cfg st d i).
Proof.
  intros H. unfold chunk, read_at, content.
  apply Forall_take, Forall_drop.
  destruct (disk st !! d) as [c|] eqn:Hc; simpl; [|constructor].
  eapply Forall_lookup_1 in H; eauto.
Qed.

Lemma weighted_chunk (cfg : config) (st : state) (d i : nat) :
  bytes_ok st →
  weighted d (chunk cfg st d i)
  = map (fun b => (b * (Z.of_nat d mod 255 + 1)) mod 256)%Z (chunk cfg st d i).
Proof.
  intros H. unfold weighted. apply map_ext_in. intros b Hb.
  apply weighted_byte. 
  pose proof (chunk_bytes_ok cfg st d i H) as Hok.
  rewrite Forall_forall in Hok. apply Hok. by apply list_elem_of_In.
Qed.

(** *** Offline drives do not reach the fold *)

Lemma online_drives_agree (st1 st2 : state) (drives : list nat) :
  drive_status st1 = drive_status st2 →
  online_drives st1 drives = online_drives st2 drives.
Proof. intros H. unfold online_drives, is_online. by rewrite H. Qed.

Lemma parity_image_agree (cfg : config) (st1 st2 : state)
    (tr : nat → bytes → bytes) (drives : list nat) (n : nat) :
  agree_online st1 st2 drives →
  parity_image cfg st1 tr (online_drives st1 drives) n
  = parity_image cfg st2 tr (online_drives st2 drives) n.
Proof.
  intros [Hs Hc]. unfold parity_image. f_equal. f_equal.
  rewrite <- (online_drives_agree st1 st2) by done.
  apply map_ext. intros i. unfold parity_chunk_of. f_equal.
  apply map_ext_in. intros d Hd. f_equal.
  apply list_elem_of_In, list_elem_of_filter in Hd as [Hon Hin].
  rewrite Forall_forall in Hc. unfold chunk, content. by rewrite (Hc d Hin Hon).
Qed.

Lemma local_parity_written (cfg : config) (st : state) (g : group) (p n : nat) :
  g_parity_drive g = Some p → p < length (disk st) →
  drives_exist st (g_data_drives g) →
  holds_chunks cfg st (g_data_drives g) n →
  _calculate_local_parity_group cfg st g n
  = Some (set_disk st (<[p := parity_image cfg st plain
                                  (online_drives st (g_data_drives g)) n]>
                         (disk st))).
Proof.
  intros Hp Hlt Hex Hn. unfold _calculate_local_parity_group. rewrite Hp.
  rewrite parity_data_online by (done || apply length_plain). simpl.
  by rewrite write_wb_Some.
Qed.

Lemma local_parity_skipped (cfg : config) (st : state) (g : group) (n : nat) :
  g_parity_drive g = None → _calculate_local_parity_group cfg st g n = Some st.
Proof. intros H. unfold _calculate_local_parity_group. by rewrite H. Qed.

Lemma global_parity_written (cfg : config) (st : state) (db : dbox) (n : nat) :
  d_global_parity_drive db < length (disk st) →
  drives_exist st (d_data_drives db) →
  holds_chunks cfg st (d_data_drives db) n →
  _calculate_global_parity_dbox cfg st db n
  = Some (set_disk st (<[d_global_parity_drive db :=
                           parity_image cfg st weighted
                             (online_drives st (d_data_drives db)) n]>
                         (disk st))).
Proof.
  intros Hlt Hex Hn. unfold _calculate_global_parity_dbox.
  rewrite parity_data_online by (done || apply length_weighted). simpl.
  by rewrite write_wb_Some.
Qed.

(** C7: every parity recomputation, local-group and domain-global alike,
    leaves each offline drive out of the XOR-fold: the parity written is the
    fold over exactly the online data drives of the group (of the domain),
    and it is the same whatever the offline drives hold. *)
Theorem parity_recomputation_skips_offline_drives
    (cfg : config) (st : state) (db : dbox) (g : group) (p n : nat) :
  g_parity_drive g = Some p →
  p < length (disk st) →
  d_global_parity_drive db < length (disk st) →
  drives_exist st (g_data_drives g) →
  drives_exist st (d_data_drives db) →
  holds_chunks cfg st (g_data_drives g) n →
  holds_chunks cfg st (d_data_drives db) n →
  (∃ st', _calculate_local_parity_group cfg st g n = Some st' ∧
          content st' p
          = parity_image cfg st plain (online_drives st (g_data_drives g)) n) ∧
  (∃ st', _calculate_global_parity_dbox cfg st db n = Some st' ∧
          content st' (d_global_parity_drive db)
          = parity_image cfg st weighted (online_drives st (d_data_drives db)) n) ∧
  (∀ st2, agree_online st st2 (g_data_drives g) →
          parity_image cfg st plain (online_drives st (g_data_drives g)) n
          = parity_image cfg st2 plain (online_drives st2 (g_data_drives g)) n) ∧
  (∀ st2, agree_online st st2 (d_data_drives db) →
          parity_image cfg st weighted (online_drives st (d_data_drives db)) n
          = parity_image cfg st2 weighted (online_drives st2 (d_data_drives db)) n).
Proof.
  intros Hp Hlt Hgl Hex1 Hex2 Hn1 Hn2. repeat split.
  - eexists. split; [by apply local_parity_written|].
    by apply content_set_disk_eq.
  - eexists. split; [by apply global_parity_written|].
    by apply content_set_disk_eq.
  - intros st2 H. by apply parity_image_agree.
  - intros st2 H. by apply parity_image_agree.
Qed.

Lemma parity_recomputation_skips_offline_drives_witness :
  (∃ st', _calculate_local_parity_group tiny_pool tiny_degraded tiny_group0 8 = Some st' ∧
          content st' 4
          = parity_image tiny_pool tiny_degraded plain
              (online_drives tiny_degraded (g_data_drives tiny_group0)) 8) ∧
  (∃ st', _calculate_global_parity_dbox tiny_pool tiny_degraded tiny_dbox 8 = Some st' ∧
          content st' (d_global_parity_drive tiny_dbox)
          = parity_image tiny_pool tiny_degraded weighted
              (online_drives tiny_degraded (d_data_drives tiny_dbox)) 8) ∧
  (∀ st2, agree_online tiny_degraded st2 (g_data_drives tiny_group0) →
          parity_image tiny_pool tiny_degraded plain
            (online_drives tiny_degraded (g_data_drives tiny_group0)) 8
          = parity_image tiny_pool st2 plain
              (online_drives st2 (g_data_drives tiny_group0)) 8) ∧
  (∀ st2, agree_online tiny_degraded st2 (d_data_drives tiny_dbox) →
          parity_image tiny_pool tiny_degraded weighted
            (online_drives tiny_degraded (d_data_drives tiny_dbox)) 8
          = parity_image tiny_pool st2 weighted
              (online_drives st2 (d_data_drives tiny_dbox)) 8).
Proof.
  apply (parity_recomputation_skips_offline_drives
           tiny_pool tiny_degraded tiny_dbox tiny_group0 4 8); by_compute.
Defined.

(** C5: in the weighted global parity of a domain every byte [b] of every
    chunk of a participating drive [d] becomes [(b * w) mod 256] with
    [w = (d mod 255) + 1]; the product is taken in 16 bits, where it cannot
    overflow; the parity chunk is the XOR-fold of the transformed chunks. *)
Theorem weighted_global_parity_transform
    (cfg : config) (st : state) (db : dbox) (n : nat) :
  bytes_ok st →
  drives_exist st (d_data_drives db) →
  d_global_parity_drive db < length (disk st) →
  (∀ (d : nat) (b : Z), (0 ≤ b < 256)%Z →
     weight d = (Z.of_nat d mod 255 + 1)%Z ∧
     (uint16 b * weight d < 65536)%Z ∧
     weighted d [b] = [((b * (Z.of_nat d mod 255 + 1)) mod 256)%Z]) ∧
  ∃ st', _calculate_global_parity_dbox cfg st db n = Some st' ∧
    content st' (d_global_parity_drive db)
    = ljust (concat (map (fun i =>
               xor_fold (chunk_size cfg)
                 (map (fun d => map (fun b => (b * (Z.of_nat d mod 255 + 1)) mod 256)%Z
                                    (chunk cfg st d i))
                      (participants cfg st (d_data_drives db) i)))
               (seq 0 n)))
            (drive_size cfg).
Proof.
  intros Hok Hex Hlt. split.
  - intros d b Hb. split; [apply weight_value|].
    destruct (weighted_byte d b Hb) as [Hlt16 Heq].
    split; [done|]. unfold weighted. simpl. by rewrite Heq.
  - unfold _calculate_global_parity_dbox.
    rewrite parity_data_participants by (done || apply length_weighted). simpl.
    rewrite write_wb_Some by done. eexists. split; [done|].
    rewrite content_set_disk_eq by done. f_equal. f_equal.
    apply map_ext. intros i. unfold parity_chunk_of. f_equal.
    apply map_ext. intros d. by apply weighted_chunk.
Qed.

Lemma weighted_global_parity_transform_witness :
  (∀ (d : nat) (b : Z), (0 ≤ b < 256)%Z →
     weight d = (Z.of_nat d mod 255 + 1)%Z ∧
     (uint16 b * weight d < 65536)%Z ∧
     weighted d [b] = [((b * (Z.of_nat d mod 255 + 1)) mod 256)%Z]) ∧
  ∃ st', _calculate_global_parity_dbox tiny_pool tiny_degraded tiny_dbox 8 = Some st' ∧
    content st' (d_global_parity_drive tiny_dbox)
    = ljust (concat (map (fun i =>
               xor_fold (chunk_size tiny_pool)
                 (map (fun d => map (fun b => (b * (Z.of_nat d mod 255 + 1)) mod 256)%Z
                                    (chunk tiny_pool tiny_degraded d i))
                      (participants tiny_pool tiny_degraded (d_data_drives tiny_dbox) i)))
               (seq 0 8)))
            (drive_size tiny_pool).
Proof.
  apply (weighted_global_parity_transform tiny_pool tiny_degraded tiny_dbox 8);
    by_compute.
Defined.

(** *** The capacity check of [write_files] *)

Lemma length_le_bytes (w : nat) : ∀ n : Z, length (le_bytes w n) = w.
Proof. induction w as [|w IH]; intros n; simpl; [done | by rewrite IH]. Qed.

Lemma struct_pack_length (w n : nat) (b : bytes) :
  struct_pack w n = Some b → length b = w.
Proof.
  unfold struct_pack. case_bool_decide; [|done].
  intros [= <-]. apply length_le_bytes.
Qed.

Lemma combine_files_length (files : list input_file) : ∀ (acc combined : bytes),
  combine_files files acc = Some combined →
  length acc + 12 * length files ≤ length combined.
Proof.
  induction files as [|f files IH]; intros acc combined H; simpl in *.
  - injection H as <-. lia.
  - destruct (struct_pack 4 _) as [h1|] eqn:H1; simpl in H; [|done].
    destruct (struct_pack 8 _) as [h2|] eqn:H2; simpl in H; [|done].
    apply struct_pack_length in H1, H2.
    apply IH in H. rewrite !length_app in H. lia.
Qed.

Lemma normal_mode_message (cfg : config) (st st' : state) (data : bytes)
    (ok : bool) (m : message) (size avail : Z) :
  _write_data_normal_mode cfg st data = Some ((ok, m), st') →
  m ≠ FilesTooLarge size avail.
Proof.
  unfold _write_data_normal_mode. intros H.
  repeat (case_bool_decide || case_match || simplify_option_eq); done.
Qed.

Lemma ha_mode_message (cfg : config) (st st' : state) (data : bytes)
    (ok : bool) (m : message) (size avail : Z) :
  _write_data_ha_mode cfg st data = Some ((ok, m), st') →
  m ≠ FilesTooLarge size avail.
Proof.
  unfold _write_data_ha_mode. intros H.
  repeat (case_bool_decide || case_match || simplify_option_eq); done.
Qed.

Lemma stats_after_store (cfg : config) (st : state) (data : bytes) (name : string) :
  0 < length data →
  s_available (get_storage_stats cfg (set_stored st data name))
  = (total_capacity cfg st - Z.of_nat (length data))%Z.
Proof.
  intros H. unfold total_capacity, get_storage_stats. simpl.
  destruct data; [simpl in H; lia | done].
Qed.

(** C9: [write_files] stores the combined buffer and its name before the
    capacity check.  A call rejected for capacity leaves every drive as it
    was and the stored-file fields replaced, and the available capacity it
    compared with is the total less the size of the new buffer itself. *)
Theorem rejected_write_keeps_drives_but_not_metadata
    (cfg : config) (st st' : state) (files : list input_file) (size avail : Z) :
  write_files cfg st files = Some ((false, FilesTooLarge size avail), st') →
  ∃ combined,
    combine_files files [] = Some combined ∧
    disk st' = disk st ∧
    drive_status st' = drive_status st ∧
    stored_file_data st' = Some combined ∧
    stored_file_name st'
    = Some (match files with [f] => f_path f | _ => "combined_files.dat"%string end) ∧
    size = Z.of_nat (length combined) ∧
    avail = (total_capacity cfg st - Z.of_nat (length combined))%Z ∧
    (size > avail)%Z.
Proof.
  unfold write_files. intros H.
  destruct files as [|f fs]; [done|].
  destruct (combine_files (f :: fs) []) as [combined|] eqn:Hc;
    cbn -[get_storage_stats set_stored] in H; [|done].
  pose proof (combine_files_length _ _ _ Hc) as Hlen. simpl in Hlen.
  rewrite stats_after_store in H by lia.
  case_bool_decide as Hgt.
  - injection H as <- <- <-. exists combined.
    by repeat split.
  - exfalso. case_bool_decide; [done|]. simpl in H.
    destruct (ha_mode st).
    + by eapply ha_mode_message.
    + by eapply normal_mode_message.
Qed.

Lemma rejected_write_keeps_drives_but_not_metadata_witness :
  ∃ combined,
    combine_files [big_file] [] = Some combined ∧
    disk tiny_rejected = disk tiny_written ∧
    drive_status tiny_rejected = drive_status tiny_written ∧
    stored_file_data tiny_rejected = Some combined ∧
    stored_file_name tiny_rejected = Some (f_path big_file) ∧
    59%Z = Z.of_nat (length combined) ∧
    5%Z = (total_capacity tiny_pool tiny_written - Z.of_nat (length combined))%Z ∧
    (59 > 5)%Z.
Proof.
  apply (rejected_write_keeps_drives_but_not_metadata
           tiny_pool tiny_written tiny_rejected [big_file] 59 5).
  vm_compute. reflexivity.
Defined.

Lemma padded_size_0 (cfg : config) : 0 < chunk_size cfg → padded_size cfg 0 = 0.
Proof.
  intros H. unfold padded_size. rewrite Nat.div_small by lia. done.
Qed.






(** *** The HA selection *)

Lemma online_of_online_drives (st : state) (drives : list nat) :
  Forall (fun d => d < length (drive_status st)) drives →
  online_of st drives = Some (online_drives st drives).
Proof.
  unfold online_drives.
  induction 1 as [|d drives Hd _ IH]; simpl; [done|].
  rewrite lookup_status by done. simpl. rewrite IH. simpl.
  rewrite filter_cons. by destruct (is_online st d).
Qed.

(** What the code selects: the online ones among the first two data drives
    of each domain. *)
Lemma ha_select_first_two_data_drives (st : state) (dbs : list dbox) :
  Forall (fun db => Forall (fun d => d < length (drive_status st))
                           (take 2 (d_data_drives db))) dbs →
  ha_select st dbs
  = Some (concat (map (fun db => online_drives st (take 2 (d_data_drives db))) dbs)).
Proof.
  induction 1 as [|db dbs Hdb _ IH]; simpl; [done|].
  rewrite online_of_online_drives by done. simpl. rewrite IH. simpl.
  do 2 f_equal. apply take_ge.
  unfold online_drives.
  etransitivity; [apply length_filter|]. rewrite length_take. lia.
Qed.

(** Fewer than 18 selected drives: the write is refused and nothing is
    written. *)
Lemma ha_write_refused_below_18 (cfg : config) (st : state) (data : bytes)
    (selected : list nat) :
  chunk_size cfg ≠ 0 →
  ha_select st (dboxes cfg) = Some selected →
  length selected < 18 →
  _write_data_ha_mode cfg st data
  = Some ((false, HARequires18 (length selected)), st).
Proof.
  intros Hcs Hsel Hlt. unfold _write_data_ha_mode.
  rewrite bool_decide_eq_false_2 by done. rewrite Hsel. simpl.
  by rewrite bool_decide_eq_true_2.
Qed.

(** C6, the code at the failing inputs.  With the first two data drives of
    every domain offline, each domain still has 36 online data drives and
    the first two online ones of each domain are 22 drives, yet the code
    selects none and refuses the write.  With drive 0 alone offline the code
    takes drive 1 only from domain 0, where the first two online data drives
    are 1 and 2. *)
Theorem ha_selection_looks_at_two_drives_only :
  Forall (fun db => length (online_drives first_two_offline (d_data_drives db)) = 36)
         (dboxes small_pool) ∧
  length (first_two_online first_two_offline (dboxes small_pool)) = 22 ∧
  ha_select first_two_offline (dboxes small_pool) = Some [] ∧
  _write_data_ha_mode small_pool first_two_offline [1; 2; 3; 4]%Z
  = Some ((false, HARequires18 0), first_two_offline) ∧
  take 3 (first_two_online drive0_offline (dboxes small_pool)) = [1; 2; 44] ∧
  (take 3 <$> ha_select drive0_offline (dboxes small_pool)) = Some [1; 44; 45].
Proof.
  split; [by_compute|]. repeat split; vm_compute; reflexivity.
Qed.

(** *** The integrity analyzer *)

Lemma elem_of_offline_from (status : list bool) : ∀ (i d : nat),
  d ∈ offline_from i status ↔ ∃ j, d = i + j ∧ status !! j = Some false.
Proof.
  induction status as [|b status IH]; intros i d; simpl.
  - split; [intros H; inversion H | intros (j & _ & H); done].
  - destruct b.
    + rewrite IH. split.
      * intros (j & -> & Hj). exists (S j). split; [lia | done].
      * intros (j & -> & Hj). destruct j as [|j]; [done|].
        exists j. split; [lia | done].
    + rewrite elem_of_cons, IH. split.
      * intros [-> | (j & -> & Hj)].
        -- exists 0. split; [lia | done].
        -- exists (S j). split; [lia | done].
      * intros (j & -> & Hj). destruct j as [|j].
        -- left. lia.
        -- right. exists j. split; [lia | done].
Qed.

Lemma elem_of_offline_drives (st : state) (d : nat) :
  d ∈ offline_from 0 (drive_status st) ↔ is_offline st d.
Proof.
  rewrite elem_of_offline_from. unfold is_offline. split.
  - intros (j & -> & Hj). simpl. by rewrite Hj.
  - intros H. exists d. split; [done|].
    destruct (drive_status st !! d) as [[]|]; done.
Qed.

Lemma group_failures_count (st : state) (drives : list nat) :
  Forall (fun d => d < length (drive_status st)) drives →
  group_failures st drives = Some (offline_count st drives).
Proof.
  unfold offline_count.
  induction 1 as [|d drives Hd _ IH]; simpl; [done|].
  apply lookup_lt_is_Some in Hd as [b Hb].
  assert (is_offline st d = negb b) as Hoff.
  { unfold is_offline. rewrite Hb. by destruct b. }
  rewrite Hb. simpl. rewrite IH. simpl.
  rewrite filter_cons, Hoff. by destruct b.
Qed.

Lemma max_group_failures_max (st : state) (gs : list group) : ∀ acc : nat,
  Forall (fun g => Forall (fun d => d < length (drive_status st))
                          (g_data_drives g)) gs →
  max_group_failures st gs acc = Some (Nat.max acc (max_offline_of st gs)).
Proof.
  induction gs as [|g gs IH]; intros acc H; simpl.
  - by rewrite Nat.max_0_r.
  - inversion H as [|? ? Hg Hgs]; subst.
    rewrite group_failures_count by done. simpl.
    rewrite IH by done. by rewrite Nat.max_assoc.
Qed.

Lemma offline_count_0 (st : state) (drives : list nat) :
  Forall (fun d => ¬ is_offline st d) drives → offline_count st drives = 0.
Proof.
  unfold offline_count. induction 1 as [|d drives Hd _ IH]; [done|].
  rewrite filter_cons. by rewrite decide_False.
Qed.

Lemma max_offline_of_0 (st : state) (gs : list group) :
  Forall (fun g => Forall (fun d => ¬ is_offline st d) (g_data_drives g)) gs →
  max_offline_of st gs = 0.
Proof.
  induction 1 as [|g gs Hg _ IH]; simpl; [done|].
  by rewrite offline_count_0, IH.
Qed.

(** A domain none of whose drives is offline has no offline group drive. *)
Lemma no_failures_max_0 (st : state) (db : dbox) :
  Forall (fun g => Forall (fun d => d < length (drive_status st) ∧
                                    d ∈ d_all_drives db)
                          (g_data_drives g))
         (d_local_groups db) →
  length (filter (fun d => d ∈ d_all_drives db)
                 (offline_from 0 (drive_status st))) = 0 →
  max_offline st db = 0.
Proof.
  intros Hl Hnone. apply max_offline_of_0.
  eapply Forall_impl; [exact Hl|]. intros g Hg. simpl in Hg.
  eapply Forall_impl; [exact Hg|]. intros d [_ Hin] Hoff. simpl in *.
  apply length_zero_iff_nil in Hnone.
  assert (d ∈ filter (fun d => d ∈ d_all_drives db)
                     (offline_from 0 (drive_status st))) as Hd.
  { apply list_elem_of_filter. split; [done|]. by apply elem_of_offline_drives. }
  rewrite Hnone in Hd. inversion Hd.
Qed.

Lemma groups_indexed_weaken (st : state) (db : dbox) :
  Forall (fun g => Forall (fun d => d < length (drive_status st) ∧
                                    d ∈ d_all_drives db)
                          (g_data_drives g))
         (d_local_groups db) →
  Forall (fun g => Forall (fun d => d < length (drive_status st))
                          (g_data_drives g))
         (d_local_groups db).
Proof.
  intros H. eapply Forall_impl; [exact H|]. intros g Hg. simpl in Hg.
  eapply Forall_impl; [exact Hg|]. by intros d [? _].
Qed.

Lemma check_dboxes_flags (st : state) (dbs : list dbox) :
  Forall (fun db =>
            Forall (fun g =>
                      Forall (fun d => d < length (drive_status st) ∧
                                       d ∈ d_all_drives db)
                             (g_data_drives g))
                   (d_local_groups db) ∧
            Forall (fun p => p ∈ d_all_drives db) (d_local_parity_drives db))
         dbs →
  ∀ acc, check_dboxes st (offline_from 0 (drive_status st)) dbs acc
         = Some (acc ++ map d_id (filter (fun db => 2 < max_offline st db) dbs)).
Proof.
  induction 1 as [|db dbs [Hdb _] _ IH]; intros acc; simpl.
  - by rewrite app_nil_r.
  - rewrite filter_cons. case_bool_decide as Hnone.
    + rewrite (no_failures_max_0 st db Hdb Hnone).
      rewrite decide_False by lia. apply IH.
    + rewrite max_group_failures_max by by apply groups_indexed_weaken.
      simpl. fold (max_offline st db).
      case_bool_decide as Hm.
      * rewrite decide_True by done. rewrite IH. simpl.
        by rewrite <- app_assoc.
      * rewrite decide_False by done. apply IH.
Qed.

Lemma length_pos_elem {A} (l : list A) : 0 < length l ↔ ∃ x, x ∈ l.
Proof.
  destruct l as [|x l]; simpl; split.
  - lia.
  - intros [x Hx]. inversion Hx.
  - intros _. exists x. by left.
  - lia.
Qed.

Lemma local_parity_failures_offline (st : state) (db : dbox) :
  Forall (fun p => p ∈ d_all_drives db) (d_local_parity_drives db) →
  0 < length (filter (fun d => d ∈ d_local_parity_drives db)
                     (filter (fun d => d ∈ d_all_drives db)
                             (offline_from 0 (drive_status st))))
  ↔ parity_offline st db.
Proof.
  intros Hsub. rewrite length_pos_elem. unfold parity_offline.
  rewrite Exists_exists. split.
  - intros [p Hp].
    apply list_elem_of_filter in Hp as [Hlp Hp].
    apply list_elem_of_filter in Hp as [_ Hp].
    exists p. split; [done|]. by apply elem_of_offline_drives.
  - intros (p & Hlp & Hoff). exists p.
    apply list_elem_of_filter. split; [done|].
    apply list_elem_of_filter. split.
    + rewrite Forall_forall in Hsub. by apply Hsub.
    + by apply elem_of_offline_drives.
Qed.

Lemma check_dnodes_flags (st : state) (dns : list dbox) :
  Forall (fun db =>
            Forall (fun g =>
                      Forall (fun d => d < length (drive_status st) ∧
                                       d ∈ d_all_drives db)
                             (g_data_drives g))
                   (d_local_groups db) ∧
            Forall (fun p => p ∈ d_all_drives db) (d_local_parity_drives db))
         dns →
  ∀ acc, V21.check_dnodes st (offline_from 0 (drive_status st)) dns acc
         = Some (acc ++ map d_id
                   (filter (fun dn => 2 < max_offline st dn ∨
                                      (max_offline st dn = 2 ∧ parity_offline st dn))
                           dns)).
Proof.
  induction 1 as [|dn dns [Hdn Hlp] _ IH]; intros acc; simpl.
  - by rewrite app_nil_r.
  - rewrite filter_cons. case_bool_decide as Hnone.
    + rewrite (no_failures_max_0 st dn Hdn Hnone).
      rewrite decide_False by lia. apply IH.
    + rewrite max_group_failures_max by by apply groups_indexed_weaken.
      simpl. fold (max_offline st dn).
      case_bool_decide as Hm.
      * rewrite decide_True by (by left). rewrite IH. simpl.
        by rewrite <- app_assoc.
      * case_bool_decide as Hm2.
        -- rewrite decide_True.
           ++ rewrite IH. simpl. by rewrite <- app_assoc.
           ++ right. destruct Hm2 as [? Hp]. split; [done|].
              by apply local_parity_failures_offline.
        -- rewrite decide_False; [apply IH|].
           intros [?|[? Hp]]; [done|]. apply Hm2. split; [done|].
           by apply local_parity_failures_offline.
Qed.

Lemma length_0_nil {A} (l : list A) : length l = 0 ↔ l = [].
Proof. destruct l; simpl; split; (done || lia). Qed.

Lemma no_offline_no_flag (st : state) (dbs : list dbox)
    (P : dbox → Prop) `{∀ db, Decision (P db)} :
  length (offline_from 0 (drive_status st)) = 0 →
  (∀ db, P db → 0 < max_offline st db) →
  filter P dbs = [].
Proof.
  intros Hnone HP. apply length_0_nil in Hnone.
  induction dbs as [|db dbs IH]; [done|].
  rewrite filter_cons, IH. rewrite decide_False; [done|].
  intros Hdb. apply HP in Hdb.
  assert (max_offline st db = 0); [|lia].
  apply max_offline_of_0. apply Forall_forall. intros g _.
  apply Forall_forall. intros d _ Hoff.
  apply elem_of_offline_drives in Hoff. rewrite Hnone in Hoff. inversion Hoff.
Qed.

(** C4, as the code has it.  Both analyzers return [recoverable = false]
    exactly when the vulnerable list is not empty, and leave the pool as it
    was.  VDSimm2-5-26 lists a domain exactly when the maximum over its
    groups of the offline data drives is over 2; VDATASIM-v2.1 also lists it
    when that maximum is 2 and a local-parity drive of the domain is
    offline. *)
Theorem integrity_check_flags (cfg : config) (st : state) :
  layout_indexed cfg st →
  (∃ summary,
     call_check_data_integrity cfg st
     = Some ((bool_decide (filter (fun db => 2 < max_offline st db) (dboxes cfg) = []),
              summary,
              map d_id (filter (fun db => 2 < max_offline st db) (dboxes cfg))),
             st)) ∧
  (∃ summary,
     V21.call_check_data_integrity cfg st
     = Some ((bool_decide
                (filter (fun dn => 2 < max_offline st dn ∨
                                   (max_offline st dn = 2 ∧ parity_offline st dn))
                        (dboxes cfg) = []),
              summary,
              map d_id (filter (fun dn => 2 < max_offline st dn ∨
                                          (max_offline st dn = 2 ∧ parity_offline st dn))
                               (dboxes cfg))),
             st)).
Proof.
  intros Hl. split.
  - unfold call_check_data_integrity, check_data_integrity.
    case_bool_decide as Hnone.
    + rewrite (no_offline_no_flag st (dboxes cfg) _ Hnone) by (intros; lia).
      by eexists.
    + rewrite (check_dboxes_flags st (dboxes cfg) Hl []). simpl.
      destruct (filter _ (dboxes cfg)) as [|db dbs]; simpl; by eexists.
  - unfold V21.call_check_data_integrity, V21.check_data_integrity.
    case_bool_decide as Hnone.
    + rewrite (no_offline_no_flag st (dboxes cfg) _ Hnone) by (intros; lia).
      by eexists.
    + rewrite (check_dnodes_flags st (dboxes cfg) Hl []). simpl.
      destruct (filter _ (dboxes cfg)) as [|db dbs]; simpl; by eexists.
Qed.

Lemma integrity_check_flags_witness :
  (∃ summary,
     call_check_data_integrity tiny_pool tiny_degraded
     = Some ((bool_decide (filter (fun db => 2 < max_offline tiny_degraded db)
                                  (dboxes tiny_pool) = []),
              summary,
              map d_id (filter (fun db => 2 < max_offline tiny_degraded db)
                               (dboxes tiny_pool))),
             tiny_degraded)) ∧
  (∃ summary,
     V21.call_check_data_integrity tiny_pool tiny_degraded
     = Some ((bool_decide
                (filter (fun dn => 2 < max_offline tiny_degraded dn ∨
                                   (max_offline tiny_degraded dn = 2 ∧
                                    parity_offline tiny_degraded dn))
                        (dboxes tiny_pool) = []),
              summary,
              map d_id (filter (fun dn => 2 < max_offline tiny_degraded dn ∨
                                          (max_offline tiny_degraded dn = 2 ∧
                                           parity_offline tiny_degraded dn))
                               (dboxes tiny_pool))),
             tiny_degraded)).
Proof.
  apply (integrity_check_flags tiny_pool tiny_degraded). by_compute.
Defined.

(** C4, as stated, fails on VDATASIM-v2.1: with data drives 0 and 1 and the
    local-parity drive 38 offline the maximum of domain 0 is 2, and the
    domain is listed as vulnerable. *)
Lemma v21_flags_domain_at_two_failures :
  max_offline two_and_parity_offline dbox0 = 2 ∧
  V21.check_data_integrity small_pool two_and_parity_offline
  = Some (false, DataAtRisk [0], [0]) ∧
  ¬ flags_exactly_over_two V21.check_data_integrity small_pool two_and_parity_offline.
Proof.
  split; [reflexivity|]. split; [vm_compute; reflexivity|].
  intros H.
  assert (dbox0 ∈ dboxes small_pool) as Hin.
  { apply list_elem_of_lookup. by exists 0. }
  destruct (H false (DataAtRisk [0]) [0] ltac:(vm_compute; reflexivity) dbox0 Hin)
    as [Hflag _].
  assert (2 < max_offline two_and_parity_offline dbox0) as Hlt.
  { apply Hflag. simpl. by left. }
  vm_compute in Hlt. lia.
Qed.

(** *** HA striping *)

Lemma div_mod_stripe (n s p : nat) :
  p < n → (s * n + p) mod n = p ∧ (s * n + p) / n = s.
Proof.
  intros Hp. split.
  - symmetry. apply (Nat.mod_unique _ _ s); lia.
  - symmetry. apply (Nat.div_unique _ _ _ p); lia.
Qed.

(** One pass over the selected drives writes the chunks of one stripe. *)
Lemma ha_stripe_pass (cfg : config) (data : bytes) (N s : nat)
    (selected : list nat) (drives : list nat) :
  ∀ (pre : list nat) (st : state),
    selected = pre ++ drives →
    ha_stripe cfg data N s drives st (s * length selected + length pre)
    = (st' ← for_each (stripe_write cfg data selected)
                      (seq (s * length selected + length pre)
                           (Nat.min (length drives)
                                    (N - (s * length selected + length pre))))
                      st;
       Some (st', s * length selected + length pre
                  + Nat.min (length drives)
                            (N - (s * length selected + length pre)))).
Proof.
  induction drives as [|d rest IH]; intros pre st Hsel.
  - simpl. f_equal. f_equal. lia.
  - cbn [ha_stripe].
    assert (length pre < length selected) as Hp.
    { rewrite Hsel, length_app. simpl. lia. }
    destruct (div_mod_stripe (length selected) s (length pre) Hp) as [Hmod Hdiv].
    specialize (IH (pre ++ [d])). rewrite length_app in IH. cbn [length] in IH.
    replace (s * length selected + (length pre + 1))
      with (S (s * length selected + length pre)) in IH by lia.
    remember (s * length selected + length pre) as ci eqn:Hci.
    case_bool_decide as Hlt.
    + replace (Nat.min (length (d :: rest)) (N - ci))
        with (S (Nat.min (length rest) (N - S ci))) by (cbn [length]; lia).
      cbn [seq for_each].
      assert (stripe_write cfg data selected st ci
              = write_rplus st d (s * chunk_size cfg)
                  (slice data (ci * chunk_size cfg)
                         (ci * chunk_size cfg + chunk_size cfg))) as ->.
      { unfold stripe_write. rewrite Hmod, Hdiv.
        rewrite Hsel at 1. by rewrite list_lookup_middle. }
      destruct (write_rplus st d _ _) as [st1|]; simpl; [|done].
      rewrite IH by (by rewrite <- app_assoc).
      destruct (for_each _ _ st1); simpl; [|done]. do 2 f_equal. lia.
    + replace (Nat.min (length (d :: rest)) (N - ci)) with 0 by (cbn [length]; lia).
      simpl. do 2 f_equal. lia.
Qed.

Lemma seq_split (a n m : nat) : m ≤ n → seq a n = seq a m ++ seq (a + m) (n - m).
Proof. intros H. rewrite <- seq_app. f_equal. lia. Qed.

Lemma ceil_div_stripe (N n s : nat) :
  s * n < N → N ≤ s * n + n → (N + n - 1) / n = S s.
Proof.
  intros H1 H2. symmetry.
  apply (Nat.div_unique _ _ _ (N - s * n - 1)); nia.
Qed.

(** The [while] loop performs the writes [stripe_write 0 .. N-1], in this
    order, and ends with [stripe_index] at the number of stripes; [N - s n]
    rounds of fuel are enough from stripe [s]. *)
Lemma ha_stripes_writes (cfg : config) (data : bytes) (N : nat)
    (selected : list nat) :
  0 < length selected →
  ∀ (fuel s : nat) (st : state),
    s * length selected < N →
    N - s * length selected ≤ fuel →
    ha_stripes fuel cfg data N selected st s (s * length selected)
    = (st' ← for_each (stripe_write cfg data selected)
                      (seq (s * length selected) (N - s * length selected)) st;
       Some (st', (N + length selected - 1) / length selected)).
Proof.
  intros Hn. set (n := length selected) in *.
  induction fuel as [|fuel IH]; intros s st Hlt Hfuel; [lia|].
  cbn [ha_stripes]. rewrite bool_decide_eq_true_2 by done.
  pose proof (ha_stripe_pass cfg data N s selected selected [] st eq_refl) as Hpass.
  simpl in Hpass. rewrite !Nat.add_0_r in Hpass. fold n in Hpass.
  rewrite Hpass. clear Hpass.
  destruct (decide (N - s * n ≤ n)) as [Hlast|Hmore].
  - rewrite Nat.min_r by done.
    destruct (for_each _ _ st) as [st1|]; simpl; [|done].
    replace (s * n + (N - s * n)) with N by lia.
    destruct fuel; cbn [ha_stripes]; rewrite bool_decide_eq_false_2 by lia;
      by rewrite (ceil_div_stripe N n s) by lia.
  - rewrite Nat.min_l by lia.
    rewrite (seq_split (s * n) (N - s * n) n) by lia.
    rewrite for_each_app.
    destruct (for_each _ (seq (s * n) n) st) as [st1|]; simpl; [|done].
    replace (s * n + n) with (S s * n) by lia.
    rewrite IH by lia. do 3 f_equal. lia.
Qed.

(** Reading back what an in-place write has left. *)

Lemma lookup_read_at (c : bytes) (off n i : nat) :
  read_at c off n !! i = if decide (i < n) then c !! (off + i) else None.
Proof. unfold read_at. by rewrite lookup_take, lookup_drop. Qed.

Lemma lookup_overwrite_at (c : bytes) (off : nat) (data : bytes) (i : nat) :
  overwrite_at c off data !! i
  = if decide (i < off)
    then (if decide (i < length c) then c !! i else Some 0%Z)
    else if decide (i < off + length data) then data !! (i - off) else c !! i.
Proof.
  unfold overwrite_at.
  destruct (decide (i < off)) as [Hlt|Hge].
  - destruct (decide (i < length c)) as [Hc|Hc].
    + rewrite lookup_app_l by (rewrite length_take; lia).
      by rewrite lookup_take_lt.
    + rewrite lookup_app_r by (rewrite length_take; lia).
      rewrite lookup_app_l by (rewrite length_take, length_replicate; lia).
      apply lookup_replicate_2. rewrite length_take. lia.
  - rewrite app_assoc.
    rewrite lookup_app_r by (rewrite length_app, length_take, length_replicate; lia).
    rewrite length_app, length_take, length_replicate.
    replace (i - (off `min` length c + (off - length c))) with (i - off) by lia.
    destruct (decide (i < off + length data)) as [Hd|Hd].
    + by rewrite lookup_app_l by lia.
    + rewrite lookup_app_r by lia. rewrite lookup_drop. f_equal. lia.
Qed.

Lemma length_overwrite_at (c : bytes) (off : nat) (data : bytes) :
  length (overwrite_at c off data) = Nat.max (length c) (off + length data).
Proof.
  unfold overwrite_at.
  rewrite !length_app, length_take, length_replicate, length_drop. lia.
Qed.

Lemma read_overwrite_same (c : bytes) (off : nat) (data : bytes) :
  read_at (overwrite_at c off data) off (length data) = data.
Proof.
  apply list_eq. intros i. rewrite lookup_read_at, lookup_overwrite_at.
  destruct (decide (i < length data)) as [Hi|Hi].
  - rewrite decide_False by lia. rewrite decide_True by lia. f_equal. lia.
  - symmetry. apply lookup_ge_None. lia.
Qed.

Lemma read_overwrite_back (c : bytes) (off : nat) (data : bytes) (n : nat) :
  length data = n → read_at (overwrite_at c off data) off n = data.
Proof. intros <-. apply read_overwrite_same. Qed.

Lemma read_overwrite_other (c : bytes) (off : nat) (data : bytes) (off' n : nat) :
  off' + n ≤ length c →
  off' + n ≤ off ∨ off + length data ≤ off' →
  read_at (overwrite_at c off data) off' n = read_at c off' n.
Proof.
  intros Hlen Hdisj. apply list_eq. intros i.
  rewrite !lookup_read_at, lookup_overwrite_at.
  destruct (decide (i < n)) as [Hi|Hi]; [|done].
  destruct Hdisj as [Hl|Hr].
  - rewrite decide_True by lia. by rewrite decide_True by lia.
  - rewrite decide_False by lia. by rewrite decide_False by lia.
Qed.

Lemma length_slice_full (data : bytes) (i cs N : nat) :
  i < N → N * cs ≤ length data →
  length (slice data (i * cs) (i * cs + cs)) = cs.
Proof.
  intros Hi HN. unfold slice. rewrite length_take, length_drop. nia.
Qed.

Lemma write_rplus_inv (st st' : state) (d off : nat) (data : bytes) :
  write_rplus st d off data = Some st' →
  d < length (disk st) ∧
  st' = set_disk st (<[d := overwrite_at (content st d) off data]> (disk st)).
Proof.
  unfold write_rplus, content. intros H.
  destruct (disk st !! d) as [c|] eqn:Hd; simpl in *; [|done].
  split; [by eapply lookup_lt_Some | congruence].
Qed.

Lemma write_rplus_Some (st : state) (d off : nat) (data : bytes) :
  d < length (disk st) →
  write_rplus st d off data
  = Some (set_disk st (<[d := overwrite_at (content st d) off data]> (disk st))).
Proof. intros H. unfold write_rplus. by rewrite lookup_disk. Qed.

Lemma stripe_write_Some (cfg : config) (data : bytes) (selected : list nat)
    (st : state) (i : nat) :
  0 < length selected →
  Forall (fun d => d < length (disk st)) selected →
  ∃ d, selected !! (i mod length selected) = Some d ∧
       stripe_write cfg data selected st i
       = Some (set_disk st
                 (<[d := overwrite_at (content st d)
                           (i / length selected * chunk_size cfg)
                           (slice data (i * chunk_size cfg)
                                  (i * chunk_size cfg + chunk_size cfg))]>
                    (disk st))).
Proof.
  intros Hn Hvalid.
  destruct (lookup_lt_is_Some_2 selected (i mod length selected)) as [d Hd].
  { apply Nat.mod_upper_bound. lia. }
  exists d. split; [done|]. unfold stripe_write. rewrite Hd. simpl.
  apply write_rplus_Some. rewrite Forall_forall in Hvalid.
  apply Hvalid. by eapply list_elem_of_lookup_2.
Qed.

Lemma stripe_writes_Some (cfg : config) (data : bytes) (selected : list nat)
    (l : list nat) :
  0 < length selected →
  ∀ st, Forall (fun d => d < length (disk st)) selected →
        ∃ st', for_each (stripe_write cfg data selected) l st = Some st' ∧
               length (disk st') = length (disk st).
Proof.
  intros Hn. induction l as [|i l IH]; intros st Hvalid; simpl.
  - by exists st.
  - destruct (stripe_write_Some cfg data selected st i Hn Hvalid) as (d & _ & ->).
    simpl. destruct (IH (set_disk st (<[d := overwrite_at (content st d)
                           (i / length selected * chunk_size cfg)
                           (slice data (i * chunk_size cfg)
                                  (i * chunk_size cfg + chunk_size cfg))]>
                    (disk st)))) as (st' & -> & Hlen).
    + simpl. by rewrite length_insert.
    + exists st'. split; [done|]. rewrite Hlen. simpl. by rewrite length_insert.
Qed.

(** After the writes of chunks [0 .. k-1], every one of them is read back
    from its place. *)
Lemma stripe_writes_placed (cfg : config) (data : bytes) (selected : list nat)
    (N : nat) :
  NoDup selected →
  0 < length selected →
  N * chunk_size cfg ≤ length data →
  ∀ (k : nat) (st st' : state),
    k ≤ N →
    Forall (fun d => d < length (disk st)) selected →
    for_each (stripe_write cfg data selected) (seq 0 k) st = Some st' →
    Forall (fun d => d < length (disk st')) selected ∧
    ∀ i, i < k →
      ∃ d, selected !! (i mod length selected) = Some d ∧
           i / length selected * chunk_size cfg + chunk_size cfg
             ≤ length (content st' d) ∧
           read_at (content st' d) (i / length selected * chunk_size cfg)
                   (chunk_size cfg)
           = slice data (i * chunk_size cfg) (i * chunk_size cfg + chunk_size cfg).
Proof.
  intros Hnd Hn Hdata. set (n := length selected) in *.
  induction k as [|k IH]; intros st st' Hk Hvalid Hrun.
  - simpl in Hrun. injection Hrun as <-. split; [done|]. intros i Hi. lia.
  - rewrite seq_S, for_each_app in Hrun. simpl in Hrun.
    destruct (for_each _ (seq 0 k) st) as [st1|] eqn:Hst1; simpl in Hrun; [|done].
    destruct (IH st st1 ltac:(lia) Hvalid Hst1) as [Hvalid1 Hplaced].
    destruct (stripe_write_Some cfg data selected st1 k Hn Hvalid1) as (dk & Hdk & Hw).
    fold n in Hdk, Hw. rewrite Hw in Hrun. simpl in Hrun. injection Hrun as <-.
    assert (dk < length (disk st1)) as Hdklt.
    { rewrite Forall_forall in Hvalid1. apply Hvalid1.
      by eapply list_elem_of_lookup_2. }
    pose proof (length_slice_full data k (chunk_size cfg) N ltac:(lia) Hdata) as Hsl.
    split.
    { simpl. rewrite length_insert. done. }
    intros i Hi. destruct (decide (i = k)) as [->|Hne].
    + exists dk. split; [done|].
      rewrite content_set_disk_eq by done.
      split.
      * rewrite length_overwrite_at, Hsl. lia.
      * by apply read_overwrite_back.
    + destruct (Hplaced i ltac:(lia)) as (d & Hd & Hlen & Hread).
      exists d. split; [done|].
      destruct (decide (dk = d)) as [->|Hdne].
      * rewrite content_set_disk_eq by done.
        assert (i mod n = k mod n) as Hmod.
        { eapply NoDup_lookup; eauto. }
        assert (i / n ≠ k / n) as Hdiv.
        { intros Heq.
          pose proof (Nat.div_mod_eq i n). pose proof (Nat.div_mod_eq k n).
          apply Hne. congruence. }
        split.
        -- rewrite length_overwrite_at. lia.
        -- rewrite read_overwrite_other; [done | done |].
           rewrite Hsl. nia.
      * by rewrite content_set_disk_ne.
Qed.

(** The striping loop returns and every chunk is read back from its
    place; the number of drive files stays. *)
Lemma ha_write_places_chunks_in_stripes_aux
    (cfg : config) (st : state) (data : bytes) (selected : list nat) :
  0 < length selected →
  NoDup selected →
  Forall (fun d => d < length (disk st)) selected →
  ∃ st',
    ha_stripes (length data / chunk_size cfg) cfg data
               (length data / chunk_size cfg) selected st 0 0
    = Some (st', (length data / chunk_size cfg + length selected - 1)
                   / length selected) ∧
    length (disk st') = length (disk st) ∧
    ∀ i, i < length data / chunk_size cfg →
      ∃ d, selected !! (i mod length selected) = Some d ∧
           read_at (content st' d) (i / length selected * chunk_size cfg)
                   (chunk_size cfg)
           = slice data (i * chunk_size cfg) (i * chunk_size cfg + chunk_size cfg).
Proof.
  intros Hn Hnd Hvalid. set (N := length data / chunk_size cfg).
  destruct (stripe_writes_Some cfg data selected (seq 0 N) Hn st Hvalid)
    as (st' & Hrun & Hlen).
  exists st'. split; [|split; [done|]].
  - destruct (decide (N = 0)) as [HN|HN].
    + rewrite HN in *. simpl in *. injection Hrun as <-.
      rewrite Nat.div_small by lia. done.
    + pose proof (ha_stripes_writes cfg data N selected Hn N 0 st) as H.
      simpl in H. rewrite Nat.sub_0_r in H. rewrite H by lia.
      by rewrite Hrun.
  - assert (N * chunk_size cfg ≤ length data) as Hdata.
    { unfold N. rewrite Nat.mul_comm. apply Nat.Div0.mul_div_le. }
    destruct (stripe_writes_placed cfg data selected N Hnd Hn Hdata N st st'
                ltac:(lia) Hvalid Hrun) as [_ Hplaced].
    intros i Hi. destruct (Hplaced i Hi) as (d & Hd & _ & Hread). by exists d.
Qed.



(** *** Frames: what a write leaves alone *)

Lemma unchanged_refl (written : list nat) (st : state) :
  unchanged_outside written st st.
Proof. by repeat split. Qed.

Lemma unchanged_trans (w1 w2 : list nat) (st1 st2 st3 : state) :
  unchanged_outside w1 st1 st2 → unchanged_outside w2 st2 st3 →
  unchanged_outside (w1 ++ w2) st1 st3.
Proof.
  intros (Hs1 & Hl1 & Hd1) (Hs2 & Hl2 & Hd2). repeat split; [congruence..|].
  intros d Hd. rewrite not_elem_of_app in Hd. destruct Hd.
  rewrite Hd2, Hd1; done.
Qed.

Lemma unchanged_weaken (w1 w2 : list nat) (st st' : state) :
  (∀ d, d ∈ w1 → d ∈ w2) →
  unchanged_outside w1 st st' → unchanged_outside w2 st st'.
Proof.
  intros Hsub (Hs & Hl & Hd). repeat split; [done..|].
  intros d Hn. apply Hd. intros Hin. apply Hn, Hsub, Hin.
Qed.

Lemma unchanged_set_disk (st : state) (d : nat) (data : bytes) :
  unchanged_outside [d] st (set_disk st (<[d := data]> (disk st))).
Proof.
  repeat split; simpl; [by rewrite length_insert|].
  intros d' Hd'. apply list_lookup_insert_ne. intros ->. apply Hd'. by left.
Qed.

Lemma unchanged_content (written : list nat) (st st' : state) (d : nat) :
  unchanged_outside written st st' → d ∉ written → content st' d = content st d.
Proof. intros (_ & _ & H) Hd. unfold content. by rewrite H. Qed.

Lemma unchanged_online (written : list nat) (st st' : state) (d : nat) :
  unchanged_outside written st st' → is_online st' d = is_online st d.
Proof. intros (H & _ & _). unfold is_online. by rewrite H. Qed.

Lemma unchanged_drives_exist (written : list nat) (st st' : state)
    (drives : list nat) :
  unchanged_outside written st st' →
  drives_exist st drives → drives_exist st' drives.
Proof. intros (Hs & Hl & _). unfold drives_exist. by rewrite Hs, Hl. Qed.

Lemma unchanged_holds_chunks (cfg : config) (written : list nat) (st st' : state)
    (drives : list nat) (n : nat) :
  unchanged_outside written st st' →
  Forall (fun d => d ∉ written) drives →
  holds_chunks cfg st drives n → holds_chunks cfg st' drives n.
Proof.
  intros Hu Hout H. unfold holds_chunks in *.
  rewrite Forall_forall in *. intros d Hd Hon.
  rewrite (unchanged_content written st st') by auto.
  apply H; [done|]. by rewrite <- (unchanged_online written st st').
Qed.

Lemma unchanged_agree_online (written : list nat) (st st' : state)
    (drives : list nat) :
  unchanged_outside written st st' →
  Forall (fun d => d ∉ written) drives →
  agree_online st st' drives.
Proof.
  intros (Hs & _ & Hd) Hout. split; [done|].
  eapply Forall_impl; [exact Hout|]. intros d Hn _. simpl in *.
  symmetry. by apply Hd.
Qed.

(** *** The Normal-mode write, pass by pass *)

Lemma length_fill_drive (cfg : config) (data : bytes) (N : nat) :
  N * chunk_size cfg ≤ length data →
  ∀ (count ci : nat) (acc : bytes),
    length (fill_drive cfg data N count ci acc).1
    = length acc + count * chunk_size cfg.
Proof.
  intros Hdata. induction count as [|count IH]; intros ci acc; simpl; [lia|].
  case_bool_decide as Hlt; rewrite IH, length_app.
  - rewrite (length_slice_full data ci (chunk_size cfg) N) by done. lia.
  - rewrite length_replicate. lia.
Qed.

Lemma length_ljust (b : bytes) (n : nat) : length (ljust b n) = Nat.max (length b) n.
Proof. unfold ljust. rewrite length_app, length_replicate. lia. Qed.

(** The data pass writes every available drive, and each of them then holds
    at least [chunks_per_drive] whole chunks. *)
Lemma write_drives_written (cfg : config) (data : bytes) (N cpd : nat) :
  N * chunk_size cfg ≤ length data →
  ∀ (available : list nat) (st : state) (ci : nat),
    Forall (fun d => d < length (disk st)) available →
    ∃ st', write_drives cfg data N cpd available st ci = Some st' ∧
           unchanged_outside available st st' ∧
           ∀ d, d ∈ available → cpd * chunk_size cfg ≤ length (content st' d).
Proof.
  intros Hdata. induction available as [|d rest IH]; intros st ci Hvalid; simpl.
  - exists st. split; [done|]. split; [apply unchanged_refl|].
    intros d Hd. inversion Hd.
  - inversion Hvalid as [|? ? Hd Hrest]; subst.
    pose proof (length_fill_drive cfg data N Hdata cpd ci []) as Hfill.
    destruct (fill_drive cfg data N cpd ci []) as [drive_data ci'] eqn:Hf.
    simpl in Hfill.
    rewrite write_wb_Some by done. simpl.
    set (st1 := set_disk st (<[d := ljust drive_data (drive_size cfg)]> (disk st))).
    destruct (IH st1 ci') as (st' & Hrun & Hun & Hlen).
    { simpl. by rewrite length_insert. }
    exists st'. split; [done|]. split.
    + apply (unchanged_trans [d] rest st st1 st'); [|done].
      apply unchanged_set_disk.
    + intros d' Hd'. destruct (decide (d' ∈ rest)) as [Hin|Hout]; [by apply Hlen|].
      apply elem_of_cons in Hd' as [->|?]; [|done].
      rewrite (unchanged_content rest st1 st') by done.
      unfold st1. rewrite content_set_disk_eq by done.
      rewrite length_ljust. lia.
Qed.

(** The local-parity pass over a list of groups: each parity drive receives
    the image of the fold over the online data drives of its group, and no
    other file changes. *)
Lemma local_parity_pass_written (cfg : config) (cpd : nat) (data_drives : list nat)
    (gs : list group) :
  NoDup (omap g_parity_drive gs) →
  Forall (fun p => p ∉ data_drives) (omap g_parity_drive gs) →
  Forall (fun g => Forall (fun d => d ∈ data_drives) (g_data_drives g)) gs →
  ∀ st : state,
    drives_exist st data_drives →
    holds_chunks cfg st data_drives cpd →
    Forall (fun p => p < length (disk st)) (omap g_parity_drive gs) →
    ∃ st',
      for_each (fun s g => _calculate_local_parity_group cfg s g cpd) gs st
      = Some st' ∧
      unchanged_outside (omap g_parity_drive gs) st st' ∧
      ∀ g p, g ∈ gs → g_parity_drive g = Some p →
             content st' p
             = parity_image cfg st plain (online_drives st (g_data_drives g)) cpd.
Proof.
  induction gs as [|g gs IH]; intros Hnd Hdisj Hsub st Hex Hhold Hvalid.
  - exists st. split; [done|]. split; [apply unchanged_refl|].
    intros g p Hg. inversion Hg.
  - inversion Hsub as [|? ? Hg Hgs]; subst.
    assert (drives_exist st (g_data_drives g)) as Hexg.
    { unfold drives_exist in *. rewrite Forall_forall in *. auto. }
    assert (holds_chunks cfg st (g_data_drives g) cpd) as Hholdg.
    { unfold holds_chunks in *. rewrite Forall_forall in *. auto. }
    simpl in *. destruct (g_parity_drive g) as [p|] eqn:Hp.
    + inversion Hnd as [|? ? Hpnotin Hnd']; subst.
      inversion Hdisj as [|? ? Hpdata Hdisj']; subst.
      inversion Hvalid as [|? ? Hplt Hvalid']; subst.
      rewrite (local_parity_written cfg st g p cpd) by done. simpl.
      set (img := parity_image cfg st plain (online_drives st (g_data_drives g)) cpd).
      set (st1 := set_disk st (<[p := img]> (disk st))).
      pose proof (unchanged_set_disk st p img) as Hun1. fold st1 in Hun1.
      assert (Forall (fun d => d ∉ [p]) data_drives) as Hout.
      { apply Forall_forall. intros d Hd Hin.
        apply list_elem_of_singleton in Hin as ->. done. }
      destruct (IH Hnd' Hdisj' Hgs st1) as (st' & Hrun & Hun & Himg).
      { by eapply unchanged_drives_exist. }
      { by eapply unchanged_holds_chunks. }
      { simpl. by rewrite length_insert. }
      exists st'. split; [done|]. split.
      * by apply (unchanged_trans [p] _ st st1 st').
      * intros g' p' Hg' Hp'. apply elem_of_cons in Hg' as [->|Hin].
        -- assert (p' = p) as -> by congruence.
           rewrite (unchanged_content _ st1 st') by done.
           unfold st1. by rewrite content_set_disk_eq.
        -- rewrite (Himg g' p' Hin Hp').
           symmetry. apply parity_image_agree.
           eapply unchanged_agree_online; [exact Hun1|].
           rewrite Forall_forall in Hgs. specialize (Hgs g' Hin).
           rewrite Forall_forall in Hgs, Hout |- *. auto.
    + destruct (IH Hnd Hdisj Hgs st) as (st' & Hrun & Hun & Himg); [done..|].
      exists st'. rewrite (local_parity_skipped cfg st g cpd Hp). simpl.
      split; [done|]. split; [done|].
      intros g' p' Hg' Hp'. apply elem_of_cons in Hg' as [->|Hin]; [congruence|].
      by apply Himg.
Qed.

Lemma global_parity_frame (cfg : config) (st : state) (db : dbox) (n : nat) :
  drives_exist st (d_data_drives db) →
  d_global_parity_drive db < length (disk st) →
  ∃ st', _calculate_global_parity_dbox cfg st db n = Some st' ∧
         unchanged_outside [d_global_parity_drive db] st st'.
Proof.
  intros Hex Hlt. unfold _calculate_global_parity_dbox.
  rewrite parity_data_participants by (done || apply length_weighted). simpl.
  rewrite write_wb_Some by done. eexists. split; [done|].
  apply unchanged_set_disk.
Qed.

Lemma global_parity_pass_frame (cfg : config) (cpd : nat) (dbs : list dbox) :
  ∀ st : state,
    Forall (fun db => drives_exist st (d_data_drives db) ∧
                      d_global_parity_drive db < length (disk st)) dbs →
    ∃ st', for_each (fun s db => _calculate_global_parity_dbox cfg s db cpd) dbs st
           = Some st' ∧
           unchanged_outside (map d_global_parity_drive dbs) st st'.
Proof.
  induction dbs as [|db dbs IH]; intros st H; simpl.
  - exists st. split; [done | apply unchanged_refl].
  - inversion H as [|? ? [Hex Hlt] Hrest]; subst.
    destruct (global_parity_frame cfg st db cpd Hex Hlt) as (st1 & -> & Hun1).
    simpl. destruct (IH st1) as (st' & Hrun & Hun).
    { eapply Forall_impl; [exact Hrest|]. intros db' [Hex' Hlt']. simpl in *.
      split; [by eapply unchanged_drives_exist|].
      destruct Hun1 as (_ & -> & _). done. }
    exists st'. split; [done|].
    by apply (unchanged_trans [_] _ st st1 st').
Qed.

Lemma write_list_frame (data : bytes) (drives : list nat) :
  ∀ st : state,
    Forall (fun d => d < length (disk st)) drives →
    ∃ st', for_each (fun s d => write_wb s d data) drives st = Some st' ∧
           unchanged_outside drives st st'.
Proof.
  induction drives as [|d drives IH]; intros st H; simpl.
  - exists st. split; [done | apply unchanged_refl].
  - inversion H as [|? ? Hd Hrest]; subst.
    rewrite write_wb_Some by done. simpl.
    destruct (IH (set_disk st (<[d := data]> (disk st)))) as (st' & Hrun & Hun).
    { simpl. by rewrite length_insert. }
    exists st'. split; [done|].
    eapply (unchanged_trans [d]); [apply unchanged_set_disk | done].
Qed.

(** Reading chunk [i] of a file made of whole chunks and padding. *)
Lemma read_rows (cs : nat) (pad : bytes) (rows : list bytes) : ∀ (i : nat) (r : bytes),
  Forall (fun row => length row = cs) rows →
  rows !! i = Some r →
  read_at (concat rows ++ pad) (i * cs) cs = r.
Proof.
  unfold read_at. induction rows as [|row rows IH]; intros i r Hlen Hi; [done|].
  inversion Hlen as [|? ? Hrow Hrows]; subst. simpl.
  rewrite <- app_assoc. destruct i as [|i]; simpl in *.
  - injection Hi as <-. rewrite drop_0. by rewrite take_app_length.
  - rewrite drop_app_add. by apply IH.
Qed.

Lemma read_parity_image (cfg : config) (st : state) (tr : nat → bytes → bytes)
    (drives : list nat) (n i : nat) :
  (∀ j, j < n → length (parity_chunk_of cfg st tr drives j) = chunk_size cfg) →
  i < n →
  read_at (parity_image cfg st tr drives n) (i * chunk_size cfg) (chunk_size cfg)
  = parity_chunk_of cfg st tr drives i.
Proof.
  intros Hlen Hi. unfold parity_image, ljust. apply read_rows.
  - apply Forall_forall. intros row Hrow.
    apply list_elem_of_fmap in Hrow as (j & -> & Hj).
    apply elem_of_seq in Hj. apply Hlen. lia.
  - rewrite list_lookup_fmap, lookup_seq_lt by done. done.
Qed.

Lemma length_parity_chunk_online (cfg : config) (st : state)
    (drives : list nat) (n j : nat) :
  holds_chunks cfg st drives n → j < n →
  length (parity_chunk_of cfg st plain (online_drives st drives) j)
  = chunk_size cfg.
Proof.
  intros Hhold Hj. unfold parity_chunk_of. apply length_xor_fold.
  apply Forall_map. apply Forall_forall. intros d Hd. simpl.
  apply list_elem_of_filter in Hd as [Hon Hin].
  unfold holds_chunks in Hhold. rewrite Forall_forall in Hhold.
  eapply chunk_full; eauto.
Qed.

Lemma holds_chunks_subset (cfg : config) (st : state) (drives sub : list nat)
    (n : nat) :
  Forall (fun d => d ∈ drives) sub →
  holds_chunks cfg st drives n → holds_chunks cfg st sub n.
Proof.
  unfold holds_chunks. rewrite !Forall_forall. auto.
Qed.

Lemma drives_exist_subset (st : state) (drives sub : list nat) :
  (∀ d, d ∈ sub → d ∈ drives) →
  drives_exist st drives → drives_exist st sub.
Proof. unfold drives_exist. rewrite !Forall_forall. auto. Qed.

(** *** The layout *)

Lemma elem_of_concat_map {A B} (f : A → list B) (l : list A) (x : A) (y : B) :
  x ∈ l → y ∈ f x → y ∈ concat (map f l).
Proof.
  intros Hx Hy. apply list_elem_of_In, in_concat. exists (f x). split.
  - apply in_map. by apply list_elem_of_In.
  - by apply list_elem_of_In.
Qed.

Lemma group_in_all_groups (cfg : config) (db : dbox) (g : group) :
  db ∈ dboxes cfg → g ∈ d_local_groups db → g ∈ all_groups cfg.
Proof. apply elem_of_concat_map. Qed.

Lemma wf_layout_parts (cfg : config) :
  wf_layout cfg →
  NoDup (local_parity_drives cfg) ∧
  (∀ d, d ∈ get_all_data_drives cfg →
        d ∉ local_parity_drives cfg ++ global_parity_drives cfg ++ spare_drives cfg) ∧
  (∀ p, p ∈ local_parity_drives cfg →
        p ∉ global_parity_drives cfg ++ spare_drives cfg).
Proof.
  intros [Hnd _]. unfold all_roles in Hnd.
  apply NoDup_app in Hnd as (_ & Hdata & Hnd).
  apply NoDup_app in Hnd as (Hlp & Hlpout & _).
  done.
Qed.

Lemma roles_exist (cfg : config) (st : state) :
  drives_exist st (all_roles cfg) →
  drives_exist st (get_all_data_drives cfg) ∧
  Forall (fun p => p < length (disk st)) (local_parity_drives cfg) ∧
  Forall (fun p => p < length (disk st)) (global_parity_drives cfg) ∧
  Forall (fun p => p < length (disk st)) (spare_drives cfg).
Proof.
  unfold drives_exist, all_roles. rewrite !Forall_app.
  intros (Hd & Hl & Hg & Hs). split; [done|].
  repeat split; eapply Forall_impl; eauto; by intros ? [? ?].
Qed.

(** The Normal-mode write returns, and leaves every local-parity drive
    with the parity of what the online data drives of its group now hold. *)
Lemma normal_write_result (cfg : config) (st : state) (data : bytes) :
  wf_layout cfg →
  drives_exist st (all_roles cfg) →
  chunk_size cfg ≠ 0 →
  online_drives st (get_all_data_drives cfg) ≠ [] →
  ∃ st',
    _write_data_normal_mode cfg st data
    = Some ((true, WroteNormal (length data)
                     (length (online_drives st (get_all_data_drives cfg)))), st') ∧
    drive_status st' = drive_status st ∧
    length (disk st') = length (disk st) ∧
    holds_chunks cfg st' (get_all_data_drives cfg)
      (chunks_per_drive_of (length data / chunk_size cfg)
         (length (online_drives st (get_all_data_drives cfg)))) ∧
    ∀ g p, g ∈ all_groups cfg → g_parity_drive g = Some p →
      content st' p
      = parity_image cfg st' plain (online_drives st' (g_data_drives g))
          (chunks_per_drive_of (length data / chunk_size cfg)
             (length (online_drives st (get_all_data_drives cfg)))).
Proof.
  intros Hwf Hex Hcs Hav.
  destruct (wf_layout_parts cfg Hwf) as (Hndlp & Hdataout & Hlpout).
  destruct Hwf as [_ Hsub].
  destruct (roles_exist cfg st Hex) as (Hexd & Hexl & Hexg & Hexs).
  unfold _write_data_normal_mode.
  rewrite bool_decide_eq_false_2 by done.
  rewrite online_of_online_drives
    by (eapply Forall_impl; [exact Hexd|]; by intros ? [? ?]).
  simpl. rewrite bool_decide_eq_false_2 by (by rewrite length_0_nil).
  set (av := online_drives st (get_all_data_drives cfg)).
  set (N := length data / chunk_size cfg).
  set (cpd := chunks_per_drive_of N (length av)).
  assert (N * chunk_size cfg ≤ length data) as HN.
  { unfold N. rewrite Nat.mul_comm. apply Nat.Div0.mul_div_le. }
  destruct (write_drives_written cfg data N cpd HN av st 0) as (st1 & -> & Hun1 & Hlen1).
  { apply Forall_forall. intros d Hd. apply list_elem_of_filter in Hd as [_ Hd].
    unfold drives_exist in Hexd. rewrite Forall_forall in Hexd.
    by apply Hexd. }
  simpl.
  assert (holds_chunks cfg st1 (get_all_data_drives cfg) cpd) as Hhold1.
  { apply Forall_forall. intros d Hd Hon. apply Hlen1.
    apply list_elem_of_filter. split; [|done].
    by rewrite <- (unchanged_online av st st1). }
  unfold local_parity_pass. rewrite for_each_nested. fold (all_groups cfg).
  destruct (local_parity_pass_written cfg cpd (get_all_data_drives cfg)
              (all_groups cfg)) with (st := st1) as (st2 & -> & Hun2 & Himg2).
  { done. }
  { apply Forall_forall. intros p Hp Hd. apply (Hdataout p Hd).
    apply elem_of_app. by left. }
  { done. }
  { by eapply unchanged_drives_exist. }
  { done. }
  { destruct Hun1 as (_ & -> & _). done. }
  simpl. unfold global_parity_pass.
  assert (length (disk st2) = length (disk st)) as Hlen2.
  { destruct Hun1 as (_ & <- & _). by destruct Hun2 as (_ & -> & _). }
  assert (drives_exist st2 (get_all_data_drives cfg)) as Hexd2.
  { eapply unchanged_drives_exist; [exact Hun2|].
    by eapply unchanged_drives_exist. }
  destruct (global_parity_pass_frame cfg cpd (dboxes cfg) st2) as (st3 & -> & Hun3).
  { apply Forall_forall. intros db Hdb. split.
    - eapply drives_exist_subset; [|exact Hexd2].
      intros d Hd. by eapply elem_of_concat_map.
    - rewrite Hlen2. rewrite Forall_forall in Hexg. apply Hexg.
      by apply list_elem_of_fmap_2. }
  simpl. unfold clear_spares. rewrite for_each_nested.
  fold (spare_drives cfg).
  destruct (write_list_frame (replicate (drive_size cfg) 0%Z) (spare_drives cfg) st3)
    as (st4 & -> & Hun4).
  { destruct Hun3 as (_ & -> & _). by rewrite Hlen2. }
  simpl. exists st4. split; [done|].
  pose proof (unchanged_trans _ _ _ _ _ Hun3 Hun4) as Hun34.
  pose proof (unchanged_trans _ _ _ _ _ Hun2 Hun34) as Hun24.
  assert (Forall (fun d => d ∉ local_parity_drives cfg
                             ++ global_parity_drives cfg ++ spare_drives cfg)
                 (get_all_data_drives cfg)) as Hdout.
  { apply Forall_forall. exact Hdataout. }
  split; [|split; [|split]].
  - destruct Hun24 as (-> & _ & _). by destruct Hun1 as (-> & _ & _).
  - destruct Hun24 as (_ & -> & _). by destruct Hun1 as (_ & -> & _).
  - by eapply unchanged_holds_chunks.
  - intros g p Hg Hp.
    assert (p ∈ local_parity_drives cfg) as Hplp.
    { apply list_elem_of_omap. by exists g. }
    rewrite (unchanged_content _ st2 st4 p Hun34) by by apply Hlpout.
    rewrite (Himg2 g p Hg Hp).
    apply parity_image_agree.
    eapply unchanged_agree_online; [exact Hun24|].
    rewrite Forall_forall in Hsub. specialize (Hsub g Hg).
    rewrite Forall_forall in Hsub, Hdout |- *. auto.
Qed.

Lemma ha_mode_set_stored (st : state) (data : bytes) (name : string) :
  ha_mode (set_stored st data name) = ha_mode st.
Proof. done. Qed.

Lemma normal_write_no_drives (cfg : config) (st : state) (data : bytes) :
  drives_exist st (get_all_data_drives cfg) →
  chunk_size cfg ≠ 0 →
  online_drives st (get_all_data_drives cfg) = [] →
  _write_data_normal_mode cfg st data = Some ((false, NoDataDrives), st).
Proof.
  intros Hex Hcs Hnone. unfold _write_data_normal_mode.
  rewrite bool_decide_eq_false_2 by done.
  rewrite online_of_online_drives
    by (eapply Forall_impl; [exact Hex|]; by intros ? [? ?]).
  simpl. by rewrite Hnone.
Qed.

(** C1: after a completed Normal-mode write, and as long as no drive
    status changes, chunk [i] of the local-parity drive of every group is
    the bytewise XOR of chunk [i] of the online data drives of the group,
    for every chunk index [i] the pass wrote. *)
Theorem normal_write_keeps_local_parity
    (cfg : config) (st st' : state) (files : list input_file)
    (nbytes ndrives : nat) :
  wf_layout cfg →
  drives_exist st (all_roles cfg) →
  ha_mode st = false →
  write_files cfg st files = Some ((true, WroteNormal nbytes ndrives), st') →
  ∀ (db : dbox) (g : group) (p i : nat),
    db ∈ dboxes cfg →
    g ∈ d_local_groups db →
    g_parity_drive g = Some p →
    i < chunks_per_drive_of (nbytes / chunk_size cfg) ndrives →
    chunk cfg st' p i
    = xor_fold (chunk_size cfg)
        (map (fun d => chunk cfg st' d i) (online_drives st' (g_data_drives g))).
Proof.
  intros Hwf Hex Hha Hw db g p i Hdb Hg Hp Hi.
  unfold write_files in Hw. destruct files as [|f fs]; [done|].
  destruct (combine_files (f :: fs) []) as [combined|] eqn:Hc;
    cbn -[get_storage_stats set_stored] in Hw; [|done].
  case_bool_decide; [done|]. case_bool_decide as Hcs; [done|].
  cbn -[set_stored] in Hw. rewrite ha_mode_set_stored, Hha in Hw.
  set (st0 := set_stored st combined
                (match fs with [] => f_path f | _ => "combined_files.dat"%string end))
    in *.
  set (data := ljust combined (padded_size cfg (length combined))) in *.
  assert (drives_exist st0 (all_roles cfg)) as Hex0 by done.
  destruct (decide (online_drives st0 (get_all_data_drives cfg) = [])) as [Hnone|Hav].
  { rewrite normal_write_no_drives in Hw; [done | | done | done].
    by destruct (roles_exist cfg st0 Hex0). }
  destruct (normal_write_result cfg st0 data Hwf Hex0 Hcs Hav)
    as (st1 & Hrun & _ & _ & Hhold & Himg).
  rewrite Hrun in Hw. injection Hw as <- <- <-.
  pose proof (group_in_all_groups cfg db g Hdb Hg) as Hgall.
  assert (holds_chunks cfg st1 (g_data_drives g)
            (chunks_per_drive_of (length data / chunk_size cfg)
               (length (online_drives st0 (get_all_data_drives cfg))))) as Hholdg.
  { eapply holds_chunks_subset; [|exact Hhold].
    destruct Hwf as [_ Hsub]. rewrite Forall_forall in Hsub. by apply Hsub. }
  unfold chunk at 1. rewrite (Himg g p Hgall Hp).
  rewrite read_parity_image; [done | | done].
  intros j Hj. by eapply length_parity_chunk_online.
Qed.

Lemma normal_write_keeps_local_parity_witness :
  chunk tiny_pool tiny_written 4 2
  = xor_fold (chunk_size tiny_pool)
      (map (fun d => chunk tiny_pool tiny_written d 2)
           (online_drives tiny_written (g_data_drives tiny_group0))).
Proof.
  apply (normal_write_keeps_local_parity
           tiny_pool (initialize_drives tiny_pool) tiny_written
           [sample_file] 22 4) with (db := tiny_dbox).
  - by_compute.
  - by_compute.
  - reflexivity.
  - vm_compute. reflexivity.
  - apply list_elem_of_lookup. by exists 0.
  - apply list_elem_of_lookup. by exists 0.
  - reflexivity.
  - vm_compute. lia.
Defined.

(** *** Rebuild of a data drive *)

Lemma other_chunks_peers (cfg : config) (st : state) (failed : nat)
    (drives : list nat) (i n : nat) :
  drives_exist st drives →
  holds_chunks cfg st drives n →
  i < n →
  other_chunks cfg st failed drives i
  = Some (map (fun d => (d, chunk cfg st d i)) (peers st failed drives)).
Proof.
  unfold peers. intros Hex Hhold Hi.
  induction Hex as [|d drives [Hs Hd] _ IH]; simpl; [done|].
  inversion Hhold as [|? ? Hlen Hrest]; subst.
  rewrite filter_cons. case_bool_decide as Hne.
  - rewrite lookup_status by done. simpl.
    destruct (is_online st d) eqn:Hon; simpl.
    + rewrite read_chunk_chunk by done. simpl. rewrite IH by done. simpl.
      rewrite bool_decide_eq_true_2.
      * by rewrite decide_True.
      * eapply chunk_full; [exact Hi|]. by apply Hlen.
    + rewrite IH by done. rewrite decide_False; [done|].
      intros [_ []].
  - rewrite IH by done. rewrite decide_False; [done|]. intros [? _]. done.
Qed.

Lemma rebuild_chunk_result (cfg : config) (st : state) (failed : nat)
    (g : group) (p i n : nat) :
  g_parity_drive g = Some p →
  p < length (disk st) →
  drives_exist st (g_data_drives g) →
  holds_chunks cfg st (g_data_drives g) n →
  n * chunk_size cfg ≤ length (content st p) →
  i < n →
  rebuild_chunk cfg st failed g i
  = Some (rebuilt_chunk cfg st failed g p i,
          p :: peers st failed (g_data_drives g)).
Proof.
  intros Hp Hlt Hex Hhold Hplen Hi. unfold rebuild_chunk. rewrite Hp. simpl.
  rewrite read_chunk_chunk by done. simpl.
  rewrite (other_chunks_peers cfg st failed _ i n) by done. simpl.
  rewrite !map_map. simpl.
  rewrite calculate_parity_fold; [by rewrite map_id|].
  constructor; [by eapply chunk_full|].
  apply Forall_map. apply Forall_forall. intros d Hd. simpl.
  apply list_elem_of_filter in Hd as [[_ Hon] Hin].
  unfold holds_chunks in Hhold. rewrite Forall_forall in Hhold.
  eapply chunk_full; eauto.
Qed.

Lemma list_to_set_repeated (l : list nat) (n : nat) : ∀ a : nat,
  list_to_set (concat (map (fun _ => l) (seq a (S n)))) =@{gset nat} list_to_set l.
Proof.
  induction n as [|n IH]; intros a.
  - simpl. by rewrite app_nil_r.
  - change (seq a (S (S n))) with (a :: seq (S a) (S n)).
    cbn [map concat]. rewrite list_to_set_app_L, IH. apply (idemp_L (∪)).
Qed.

Lemma rebuild_data_drive_result (cfg : config) (st : state) (failed : nat)
    (g : group) (p : nat) :
  g_parity_drive g = Some p →
  p < length (disk st) →
  failed < length (disk st) →
  drives_exist st (g_data_drives g) →
  chunk_size cfg ≠ 0 →
  chunk_size cfg ≤ drive_size cfg →
  holds_chunks cfg st (g_data_drives g) (drive_size cfg / chunk_size cfg) →
  drive_size cfg / chunk_size cfg * chunk_size cfg ≤ length (content st p) →
  _rebuild_data_drive cfg st failed g
  = Some ({[p]} ∪ list_to_set (peers st failed (g_data_drives g)),
          set_disk st
            (<[failed := concat (map (rebuilt_chunk cfg st failed g p)
                                     (seq 0 (drive_size cfg / chunk_size cfg)))]>
               (disk st))).
Proof.
  intros Hp Hplt Hflt Hex Hcs Hle Hhold Hplen. unfold _rebuild_data_drive.
  rewrite bool_decide_eq_false_2 by done.
  set (n := drive_size cfg / chunk_size cfg) in *.
  rewrite (mapM_total _ (fun i => (rebuilt_chunk cfg st failed g p i,
                                    p :: peers st failed (g_data_drives g)))).
  2:{ apply Forall_forall. intros i Hi. apply elem_of_seq in Hi.
      apply (rebuild_chunk_result cfg st failed g p i n); (done || lia). }
  simpl. rewrite !map_map. simpl.
  rewrite write_wb_Some by done. simpl. do 2 f_equal.
  assert (0 < n) as Hn.
  { unfold n. apply Nat.div_str_pos. lia. }
  destruct n as [|n]; [lia|].
  by rewrite list_to_set_repeated.
Qed.

Lemma first_group_Some (test : group → bool) (gs : list group) (g : group) :
  first_group test gs = Some g → test g = true ∧ g ∈ gs.
Proof.
  induction gs as [|g' gs IH]; simpl; [done|].
  destruct (test g') eqn:Ht.
  - intros [= <-]. split; [done | by left].
  - intros H. destruct (IH H). split; [done | by right].
Qed.

Lemma rebuild_route_member (cfg : config) (failed : nat) (db : dbox)
    (g : group) (p : nat) :
  rebuild_route cfg failed db g p → failed ∈ g_data_drives g ∧ p ≠ failed.
Proof.
  intros (_ & _ & _ & Hg & _ & Hp).
  apply first_group_Some in Hg as [Hin _].
  apply bool_decide_eq_true_1 in Hin. split; [done|]. by intros ->.
Qed.

(** A call of [rebuild_drives] for one offline data drive. *)
Lemma rebuild_one_data_drive (cfg : config) (st : state) (failed : nat)
    (db : dbox) (g : group) (p : nat) (bring_online : bool) :
  rebuild_route cfg failed db g p →
  drive_status st !! failed = Some false →
  p < length (disk st) →
  failed < length (disk st) →
  drives_exist st (g_data_drives g) →
  chunk_size cfg ≠ 0 →
  chunk_size cfg ≤ drive_size cfg →
  holds_chunks cfg st (g_data_drives g) (drive_size cfg / chunk_size cfg) →
  drive_size cfg / chunk_size cfg * chunk_size cfg ≤ length (content st p) →
  ∃ notes st',
    rebuild_drives cfg st [failed] bring_online
    = Some ({[p]} ∪ list_to_set (peers st failed (g_data_drives g)), notes, st') ∧
    content st' failed
    = concat (map (rebuilt_chunk cfg st failed g p)
                  (seq 0 (drive_size cfg / chunk_size cfg))).
Proof.
  intros Hroute Hoff Hplt Hflt Hex Hcs Hle Hhold Hplen.
  destruct Hroute as (Hdpd & Hdb & Htype & Hg & Hp & Hpout).
  unfold rebuild_drives. cbn [for_each]. unfold rebuild_one.
  rewrite Hoff. cbn [mbind option_bind].
  unfold get_dbox_for_drive.
  rewrite (bool_decide_eq_false_2 (drives_per_dbox cfg = 0)) by done.
  cbn [mbind option_bind]. rewrite Hdb. cbn [mbind option_bind].
  rewrite Htype, Hg.
  rewrite (rebuild_data_drive_result cfg st failed g p) by done.
  cbn [mbind option_bind].
  set (rebuilt := concat (map (rebuilt_chunk cfg st failed g p) _)).
  set (st1 := set_disk st (<[failed := rebuilt]> (disk st))).
  assert (content st1 failed = rebuilt) as Hc1.
  { unfold st1. by apply content_set_disk_eq. }
  assert (failed < length (disk st1)) as Hflt1.
  { unfold st1. simpl. by rewrite length_insert. }
  rewrite (left_id_L ∅ (∪)).
  destruct bring_online.
  - rewrite (lookup_disk (set_status st1 _) failed) by done.
    cbn [mbind option_bind]. eexists _, _. split; [done | exact Hc1].
  - rewrite (lookup_disk st1 failed) by done.
    cbn [mbind option_bind]. eexists _, _. split; [done | exact Hc1].
Qed.

(** C10: a call of [rebuild_drives] for one offline data drive returns as
    the drives read the local-parity drive of the failed drive's group and
    every other online data drive of that group, and never the failed
    drive. *)
Theorem rebuild_reads_parity_and_online_peers
    (cfg : config) (st : state) (failed : nat)
    (db : dbox) (g : group) (p : nat) (bring_online : bool) :
  rebuild_route cfg failed db g p →
  drive_status st !! failed = Some false →
  p < length (disk st) →
  failed < length (disk st) →
  drives_exist st (g_data_drives g) →
  chunk_size cfg ≠ 0 →
  chunk_size cfg ≤ drive_size cfg →
  holds_chunks cfg st (g_data_drives g) (drive_size cfg / chunk_size cfg) →
  drive_size cfg / chunk_size cfg * chunk_size cfg ≤ length (content st p) →
  ∃ (drives_read : gset nat) notes st',
    rebuild_drives cfg st [failed] bring_online = Some (drives_read, notes, st') ∧
    (∀ d, d ∈ drives_read ↔
          d = p ∨ (d ∈ g_data_drives g ∧ d ≠ failed ∧ is_online st d)) ∧
    failed ∉ drives_read.
Proof.
  intros Hroute Hoff Hplt Hflt Hex Hcs Hle Hhold Hplen.
  destruct (rebuild_route_member cfg failed db g p Hroute) as [Hin Hne].
  destruct (rebuild_one_data_drive cfg st failed db g p bring_online)
    as (notes & st' & Hrun & _); [done..|].
  eexists _, notes, st'. split; [exact Hrun|].
  assert (∀ d, d ∈ ({[p]} ∪ list_to_set (peers st failed (g_data_drives g)) : gset nat)
               ↔ d = p ∨ (d ∈ g_data_drives g ∧ d ≠ failed ∧ is_online st d)) as Hset.
  { intros d. rewrite elem_of_union, elem_of_singleton, elem_of_list_to_set.
    unfold peers. rewrite list_elem_of_filter. tauto. }
  split; [exact Hset|].
  rewrite Hset. intros [Heq | (_ & Hd & _)]; [by apply Hne | done].
Qed.

Lemma rebuild_reads_parity_and_online_peers_witness :
  ∃ (drives_read : gset nat) notes st',
    rebuild_drives tiny_pool tiny_degraded [1] true
    = Some (drives_read, notes, st') ∧
    (∀ d, d ∈ drives_read ↔
          d = 4 ∨ (d ∈ g_data_drives tiny_group0 ∧ d ≠ 1 ∧ is_online tiny_degraded d)) ∧
    1 ∉ drives_read.
Proof.
  apply (rebuild_reads_parity_and_online_peers
           tiny_pool tiny_degraded 1 tiny_dbox tiny_group0 4 true); by_compute.
Defined.

(** *** XOR recovers the missing chunk *)

Lemma lxor_recover (a d b : Z) :
  Z.lxor (Z.lxor a (Z.lxor d b)) (Z.lxor a b) = d.
Proof.
  apply Z.bits_inj'. intros k _. rewrite !Z.lxor_spec.
  by destruct (Z.testbit a k), (Z.testbit d k), (Z.testbit b k).
Qed.

Lemma xor_bytes_recover (A : bytes) : ∀ D B : bytes,
  length A = length D → length B = length D →
  xor_bytes (xor_bytes A (xor_bytes D B)) (xor_bytes A B) = D.
Proof.
  unfold xor_bytes.
  induction A as [|a A IH]; intros [|d D] [|b B] H1 H2; simpl in *; try done.
  f_equal; [apply lxor_recover|]. apply IH; lia.
Qed.

Lemma xor_bytes_assoc (a : bytes) : ∀ b c : bytes,
  xor_bytes (xor_bytes a b) c = xor_bytes a (xor_bytes b c).
Proof.
  unfold xor_bytes.
  induction a as [|x a IH]; intros [|y b] [|z c]; simpl; try done.
  f_equal; [by rewrite Z.lxor_assoc | apply IH].
Qed.

Lemma xor_bytes_zero_l (a : bytes) : xor_bytes (replicate (length a) 0%Z) a = a.
Proof.
  unfold xor_bytes. induction a as [|x a IH]; simpl; [done|]. by rewrite IH.
Qed.

Lemma xor_bytes_zero_r (a : bytes) : xor_bytes a (replicate (length a) 0%Z) = a.
Proof.
  unfold xor_bytes. induction a as [|x a IH]; simpl; [done|].
  by rewrite IH, Z.lxor_0_r.
Qed.

Lemma length_foldr_xor (n : nat) (l : list bytes) :
  Forall (fun c => length c = n) l →
  length (foldr xor_bytes (replicate n 0%Z) l) = n.
Proof.
  induction 1 as [|c l Hc _ IH]; simpl; [by rewrite length_replicate|].
  rewrite length_xor_bytes by congruence. done.
Qed.

Lemma foldl_xor_foldr (n : nat) (l : list bytes) : ∀ a : bytes,
  length a = n →
  Forall (fun c => length c = n) l →
  foldl xor_bytes a l = xor_bytes a (foldr xor_bytes (replicate n 0%Z) l).
Proof.
  induction l as [|c l IH]; intros a Ha Hl; simpl.
  - subst n. by rewrite xor_bytes_zero_r.
  - inversion Hl as [|? ? Hc Hrest]; subst.
    rewrite IH; [apply xor_bytes_assoc | | done].
    unfold xor_bytes. rewrite length_zip_with. lia.
Qed.

Lemma foldr_xor_app (n : nat) (l1 l2 : list bytes) :
  Forall (fun c => length c = n) l2 →
  foldr xor_bytes (replicate n 0%Z) (l1 ++ l2)
  = xor_bytes (foldr xor_bytes (replicate n 0%Z) l1)
              (foldr xor_bytes (replicate n 0%Z) l2).
Proof.
  intros H2. induction l1 as [|c l1 IH]; simpl.
  - rewrite <- (length_foldr_xor n l2 H2) at 2. by rewrite xor_bytes_zero_l.
  - by rewrite IH, xor_bytes_assoc.
Qed.

Lemma xor_fold_cons (n : nat) (P : bytes) (rest : list bytes) :
  length P = n →
  Forall (fun c => length c = n) rest →
  xor_fold n (P :: rest) = xor_bytes P (foldr xor_bytes (replicate n 0%Z) rest).
Proof.
  intros HP Hrest. unfold xor_fold. simpl.
  rewrite <- HP at 1. rewrite xor_bytes_zero_l. by apply foldl_xor_foldr.
Qed.

Lemma xor_fold_foldr (n : nat) (l : list bytes) :
  Forall (fun c => length c = n) l →
  xor_fold n l = foldr xor_bytes (replicate n 0%Z) l.
Proof.
  intros Hl. unfold xor_fold.
  rewrite (foldl_xor_foldr n) by (done || apply length_replicate).
  rewrite <- (length_foldr_xor n l Hl) at 1. apply xor_bytes_zero_l.
Qed.

Lemma filter_all {A} (P : A → Prop) `{∀ x, Decision (P x)} (l : list A) :
  Forall P l → filter P l = l.
Proof.
  induction 1 as [|x l Hx _ IH]; [done|].
  by rewrite filter_cons, decide_True, IH.
Qed.

(** The parity of a whole group folded with every member but one is the
    chunk of that one. *)
Lemma xor_recover (n : nat) (c : nat → bytes) (drives : list nat) (failed : nat) :
  NoDup drives →
  failed ∈ drives →
  Forall (fun d => length (c d) = n) drives →
  xor_fold n (xor_fold n (map c drives)
                :: map c (filter (fun d => d ≠ failed) drives))
  = c failed.
Proof.
  intros Hnd Hin Hlen.
  apply list_elem_of_split in Hin as (l1 & l2 & ->).
  apply NoDup_app in Hnd as (_ & Hl1 & Hnd2).
  apply NoDup_cons in Hnd2 as [Hl2 _].
  apply Forall_app in Hlen as [Hlen1 Hlen2].
  inversion Hlen2 as [|? ? Hf Hlen2']; subst.
  rewrite filter_app, filter_cons, decide_False by (intros ?; done).
  rewrite (filter_all _ l1), (filter_all _ l2).
  2:{ apply Forall_forall. intros d Hd ->. done. }
  2:{ apply Forall_forall. intros d Hd ->. apply (Hl1 failed Hd). by left. }
  assert (∀ l, Forall (fun d => length (c d) = length (c failed)) l →
               Forall (fun b => length b = length (c failed)) (map c l)) as Hmap.
  { intros l Hl. by apply Forall_map. }
  rewrite xor_fold_cons.
  - rewrite xor_fold_foldr
      by (apply Hmap, Forall_app; split; [done | by constructor]).
    rewrite !map_app. simpl.
    rewrite !foldr_xor_app by (try constructor; auto). simpl.
    apply xor_bytes_recover; by rewrite length_foldr_xor by auto.
  - apply length_xor_fold. apply Hmap, Forall_app. split; [done | by constructor].
  - rewrite map_app. apply Forall_app. auto.
Qed.

Lemma concat_chunks (cs : nat) (n : nat) : ∀ c : bytes,
  length c = n * cs →
  concat (map (fun i => read_at c (i * cs) cs) (seq 0 n)) = c.
Proof.
  induction n as [|n IH]; intros c Hc.
  - by destruct c.
  - change (seq 0 (S n)) with (0 :: seq 1 n). rewrite <- seq_shift.
    cbn [map concat]. rewrite map_map.
    transitivity (take cs c ++ drop cs c); [|apply take_drop]. f_equal.
    etransitivity; [|apply (IH (drop cs c)); rewrite length_drop; lia].
    f_equal. apply map_ext. intros i. unfold read_at.
    by rewrite drop_drop.
Qed.

Lemma filter_ext_in {A} (P Q : A → Prop) `{∀ x, Decision (P x)}
    `{∀ x, Decision (Q x)} (l : list A) :
  (∀ x, x ∈ l → (P x ↔ Q x)) → filter P l = filter Q l.
Proof.
  induction l as [|x l IH]; intros Hext; [done|].
  rewrite !filter_cons, IH by (intros y Hy; apply Hext; by right).
  destruct (decide (P x)) as [HP|HP], (decide (Q x)) as [HQ|HQ]; try done;
    exfalso; apply (Hext x ltac:(by left)) in HP || apply (Hext x ltac:(by left)) in HQ;
    done.
Qed.

(** C2, with what it takes for granted made explicit: if the local-parity
    drive of the group holds the XOR of all the data drives of the group,
    whole chunks over the whole drive, then after one data drive of the
    group fails (it goes offline and whatever its file then holds) while
    the other data drives of the group are online, [rebuild_drives] writes
    back to it, byte for byte, what it held before. *)
Theorem rebuild_restores_data_drive
    (cfg : config) (st0 : state) (failed : nat)
    (db : dbox) (g : group) (p : nat) (junk : bytes) (bring_online : bool) :
  rebuild_route cfg failed db g p →
  NoDup (g_data_drives g) →
  p < length (disk st0) →
  drives_exist st0 (g_data_drives g) →
  chunk_size cfg ≠ 0 →
  chunk_size cfg ≤ drive_size cfg →
  length (content st0 failed)
    = drive_size cfg / chunk_size cfg * chunk_size cfg →
  whole_files cfg st0 (p :: g_data_drives g) →
  parity_consistent cfg st0 g p →
  Forall (fun d => d ≠ failed → is_online st0 d) (g_data_drives g) →
  ∃ drives_read notes st',
    rebuild_drives cfg (failed_state st0 failed junk) [failed] bring_online
    = Some (drives_read, notes, st') ∧
    content st' failed = content st0 failed.
Proof.
  intros Hroute Hnd Hplt Hex Hcs Hle Hflen Hwhole Hpar Hothers.
  destruct (rebuild_route_member cfg failed db g p Hroute) as [Hin Hne].
  set (n := drive_size cfg / chunk_size cfg) in *.
  set (st := failed_state st0 failed junk).
  inversion Hwhole as [|? ? Hplen Hdlen]; subst.
  unfold drives_exist in Hex. rewrite Forall_forall in Hex, Hdlen, Hothers.
  destruct (Hex failed Hin) as [Hfs Hfd].
  assert (∀ d, d ≠ failed → is_online st d = is_online st0 d) as Hon.
  { intros d Hd. unfold is_online, st, failed_state, toggle. simpl.
    by rewrite list_lookup_insert_ne. }
  assert (∀ d, d ≠ failed → content st d = content st0 d) as Hcont.
  { intros d Hd. unfold content, st, failed_state. simpl.
    by rewrite list_lookup_insert_ne. }
  assert (drive_status st !! failed = Some false) as Hoff.
  { unfold st, failed_state, toggle. simpl. by apply list_lookup_insert_eq. }
  assert (length (disk st) = length (disk st0)) as Hdl.
  { unfold st, failed_state. simpl. by rewrite length_insert. }
  assert (length (drive_status st) = length (drive_status st0)) as Hsl.
  { unfold st, failed_state, toggle. simpl. by rewrite length_insert. }
  destruct (rebuild_one_data_drive cfg st failed db g p bring_online)
    as (notes & st' & Hrun & Hc); try done.
  { by rewrite Hdl. }
  { by rewrite Hdl. }
  { apply Forall_forall. intros d Hd. rewrite Hsl, Hdl. by apply Hex. }
  { apply Forall_forall. intros d Hd Hd_on.
    destruct (decide (d = failed)) as [->|Hdne].
    - unfold is_online in Hd_on. rewrite Hoff in Hd_on. done.
    - rewrite Hcont by done. by apply Hdlen. }
  { by rewrite Hcont. }
  eexists _, notes, st'. split; [exact Hrun|]. rewrite Hc. fold n.
  rewrite <- (concat_chunks (chunk_size cfg) n (content st0 failed)) by done.
  f_equal. apply map_ext_in. intros i Hi. apply in_seq in Hi.
  unfold rebuilt_chunk.
  assert (peers st failed (g_data_drives g)
          = filter (fun d => d ≠ failed) (g_data_drives g)) as ->.
  { unfold peers. apply filter_ext_in. intros d Hd. split; [by intros [? _]|].
    intros Hdne. split; [done|]. rewrite Hon by done. by apply Hothers. }
  assert (chunk cfg st p i
          = xor_fold (chunk_size cfg)
              (map (fun d => chunk cfg st0 d i) (g_data_drives g))) as ->.
  { unfold parity_consistent in Hpar. rewrite Forall_forall in Hpar.
    rewrite <- (Hpar i) by (apply elem_of_seq; fold n; lia).
    unfold chunk. by rewrite Hcont. }
  assert (map (fun d => chunk cfg st d i)
              (filter (fun d => d ≠ failed) (g_data_drives g))
          = map (fun d => chunk cfg st0 d i)
                (filter (fun d => d ≠ failed) (g_data_drives g))) as ->.
  { apply map_ext_in. intros d Hd.
    apply list_elem_of_In, list_elem_of_filter in Hd as [Hdne _].
    unfold chunk. by rewrite Hcont. }
  apply (xor_recover (chunk_size cfg) (fun d => chunk cfg st0 d i)); [done..|].
  apply Forall_forall. intros d Hd.
  eapply (chunk_full cfg st0 d i n); [lia|]. by apply Hdlen.
Qed.

Lemma rebuild_restores_data_drive_witness :
  ∃ drives_read notes st',
    rebuild_drives tiny_pool (failed_state tiny_written 1 [9; 9; 9]%Z) [1] true
    = Some (drives_read, notes, st') ∧
    content st' 1 = content tiny_written 1.
Proof.
  apply (rebuild_restores_data_drive
           tiny_pool tiny_written 1 tiny_dbox tiny_group0 4 [9; 9; 9]%Z true);
    by_compute.
Defined.

(** C2, as stated, fails: after an HA-mode write the local-parity drive 38
    holds the parity of the nine selected drives, not of group 0.  With
    data drive 0 then offline and drive 38 and the rest of the group online,
    the rebuild writes [100; 88; 0; 0] where the drive held [5; 0; 0; 0]. *)
Lemma rebuild_after_ha_write_differs :
  rebuild_route small_pool 0 dbox0 group0 38 ∧
  is_online small_ha_failed 0 = false ∧
  is_online small_ha_failed 38 = true ∧
  Forall (fun d => d ≠ 0 → is_online small_ha_failed d) (g_data_drives group0) ∧
  content small_ha_failed 0 = [5; 0; 0; 0]%Z ∧
  small_ha_rebuilt = Some [100; 88; 0; 0]%Z ∧
  ¬ rebuild_restores small_pool small_ha_failed 0.
Proof.
  assert (small_ha_rebuilt = Some [100; 88; 0; 0]%Z) as Hr
    by (vm_compute; reflexivity).
  split; [by_compute|]. split; [vm_compute; reflexivity|].
  split; [vm_compute; reflexivity|]. split; [by_compute|].
  split; [vm_compute; reflexivity|]. split; [exact Hr|].
  intros H. unfold small_ha_rebuilt in Hr.
  destruct (rebuild_drives small_pool small_ha_failed [0] true)
    as [[[drives_read notes] st']|] eqn:E; simpl in Hr; [|discriminate].
  specialize (H drives_read notes st' E).
  rewrite H in Hr. vm_compute in Hr. discriminate.
Qed.

(** *** The 484-drive layout meets what the theorems ask of a layout *)

Lemma route_of_route (cfg : config) (failed : nat) (db : dbox) (g : group)
    (p : nat) :
  route_of cfg failed = Some (db, g, p) → rebuild_route cfg failed db g p.
Proof.
  unfold route_of, rebuild_route. intros H.
  case_bool_decide as Hdpd; [done|].
  destruct (dboxes cfg !! _) as [db'|] eqn:Hdb; simpl in H; [|done].
  case_bool_decide as Htype; [|done].
  destruct (first_group _ _) as [g'|] eqn:Hg; simpl in H; [|done].
  destruct (g_parity_drive g') as [p'|] eqn:Hp; simpl in H; [|done].
  case_bool_decide as Hout; [|done].
  injection H as <- <- <-. by repeat split.
Qed.

Lemma member_sound (l : list nat) (d : nat) :
  member (map N.of_nat l) d = true → d ∈ l.
Proof.
  unfold member. intros H. apply existsb_exists in H as (x & Hx & Heq).
  apply in_map_iff in Hx as (y & <- & Hy).
  apply N.eqb_eq, Nat2N.inj in Heq. subst. by apply list_elem_of_In.
Qed.

Lemma distinct_sound (l : list nat) : distinct l = true → NoDup l.
Proof.
  unfold distinct. induction l as [|x l IH]; simpl; [constructor|].
  intros H. apply andb_true_iff in H as [Hx Hl].
  constructor; [|by apply IH].
  intros Hin. apply negb_true_iff in Hx.
  assert (existsb (N.eqb (N.of_nat x)) (map N.of_nat l) = true) as Hex; [|congruence].
  apply existsb_exists. exists (N.of_nat x). split; [|apply N.eqb_refl].
  apply in_map. by apply list_elem_of_In.
Qed.

Lemma wf_layout_check_sound (cfg : config) :
  wf_layout_check cfg = true → wf_layout cfg.
Proof.
  unfold wf_layout_check, wf_layout. intros H.
  apply andb_true_iff in H as [Hnd Hsub]. split; [by apply distinct_sound|].
  apply Forall_forall. intros g Hg. apply Forall_forall. intros d Hd.
  rewrite forallb_forall in Hsub. apply list_elem_of_In in Hg.
  specialize (Hsub g Hg). rewrite forallb_forall in Hsub.
  apply member_sound. apply Hsub. by apply list_elem_of_In.
Qed.

(** The layout of VDSimm2-5-26 and VDATASIM-v2.1 is well formed, whatever
    the drive and chunk sizes. *)
Lemma pool_wf (dsz csz : nat) : wf_layout (pool dsz csz).
Proof. apply wf_layout_check_sound. vm_compute. reflexivity. Qed.

(** In that layout the rebuild finds, for the data drives 0, 13 and 37 of
    domain 0, the three local groups and their parity drives 38, 39, 40. *)
Lemma pool_routes (dsz csz : nat) :
  (snd <$> route_of (pool dsz csz) 0) = Some 38 ∧
  (snd <$> route_of (pool dsz csz) 13) = Some 39 ∧
  (snd <$> route_of (pool dsz csz) 37) = Some 40.
Proof. repeat split; vm_compute; reflexivity. Qed.

(** *** VDATASIM-v1.0: the same invariant for its two groups *)

Lemma length_weighted10 (d : nat) (c : bytes) :
  length (V10.weighted10 d c) = length c.
Proof. unfold V10.weighted10. by rewrite length_map. Qed.

(** v1.0 and v1.1 take the weight [drive_id + 1] and multiply in 8 bits;
    for their drive ids the byte that comes out is the one of C5. *)
Lemma weighted10_byte (d : nat) (b : Z) :
  d < 255 →
  V10.weighted10 d [b] = [((b * (Z.of_nat d mod 255 + 1)) mod 256)%Z].
Proof.
  intros Hd. unfold V10.weighted10, uint8. simpl.
  rewrite (Z.mod_small (Z.of_nat d) 255) by lia.
  by rewrite !Z.mod_mod by lia.
Qed.

Lemma v10_write_drives_written (cfg : config) (data : bytes) (N cpd : nat) :
  N * chunk_size cfg ≤ length data →
  ∀ (ids : list nat) (st : state) (ci : nat),
    Forall (fun d => d < length (disk st)) ids →
    ∃ st', V10.write_drives cfg data N cpd ids st ci = Some st' ∧
           unchanged_outside ids st st' ∧
           ∀ d, d ∈ ids → cpd * chunk_size cfg ≤ length (content st' d).
Proof.
  intros Hdata. induction ids as [|d rest IH]; intros st ci Hvalid; simpl.
  - exists st. split; [done|]. split; [apply unchanged_refl|].
    intros d Hd. inversion Hd.
  - inversion Hvalid as [|? ? Hd Hrest]; subst.
    pose proof (length_fill_drive cfg data N Hdata cpd ci []) as Hfill.
    destruct (fill_drive cfg data N cpd ci []) as [drive_data ci'] eqn:Hf.
    simpl in Hfill.
    rewrite write_rplus_Some by done. simpl.
    set (st1 := set_disk st (<[d := overwrite_at (content st d) 0 drive_data]> (disk st))).
    destruct (IH st1 ci') as (st' & Hrun & Hun & Hlen).
    { simpl. by rewrite length_insert. }
    exists st'. split; [done|]. split.
    + apply (unchanged_trans [d] rest st st1 st'); [|done].
      apply unchanged_set_disk.
    + intros d' Hd'. destruct (decide (d' ∈ rest)) as [Hin|Hout]; [by apply Hlen|].
      apply elem_of_cons in Hd' as [->|?]; [|done].
      rewrite (unchanged_content rest st1 st') by done.
      unfold st1. rewrite content_set_disk_eq by done.
      rewrite length_overwrite_at. lia.
Qed.

Lemma v10_local_parity_written (cfg : config) (st : state)
    (start_drive end_drive p n : nat) :
  p < length (disk st) →
  drives_exist st (seq start_drive (end_drive - start_drive)) →
  holds_chunks cfg st (seq start_drive (end_drive - start_drive)) n →
  ∃ st',
    V10._calculate_local_parity cfg st start_drive end_drive p n = Some st' ∧
    unchanged_outside [p] st st' ∧
    ∀ i, i < n →
      chunk cfg st' p i
      = parity_chunk_of cfg st plain
          (online_drives st (seq start_drive (end_drive - start_drive))) i.
Proof.
  intros Hp Hex Hhold. unfold V10._calculate_local_parity.
  rewrite parity_data_online by (done || apply length_plain). simpl.
  rewrite write_rplus_Some by done. eexists. split; [done|].
  split; [apply unchanged_set_disk|].
  intros i Hi. unfold chunk. rewrite content_set_disk_eq by done.
  unfold overwrite_at. simpl. apply read_rows.
  - apply Forall_forall. intros row Hrow.
    apply list_elem_of_fmap in Hrow as (j & -> & Hj).
    apply elem_of_seq in Hj. eapply length_parity_chunk_online; [done | lia].
  - rewrite list_lookup_fmap, lookup_seq_lt by done. done.
Qed.

Lemma v10_global_parity_frame (cfg : config) (st : state) (n : nat) :
  144 < length (disk st) → 145 < length (disk st) →
  drives_exist st (seq 0 V10.num_data_drives) →
  ∃ st', V10._calculate_global_parity cfg st n = Some st' ∧
         unchanged_outside [144; 145] st st'.
Proof.
  intros H144 H145 Hex. unfold V10._calculate_global_parity.
  rewrite parity_data_participants by (done || apply length_plain). simpl.
  rewrite write_rplus_Some by done. simpl.
  set (st1 := set_disk st _).
  assert (unchanged_outside [144] st st1) as Hun1 by apply unchanged_set_disk.
  rewrite parity_data_participants
    by (by eapply unchanged_drives_exist || apply length_weighted10).
  simpl. rewrite write_rplus_Some
    by (unfold st1; simpl; by rewrite length_insert).
  eexists. split; [done|].
  apply (unchanged_trans [144] [145] st st1); [done | apply unchanged_set_disk].
Qed.

Lemma parity_chunk_agree (cfg : config) (st1 st2 : state)
    (tr : nat → bytes → bytes) (drives : list nat) (i : nat) :
  agree_online st1 st2 drives →
  parity_chunk_of cfg st1 tr (online_drives st1 drives) i
  = parity_chunk_of cfg st2 tr (online_drives st2 drives) i.
Proof.
  intros [Hs Hc]. unfold parity_chunk_of. f_equal.
  rewrite <- (online_drives_agree st1 st2) by done.
  apply map_ext_in. intros d Hd. f_equal.
  apply list_elem_of_In, list_elem_of_filter in Hd as [Hon Hin].
  rewrite Forall_forall in Hc. unfold chunk, content. by rewrite (Hc d Hin Hon).
Qed.

(** After [write_data] of v1.0 the parity drives 142 and 143 hold, for
    every chunk index written, the XOR of the online drives of group A
    (drives 0-70) and of group B (drives 71-141). *)
Lemma v10_write_keeps_local_parity (cfg : config) (st st' : state)
    (file_data : bytes) (i : nat) :
  drives_exist st (seq 0 146) →
  V10.write_data cfg st (Some file_data) = Some ((true, V10.DataWritten), st') →
  i < chunks_per_drive_of
        (padded_size cfg (length file_data) / chunk_size cfg)
        V10.num_data_drives →
  chunk cfg st' 142 i
  = xor_fold (chunk_size cfg)
      (map (fun d => chunk cfg st' d i) (online_drives st' (seq 0 71))) ∧
  chunk cfg st' 143 i
  = xor_fold (chunk_size cfg)
      (map (fun d => chunk cfg st' d i) (online_drives st' (seq 71 71))).
Proof.
  intros Hex Hw Hi. unfold V10.write_data in Hw.
  case_bool_decide; [done|]. case_bool_decide as Hcs; [done|].
  set (data := ljust file_data (padded_size cfg (length file_data))) in *.
  assert (length data = Nat.max (length file_data) (padded_size cfg (length file_data)))
    as Hdl by apply length_ljust.
  assert (length file_data ≤ padded_size cfg (length file_data)) as Hpad.
  { unfold padded_size.
    pose proof (Nat.Div0.div_mod (length file_data + chunk_size cfg - 1) (chunk_size cfg)).
    pose proof (Nat.mod_upper_bound (length file_data + chunk_size cfg - 1)
                  (chunk_size cfg) Hcs). nia. }
  rewrite Nat.max_r in Hdl by done.
  set (N := length data / chunk_size cfg) in *.
  rewrite <- Hdl in Hi. fold N in Hi.
  set (cpd := chunks_per_drive_of N V10.num_data_drives) in *.
  assert (N * chunk_size cfg ≤ length data) as HN.
  { unfold N. rewrite Nat.mul_comm. apply Nat.Div0.mul_div_le. }
  assert (∀ a n, a + n ≤ 146 → ∀ d, d ∈ seq a n → d ∈ seq 0 146) as Hsub.
  { intros a n Han d Hd. apply elem_of_seq in Hd. apply elem_of_seq. lia. }
  assert (∀ d, d < 146 → d < length (disk st)) as Hlt.
  { intros d Hd. unfold drives_exist in Hex. rewrite Forall_forall in Hex.
    apply Hex. apply elem_of_seq. lia. }
  destruct (v10_write_drives_written cfg data N cpd HN
              (seq 0 V10.num_data_drives) st 0) as (st1 & Hrun1 & Hun1 & Hlen1).
  { apply Forall_forall. intros d Hd. apply elem_of_seq in Hd.
    apply Hlt. unfold V10.num_data_drives in Hd. lia. }
  rewrite Hrun1 in Hw. simpl in Hw.
  assert (drives_exist st1 (seq 0 146)) as Hex1 by by eapply unchanged_drives_exist.
  assert (holds_chunks cfg st1 (seq 0 V10.num_data_drives) cpd) as Hhold1.
  { apply Forall_forall. intros d Hd _. by apply Hlen1. }
  assert (length (disk st1) = length (disk st)) as Hl1 by by destruct Hun1 as (_ & ? & _).
  destruct (v10_local_parity_written cfg st1 0 71 142 cpd)
    as (st2 & Hrun2 & Hun2 & Hp2).
  { rewrite Hl1. apply Hlt. lia. }
  { eapply drives_exist_subset; [|exact Hex1]. apply Hsub. simpl. lia. }
  { eapply holds_chunks_subset; [|exact Hhold1].
    apply Forall_forall. intros d Hd. apply elem_of_seq in Hd. apply elem_of_seq.
    unfold V10.num_data_drives. simpl in Hd. lia. }
  rewrite Hrun2 in Hw. simpl in Hw.
  assert (length (disk st2) = length (disk st)) as Hl2
    by (destruct Hun2 as (_ & -> & _); done).
  assert (∀ l, Forall (fun d => d < 142) l → Forall (fun d => d ∉ [142]) l) as Hout142.
  { intros l Hl. eapply Forall_impl; [exact Hl|]. intros d Hd Hin.
    apply list_elem_of_singleton in Hin. simpl in *. lia. }
  assert (Forall (fun d => d < 142) (seq 0 V10.num_data_drives)) as Hdata142.
  { apply Forall_forall. intros d Hd. apply elem_of_seq in Hd.
    unfold V10.num_data_drives in Hd. lia. }
  destruct (v10_local_parity_written cfg st2 71 142 143 cpd)
    as (st3 & Hrun3 & Hun3 & Hp3).
  { rewrite Hl2. apply Hlt. lia. }
  { eapply drives_exist_subset; [apply Hsub; simpl; lia|].
    by eapply unchanged_drives_exist. }
  { eapply holds_chunks_subset.
    2:{ eapply unchanged_holds_chunks; [exact Hun2 | by apply Hout142 | exact Hhold1]. }
    apply Forall_forall. intros d Hd. apply elem_of_seq in Hd. apply elem_of_seq.
    unfold V10.num_data_drives. simpl in Hd. lia. }
  rewrite Hrun3 in Hw. simpl in Hw.
  assert (length (disk st3) = length (disk st)) as Hl3
    by (destruct Hun3 as (_ & -> & _); done).
  destruct (v10_global_parity_frame cfg st3 cpd) as (st4 & Hrun4 & Hun4).
  { rewrite Hl3. apply Hlt. lia. }
  { rewrite Hl3. apply Hlt. lia. }
  { eapply drives_exist_subset;
      [apply (Hsub 0 V10.num_data_drives); unfold V10.num_data_drives; lia|].
    eapply unchanged_drives_exist; [exact Hun3|].
    by eapply unchanged_drives_exist. }
  rewrite Hrun4 in Hw. simpl in Hw. injection Hw as <-.
  pose proof (unchanged_trans _ _ _ _ _ Hun3 Hun4) as Hun34.
  pose proof (unchanged_trans _ _ _ _ _ Hun2 Hun34) as Hun24.
  assert (∀ l, Forall (fun d => d < 142) l →
               Forall (fun d => d ∉ [142] ++ [143] ++ [144; 145]) l) as Hout.
  { intros l Hl. eapply Forall_impl; [exact Hl|]. intros d Hd Hin. simpl in *.
    repeat (apply elem_of_cons in Hin as [->|Hin]; [lia|]). inversion Hin. }
  assert (∀ l, Forall (fun d => d < 142) l →
               Forall (fun d => d ∉ [143] ++ [144; 145]) l) as Hout'.
  { intros l Hl. eapply Forall_impl; [exact Hl|]. intros d Hd Hin. simpl in *.
    repeat (apply elem_of_cons in Hin as [->|Hin]; [lia|]). inversion Hin. }
  assert (Forall (fun d => d < 142) (seq 0 71)) as HA.
  { apply Forall_forall. intros d Hd. apply elem_of_seq in Hd. lia. }
  assert (Forall (fun d => d < 142) (seq 71 71)) as HB.
  { apply Forall_forall. intros d Hd. apply elem_of_seq in Hd. lia. }
  split.
  - unfold chunk at 1. rewrite (unchanged_content _ st2 st4 142 Hun34).
    2:{ simpl. intros Hin.
        repeat (apply elem_of_cons in Hin as [?|Hin]; [lia|]). inversion Hin. }
    fold (chunk cfg st2 142 i). rewrite (Hp2 i Hi).
    change (71 - 0) with 71. unfold plain at 1.
    change (xor_fold (chunk_size cfg)
              (map (fun d => chunk cfg st4 d i) (online_drives st4 (seq 0 71))))
      with (parity_chunk_of cfg st4 plain (online_drives st4 (seq 0 71)) i).
    apply parity_chunk_agree.
    eapply unchanged_agree_online; [exact Hun24 | by apply Hout].
  - unfold chunk at 1. rewrite (unchanged_content _ st3 st4 143 Hun4).
    2:{ intros Hin.
        repeat (apply elem_of_cons in Hin as [?|Hin]; [lia|]). inversion Hin. }
    fold (chunk cfg st3 143 i). rewrite (Hp3 i Hi).
    change (142 - 71) with 71.
    change (xor_fold (chunk_size cfg)
              (map (fun d => chunk cfg st4 d i) (online_drives st4 (seq 71 71))))
      with (parity_chunk_of cfg st4 plain (online_drives st4 (seq 71 71)) i).
    apply parity_chunk_agree.
    eapply unchanged_agree_online; [exact Hun34 | by apply Hout'].
Qed.

(** *** The whole HA-mode write *)

Lemma full_chunks_Some (cfg : config) (st : state) (drives : list nat) (i : nat) :
  Forall (fun d => d < length (disk st)) drives →
  ∃ chunks, full_chunks cfg st drives i = Some chunks ∧
            Forall (fun c => length c = chunk_size cfg) chunks.
Proof.
  induction 1 as [|d drives Hd _ IH]; simpl.
  - by exists [].
  - rewrite read_chunk_chunk by done. simpl.
    destruct IH as (chunks & -> & Hlen). simpl.
    case_bool_decide; eexists; (split; [done|]); [by constructor | done].
Qed.

Lemma ha_parity_data_Some (cfg : config) (st : state) (drives : list nat)
    (n : nat) :
  Forall (fun d => d < length (disk st)) drives →
  is_Some (ha_parity_data cfg st drives n).
Proof.
  intros Hvalid. unfold ha_parity_data.
  assert (∀ i, ∃ row, (chunks ← full_chunks cfg st drives i;
                       calculate_parity cfg chunks) = Some row) as Hrow.
  { intros i. destruct (full_chunks_Some cfg st drives i Hvalid) as (cs & -> & Hlen).
    simpl. rewrite calculate_parity_fold by done. by eexists. }
  induction (seq 0 n) as [|i l IH]; simpl; [by eexists|].
  destruct (Hrow i) as [row ->]. simpl.
  destruct IH as [pd Hpd].
  destruct (mapM _ l) as [rows|]; simpl in *; [by eexists | done].
Qed.

Lemma ha_local_pass_frame (cfg : config) (data_drives : list nat) (n : nat)
    (lps : list nat) :
  ∀ (idx : nat) (st : state),
    Forall (fun d => d < length (disk st)) data_drives →
    Forall (fun p => p < length (disk st)) lps →
    ∃ st', ha_local_pass cfg data_drives n idx lps st = Some st' ∧
           unchanged_outside lps st st'.
Proof.
  induction lps as [|p lps IH]; intros idx st Hd Hp; simpl.
  - exists st. split; [done | apply unchanged_refl].
  - inversion Hp as [|? ? Hplt Hrest]; subst.
    destruct (ha_parity_data_Some cfg st (slice data_drives (idx * 9) (idx * 9 + 9)) n)
      as [pd ->].
    { unfold slice. by apply Forall_take, Forall_drop. }
    simpl. rewrite write_wb_Some by done. simpl.
    destruct (IH (S idx) (set_disk st (<[p := ljust pd (drive_size cfg)]> (disk st))))
      as (st' & Hrun & Hun).
    { simpl. by rewrite length_insert. }
    { simpl. by rewrite length_insert. }
    exists st'. split; [done|].
    eapply (unchanged_trans [p]); [apply unchanged_set_disk | done].
Qed.

Lemma ha_global_pass_frame (cfg : config) (data_drives : list nat) (n : nat)
    (gps : list nat) :
  ∀ st : state,
    Forall (fun d => d < length (disk st)) data_drives →
    Forall (fun p => p < length (disk st)) gps →
    ∃ st', for_each (fun s parity_drive =>
                       pd ← ha_parity_data cfg s data_drives n;
                       write_wb s parity_drive (ljust pd (drive_size cfg)))
                    gps st = Some st' ∧
           unchanged_outside gps st st'.
Proof.
  induction gps as [|p gps IH]; intros st Hd Hp; simpl.
  - exists st. split; [done | apply unchanged_refl].
  - inversion Hp as [|? ? Hplt Hrest]; subst.
    destruct (ha_parity_data_Some cfg st data_drives n Hd) as [pd ->].
    simpl. rewrite write_wb_Some by done. simpl.
    destruct (IH (set_disk st (<[p := ljust pd (drive_size cfg)]> (disk st))))
      as (st' & Hrun & Hun).
    { simpl. by rewrite length_insert. }
    { simpl. by rewrite length_insert. }
    exists st'. split; [done|].
    eapply (unchanged_trans [p]); [apply unchanged_set_disk | done].
Qed.

(** The HA-mode write as a whole: with 18 or more drives selected it
    returns, and when the call is over chunk [i] is still read at stripe
    [i div 18] of the drive at position [i mod 18], provided the four
    parity drives of the mode are not among the selected drives. *)
Lemma ha_write_result (cfg : config) (st : state) (data : bytes)
    (selected lps gps : list nat) :
  chunk_size cfg ≠ 0 →
  ha_select st (dboxes cfg) = Some selected →
  18 ≤ length selected →
  NoDup (take 18 selected) →
  Forall (fun d => d < length (disk st)) (take 18 selected) →
  ha_parity_drives 0 (take 4 (dboxes cfg)) = Some (lps, gps) →
  Forall (fun p => p < length (disk st) ∧ p ∉ take 18 selected) (lps ++ gps) →
  ∃ st',
    _write_data_ha_mode cfg st data
    = Some ((true, WroteHA (length data) 18), st') ∧
    ∀ i, i < length data / chunk_size cfg →
      ∃ d, take 18 selected !! (i mod 18) = Some d ∧
           read_at (content st' d) (i / 18 * chunk_size cfg) (chunk_size cfg)
           = slice data (i * chunk_size cfg) (i * chunk_size cfg + chunk_size cfg).
Proof.
  intros Hcs Hsel H18 Hnd Hvalid Hpd Hpar.
  assert (length (take 18 selected) = 18) as Hlen by (rewrite length_take; lia).
  unfold _write_data_ha_mode. rewrite bool_decide_eq_false_2 by done.
  rewrite Hsel. cbn [mbind option_bind]. rewrite bool_decide_eq_false_2 by lia.
  destruct (ha_write_places_chunks_in_stripes_aux cfg st data (take 18 selected))
    as (st1 & Hrun & Hdisk & Hplaced); [lia | done | done |].
  rewrite Hlen in Hrun, Hplaced. rewrite Hrun. cbn [mbind option_bind].
  unfold _calculate_ha_parity. rewrite Hpd. cbn [mbind option_bind].
  apply Forall_app in Hpar as [Hl Hg].
  destruct (ha_local_pass_frame cfg (take 18 selected)
              ((length data / chunk_size cfg + 18 - 1) / 18) lps 0 st1)
    as (st2 & -> & Hun2).
  { by rewrite Hdisk. }
  { rewrite Hdisk. eapply Forall_impl; [exact Hl|]. by intros ? [? _]. }
  cbn [mbind option_bind].
  destruct (ha_global_pass_frame cfg (take 18 selected)
              ((length data / chunk_size cfg + 18 - 1) / 18) gps st2)
    as (st3 & -> & Hun3).
  { destruct Hun2 as (_ & -> & _). by rewrite Hdisk. }
  { destruct Hun2 as (_ & -> & _). rewrite Hdisk.
    eapply Forall_impl; [exact Hg|]. by intros ? [? _]. }
  cbn [mbind option_bind]. rewrite Hlen. eexists. split; [done|].
  intros i Hi. destruct (Hplaced i Hi) as (d & Hd & Hread).
  exists d. split; [done|].
  rewrite (unchanged_content (lps ++ gps) st1 st3); [done | |].
  - by eapply unchanged_trans.
  - intros Hin. assert (d ∈ take 18 selected) as Hdsel
      by by eapply list_elem_of_lookup_2.
    apply elem_of_app in Hin as [Hin|Hin].
    + rewrite Forall_forall in Hl. by destruct (Hl d Hin).
    + rewrite Forall_forall in Hg. by destruct (Hg d Hin).
Qed.

(** ** Further properties of the code *)

(** *** The data pass of a Normal-mode write *)

Lemma take_add {A} (l : list A) : ∀ n m : nat,
  take (n + m) l = take n l ++ take m (drop n l).
Proof.
  induction l as [|x l IH]; intros [|n] m; simpl; try done.
  - by rewrite take_nil.
  - by rewrite IH.
Qed.

Lemma read_at_app (c : bytes) (off n m : nat) :
  read_at c off (n + m) = read_at c off n ++ read_at c (off + n) m.
Proof. unfold read_at. by rewrite take_add, drop_drop. Qed.

Lemma slice_read_at (data : bytes) (off n : nat) :
  slice data off (off + n) = read_at data off n.
Proof. unfold slice, read_at. f_equal. lia. Qed.

(** The inner loop reads the stream made of the whole chunks of [data]
    followed by zeros: [v] counts the chunks appended so far, past the end
    of the data too. *)
Lemma fill_drive_stream (cfg : config) (data : bytes) (N L : nat) :
  N * chunk_size cfg ≤ length data →
  ∀ (count v : nat) (acc : bytes),
    (v + count) * chunk_size cfg ≤ N * chunk_size cfg + L →
    fill_drive cfg data N count (Nat.min v N) acc
    = (acc ++ read_at (take (N * chunk_size cfg) data ++ replicate L 0%Z)
                      (v * chunk_size cfg) (count * chunk_size cfg),
       Nat.min (v + count) N).
Proof.
  intros Hdata. induction count as [|count IH]; intros v acc Hfit.
  - simpl. unfold read_at. rewrite take_0, app_nil_r. f_equal. lia.
  - cbn [fill_drive]. case_bool_decide as Hlt.
    + replace (S (Nat.min v N)) with (Nat.min (S v) N) by lia.
      rewrite IH by lia. f_equal; [|lia].
      rewrite <- app_assoc. f_equal.
      replace (S count * chunk_size cfg)
        with (chunk_size cfg + count * chunk_size cfg) by lia.
      rewrite read_at_app. f_equal; [|f_equal; lia].
      replace (Nat.min v N) with v by lia.
      rewrite slice_read_at. apply list_eq. intros i.
      rewrite !lookup_read_at. destruct (decide (i < chunk_size cfg)); [|done].
      rewrite lookup_app_l by (rewrite length_take; nia).
      rewrite lookup_take_lt by nia. done.
    + replace (Nat.min v N) with (Nat.min (S v) N) by lia.
      rewrite IH by lia. f_equal; [|lia].
      rewrite <- app_assoc. f_equal.
      replace (S count * chunk_size cfg)
        with (chunk_size cfg + count * chunk_size cfg) by lia.
      rewrite read_at_app. f_equal; [|f_equal; lia].
      apply list_eq. intros i. rewrite lookup_read_at.
      destruct (decide (i < chunk_size cfg)) as [Hi|Hi].
      * rewrite lookup_replicate_2 by done.
        rewrite lookup_app_r by (rewrite length_take; nia).
        rewrite lookup_replicate_2; [done|]. rewrite length_take. nia.
      * apply lookup_replicate_None. lia.
Qed.

(** The data pass gives the [j]-th available drive the [j]-th run of
    [chunks_per_drive] chunks of that stream. *)
Lemma write_drives_content (cfg : config) (data : bytes) (N cpd L : nat) :
  N * chunk_size cfg ≤ length data →
  ∀ (available : list nat) (st : state) (k : nat),
    NoDup available →
    Forall (fun d => d < length (disk st)) available →
    (k + length available) * cpd * chunk_size cfg ≤ N * chunk_size cfg + L →
    ∃ st',
      write_drives cfg data N cpd available st (Nat.min (k * cpd) N) = Some st' ∧
      unchanged_outside available st st' ∧
      ∀ j d, available !! j = Some d →
        content st' d
        = ljust (read_at (take (N * chunk_size cfg) data ++ replicate L 0%Z)
                         ((k + j) * cpd * chunk_size cfg) (cpd * chunk_size cfg))
                (drive_size cfg).
Proof.
  intros Hdata. induction available as [|d rest IH]; intros st k Hnd Hvalid Hfit.
  - exists st. split; [done|]. split; [apply unchanged_refl|]. intros j d Hj.
    by rewrite lookup_nil in Hj.
  - apply NoDup_cons in Hnd as [Hd_rest Hnd].
    inversion Hvalid as [|? ? Hd Hrest]; subst. cbn [length] in Hfit.
    cbn [write_drives].
    rewrite (fill_drive_stream cfg data N L Hdata cpd (k * cpd) []) by nia.
    rewrite app_nil_l, write_wb_Some by done. cbn [mbind option_bind].
    set (img := ljust (read_at _ (k * cpd * chunk_size cfg) (cpd * chunk_size cfg))
                      (drive_size cfg)).
    set (st1 := set_disk st (<[d := img]> (disk st))).
    replace (k * cpd + cpd) with (S k * cpd) by lia.
    destruct (IH st1 (S k) Hnd) as (st' & Hrun & Hun & Hcont).
    { simpl. by rewrite length_insert. }
    { nia. }
    exists st'. split; [done|]. split.
    + apply (unchanged_trans [d] rest st st1 st'); [|done]. apply unchanged_set_disk.
    + intros j d' Hj. destruct j as [|j]; simpl in Hj.
      * injection Hj as <-. rewrite (unchanged_content rest st1 st') by done.
        unfold st1. rewrite content_set_disk_eq by done. unfold img.
        by rewrite Nat.add_0_r.
      * rewrite (Hcont j d' Hj). do 2 f_equal. lia.
Qed.

Lemma global_parity_pass_written (cfg : config) (cpd : nat) (data_drives : list nat)
    (dbs : list dbox) :
  NoDup (map d_global_parity_drive dbs) →
  Forall (fun p => p ∉ data_drives) (map d_global_parity_drive dbs) →
  Forall (fun db => Forall (fun d => d ∈ data_drives) (d_data_drives db)) dbs →
  ∀ st : state,
    drives_exist st data_drives →
    holds_chunks cfg st data_drives cpd →
    Forall (fun p => p < length (disk st)) (map d_global_parity_drive dbs) →
    ∃ st',
      for_each (fun s db => _calculate_global_parity_dbox cfg s db cpd) dbs st
      = Some st' ∧
      unchanged_outside (map d_global_parity_drive dbs) st st' ∧
      ∀ db, db ∈ dbs →
            content st' (d_global_parity_drive db)
            = parity_image cfg st weighted (online_drives st (d_data_drives db)) cpd.
Proof.
  induction dbs as [|db dbs IH]; intros Hnd Hdisj Hsub st Hex Hhold Hvalid.
  - exists st. split; [done|]. split; [apply unchanged_refl|].
    intros db Hdb. inversion Hdb.
  - inversion Hsub as [|? ? Hg Hgs]; subst.
    assert (drives_exist st (d_data_drives db)) as Hexg.
    { unfold drives_exist in *. rewrite Forall_forall in *. auto. }
    assert (holds_chunks cfg st (d_data_drives db) cpd) as Hholdg.
    { unfold holds_chunks in *. rewrite Forall_forall in *. auto. }
    cbn [map] in *.
    inversion Hnd as [|? ? Hpnotin Hnd']; subst.
    inversion Hdisj as [|? ? Hpdata Hdisj']; subst.
    inversion Hvalid as [|? ? Hplt Hvalid']; subst.
    cbn [for_each]. rewrite (global_parity_written cfg st db cpd) by done.
    cbn [mbind option_bind].
    set (p := d_global_parity_drive db) in *.
    set (img := parity_image cfg st weighted (online_drives st (d_data_drives db)) cpd).
    set (st1 := set_disk st (<[p := img]> (disk st))).
    pose proof (unchanged_set_disk st p img) as Hun1. fold st1 in Hun1.
    assert (Forall (fun d => d ∉ [p]) data_drives) as Hout.
    { apply Forall_forall. intros d Hd Hin.
      apply list_elem_of_singleton in Hin as ->. done. }
    destruct (IH Hnd' Hdisj' Hgs st1) as (st' & Hrun & Hun & Himg).
    { by eapply unchanged_drives_exist. }
    { by eapply unchanged_holds_chunks. }
    { simpl. by rewrite length_insert. }
    exists st'. split; [done|]. split.
    + by apply (unchanged_trans [p] _ st st1 st').
    + intros db' Hdb'.
      destruct (decide (d_global_parity_drive db' = p)) as [Heq|Hne].
      * destruct (decide (db' ∈ dbs)) as [Hin|Hnin].
        { exfalso. apply Hpnotin. rewrite <- Heq. by apply list_elem_of_fmap_2. }
        apply elem_of_cons in Hdb' as [->|?]; [|done].
        fold p. rewrite (unchanged_content _ st1 st') by done.
        unfold st1. by rewrite content_set_disk_eq.
      * apply elem_of_cons in Hdb' as [->|Hin]; [done|].
        rewrite (Himg db' Hin).
        symmetry. apply parity_image_agree.
        eapply unchanged_agree_online; [exact Hun1|].
        rewrite Forall_forall in Hgs. specialize (Hgs db' Hin).
        rewrite Forall_forall in Hgs, Hout |- *. auto.
Qed.

Lemma write_list_content (data : bytes) (drives : list nat) :
  ∀ st : state,
    Forall (fun d => d < length (disk st)) drives →
    ∃ st', for_each (fun s d => write_wb s d data) drives st = Some st' ∧
           unchanged_outside drives st st' ∧
           ∀ d, d ∈ drives → content st' d = data.
Proof.
  induction drives as [|d drives IH]; intros st H; simpl.
  - exists st. split; [done|]. split; [apply unchanged_refl|].
    intros d Hd. inversion Hd.
  - inversion H as [|? ? Hd Hrest]; subst.
    rewrite write_wb_Some by done. simpl.
    set (st1 := set_disk st (<[d := data]> (disk st))).
    destruct (IH st1) as (st' & Hrun & Hun & Hcont).
    { simpl. by rewrite length_insert. }
    exists st'. split; [done|]. split.
    + eapply (unchanged_trans [d]); [apply unchanged_set_disk | done].
    + intros d' Hd'. destruct (decide (d' ∈ drives)) as [Hin|Hnin]; [by apply Hcont|].
      apply elem_of_cons in Hd' as [->|?]; [|done].
      rewrite (unchanged_content drives st1 st') by done.
      unfold st1. by rewrite content_set_disk_eq.
Qed.

Lemma wf_layout_roles (cfg : config) :
  wf_layout cfg →
  NoDup (get_all_data_drives cfg) ∧
  NoDup (global_parity_drives cfg) ∧
  (∀ p, p ∈ global_parity_drives cfg → p ∉ spare_drives cfg).
Proof.
  intros [Hnd _]. unfold all_roles in Hnd.
  apply NoDup_app in Hnd as (Hd & _ & Hnd).
  apply NoDup_app in Hnd as (_ & _ & Hnd).
  apply NoDup_app in Hnd as (Hgp & Hgpout & _).
  done.
Qed.

Lemma ceil_div_covers (N n : nat) : 0 < n → N ≤ n * chunks_per_drive_of N n.
Proof.
  intros Hn. unfold chunks_per_drive_of.
  pose proof (Nat.div_mod_eq (N + n - 1) n) as Hdm.
  pose proof (Nat.mod_upper_bound (N + n - 1) n) as Hub. lia.
Qed.

(** What a Normal-mode write leaves: the data runs on the online data
    drives, the two parities of what they then hold, zeros on the spares,
    and every other file as it was. *)
Lemma normal_write_full (cfg : config) (st : state) (data : bytes) :
  wf_layout cfg →
  drives_exist st (all_roles cfg) →
  chunk_size cfg ≠ 0 →
  online_drives st (get_all_data_drives cfg) ≠ [] →
  let av := online_drives st (get_all_data_drives cfg) in
  let N := length data / chunk_size cfg in
  let cpd := chunks_per_drive_of N (length av) in
  ∃ st',
    _write_data_normal_mode cfg st data
    = Some ((true, WroteNormal (length data) (length av)), st') ∧
    unchanged_outside (av ++ local_parity_drives cfg
                          ++ global_parity_drives cfg ++ spare_drives cfg) st st' ∧
    holds_chunks cfg st' (get_all_data_drives cfg) cpd ∧
    (∀ j d, av !! j = Some d →
       content st' d
       = ljust (read_at (ljust (take (N * chunk_size cfg) data)
                               (length av * cpd * chunk_size cfg))
                        (j * cpd * chunk_size cfg) (cpd * chunk_size cfg))
               (drive_size cfg)) ∧
    (∀ g p, g ∈ all_groups cfg → g_parity_drive g = Some p →
       content st' p
       = parity_image cfg st' plain (online_drives st' (g_data_drives g)) cpd) ∧
    (∀ db, db ∈ dboxes cfg →
       content st' (d_global_parity_drive db)
       = parity_image cfg st' weighted (online_drives st' (d_data_drives db)) cpd) ∧
    (∀ s, s ∈ spare_drives cfg → content st' s = replicate (drive_size cfg) 0%Z).
Proof.
  intros Hwf Hex Hcs Hav av N cpd.
  destruct (wf_layout_parts cfg Hwf) as (Hndlp & Hdataout & Hlpout).
  destruct (wf_layout_roles cfg Hwf) as (Hnddata & Hndgp & Hgpout).
  destruct Hwf as [_ Hsub].
  destruct (roles_exist cfg st Hex) as (Hexd & Hexl & Hexg & Hexs).
  unfold _write_data_normal_mode.
  rewrite bool_decide_eq_false_2 by done.
  rewrite online_of_online_drives
    by (eapply Forall_impl; [exact Hexd|]; by intros ? [? ?]).
  simpl. rewrite bool_decide_eq_false_2 by (by rewrite length_0_nil).
  fold av. fold N. fold cpd.
  assert (N * chunk_size cfg ≤ length data) as HN.
  { unfold N. rewrite Nat.mul_comm. apply Nat.Div0.mul_div_le. }
  assert (0 < length av) as Havpos.
  { unfold av. destruct (online_drives st (get_all_data_drives cfg));
      [done | simpl; lia]. }
  pose proof (ceil_div_covers N (length av) Havpos) as Hceil. fold cpd in Hceil.
  set (L := length av * cpd * chunk_size cfg - N * chunk_size cfg).
  destruct (write_drives_content cfg data N cpd L HN av st 0)
    as (st1 & Hrun1 & Hun1 & Hcont1).
  { by apply NoDup_filter. }
  { apply Forall_forall. intros d Hd. apply list_elem_of_filter in Hd as [_ Hd].
    unfold drives_exist in Hexd. rewrite Forall_forall in Hexd.
    by apply Hexd. }
  { unfold L. nia. }
  replace (Nat.min (0 * cpd) N) with 0 in Hrun1 by lia. rewrite Hrun1.
  cbn [mbind option_bind].
  assert (take (N * chunk_size cfg) data ++ replicate L 0%Z
          = ljust (take (N * chunk_size cfg) data)
                  (length av * cpd * chunk_size cfg)) as Hstream.
  { unfold ljust, L. by rewrite length_take, Nat.min_l by done. }
  assert (∀ d, d ∈ av → cpd * chunk_size cfg ≤ length (content st1 d)) as Hlen1.
  { intros d Hd. apply list_elem_of_lookup in Hd as [j Hj].
    rewrite (Hcont1 j d Hj), length_ljust. unfold read_at.
    rewrite length_take, length_drop, length_app, length_take, length_replicate.
    apply lookup_lt_Some in Hj. fold av in Hj. unfold L. nia. }
  assert (holds_chunks cfg st1 (get_all_data_drives cfg) cpd) as Hhold1.
  { apply Forall_forall. intros d Hd Hon. apply Hlen1.
    apply list_elem_of_filter. split; [|done].
    by rewrite <- (unchanged_online av st st1). }
  assert (Forall (fun d => d ∉ local_parity_drives cfg
                             ++ global_parity_drives cfg ++ spare_drives cfg)
                 (get_all_data_drives cfg)) as Hdout.
  { apply Forall_forall. exact Hdataout. }
  unfold local_parity_pass. rewrite for_each_nested. fold (all_groups cfg).
  destruct (local_parity_pass_written cfg cpd (get_all_data_drives cfg)
              (all_groups cfg)) with (st := st1) as (st2 & -> & Hun2 & Himg2).
  { done. }
  { apply Forall_forall. intros p Hp Hd. apply (Hdataout p Hd).
    apply elem_of_app. by left. }
  { done. }
  { by eapply unchanged_drives_exist. }
  { done. }
  { destruct Hun1 as (_ & -> & _). done. }
  cbn [mbind option_bind]. unfold global_parity_pass.
  assert (length (disk st2) = length (disk st)) as Hlen2.
  { destruct Hun1 as (_ & <- & _). by destruct Hun2 as (_ & -> & _). }
  assert (drives_exist st2 (get_all_data_drives cfg)) as Hexd2.
  { eapply unchanged_drives_exist; [exact Hun2|].
    by eapply unchanged_drives_exist. }
  assert (holds_chunks cfg st2 (get_all_data_drives cfg) cpd) as Hhold2.
  { eapply unchanged_holds_chunks; [exact Hun2 | | exact Hhold1].
    apply Forall_forall. intros d Hd Hin. apply (Hdataout d Hd).
    apply elem_of_app. by left. }
  destruct (global_parity_pass_written cfg cpd (get_all_data_drives cfg)
              (dboxes cfg)) with (st := st2) as (st3 & -> & Hun3 & Himg3).
  { done. }
  { apply Forall_forall. intros p Hp Hd. apply (Hdataout p Hd).
    apply elem_of_app. right. apply elem_of_app. by left. }
  { apply Forall_forall. intros db Hdb. apply Forall_forall. intros d Hd.
    by eapply elem_of_concat_map. }
  { done. }
  { done. }
  { by rewrite Hlen2. }
  cbn [mbind option_bind]. unfold clear_spares. rewrite for_each_nested.
  fold (spare_drives cfg). fold (global_parity_drives cfg) in Hun3.
  destruct (write_list_content (replicate (drive_size cfg) 0%Z) (spare_drives cfg) st3)
    as (st4 & -> & Hun4 & Hcont4).
  { destruct Hun3 as (_ & -> & _). by rewrite Hlen2. }
  cbn [mbind option_bind]. exists st4. split; [done|].
  pose proof (unchanged_trans _ _ _ _ _ Hun3 Hun4) as Hun34.
  pose proof (unchanged_trans _ _ _ _ _ Hun2 Hun34) as Hun24.
  pose proof (unchanged_trans _ _ _ _ _ Hun1 Hun24) as Hun14.
  split; [exact Hun14|].
  split; [eapply unchanged_holds_chunks; [exact Hun24 | exact Hdout | exact Hhold1]|].
  split; [|split; [|split]].
  - intros j d Hj. rewrite <- Hstream.
    assert (d ∈ get_all_data_drives cfg) as Hd.
    { apply list_elem_of_lookup_2 in Hj. by apply list_elem_of_filter in Hj as [_ ?]. }
    rewrite (unchanged_content _ st1 st4 d Hun24) by by apply Hdataout.
    by rewrite (Hcont1 j d Hj).
  - intros g p Hg Hp.
    assert (p ∈ local_parity_drives cfg) as Hplp.
    { apply list_elem_of_omap. by exists g. }
    rewrite (unchanged_content _ st2 st4 p Hun34) by by apply Hlpout.
    rewrite (Himg2 g p Hg Hp).
    apply parity_image_agree.
    eapply unchanged_agree_online; [exact Hun24|].
    rewrite Forall_forall in Hsub. specialize (Hsub g Hg).
    rewrite Forall_forall in Hsub, Hdout |- *. auto.
  - intros db Hdb.
    assert (d_global_parity_drive db ∈ global_parity_drives cfg) as Hgp.
    { by apply list_elem_of_fmap_2. }
    rewrite (unchanged_content _ st3 st4 _ Hun4) by by apply Hgpout.
    rewrite (Himg3 db Hdb).
    apply parity_image_agree.
    eapply unchanged_agree_online; [exact Hun34|].
    apply Forall_forall. intros d Hd Hin.
    apply (Hdataout d); [by eapply elem_of_concat_map|].
    apply elem_of_app. by right.
  - exact Hcont4.
Qed.

Lemma padded_size_ge (cfg : config) (n : nat) :
  chunk_size cfg ≠ 0 → n ≤ padded_size cfg n.
Proof.
  intros Hcs. unfold padded_size.
  pose proof (Nat.div_mod_eq (n + chunk_size cfg - 1) (chunk_size cfg)) as Hdm.
  pose proof (Nat.mod_upper_bound (n + chunk_size cfg - 1) (chunk_size cfg) Hcs).
  lia.
Qed.

Lemma padded_size_chunks (cfg : config) (n : nat) :
  chunk_size cfg ≠ 0 →
  padded_size cfg n / chunk_size cfg * chunk_size cfg = padded_size cfg n.
Proof. intros Hcs. unfold padded_size. by rewrite Nat.div_mul. Qed.

Lemma ljust_ljust (c : bytes) (a b : nat) :
  length c ≤ a → a ≤ b → ljust (ljust c a) b = ljust c b.
Proof.
  intros Ha Hb. unfold ljust. rewrite length_app, length_replicate, <- app_assoc.
  f_equal. rewrite <- replicate_add. f_equal. lia.
Qed.

(** A successful Normal-mode [write_files] is a successful
    [_write_data_normal_mode] on the padded buffer. *)
Lemma write_files_normal_inv (cfg : config) (st st' : state)
    (files : list input_file) (nbytes ndrives : nat) :
  ha_mode st = false →
  write_files cfg st files = Some ((true, WroteNormal nbytes ndrives), st') →
  ∃ combined name,
    combine_files files [] = Some combined ∧
    chunk_size cfg ≠ 0 ∧
    0 < length files ∧
    _write_data_normal_mode cfg (set_stored st combined name)
      (ljust combined (padded_size cfg (length combined)))
    = Some ((true, WroteNormal nbytes ndrives), st').
Proof.
  intros Hha Hw. unfold write_files in Hw. destruct files as [|f fs]; [done|].
  destruct (combine_files (f :: fs) []) as [combined|] eqn:Hc;
    cbn -[get_storage_stats set_stored] in Hw; [|done].
  case_bool_decide; [done|]. case_bool_decide as Hcs; [done|].
  cbn -[set_stored] in Hw. rewrite ha_mode_set_stored, Hha in Hw.
  eexists combined, _. repeat split; [done | simpl; lia | exact Hw].
Qed.

(** The same, with what the write leaves spelled out. *)
Lemma normal_write_files_full (cfg : config) (st st' : state)
    (files : list input_file) (nbytes ndrives : nat) :
  wf_layout cfg →
  drives_exist st (all_roles cfg) →
  ha_mode st = false →
  write_files cfg st files = Some ((true, WroteNormal nbytes ndrives), st') →
  let av := online_drives st (get_all_data_drives cfg) in
  let cpd := chunks_per_drive_of (nbytes / chunk_size cfg) ndrives in
  ∃ combined,
    combine_files files [] = Some combined ∧
    chunk_size cfg ≠ 0 ∧
    0 < length combined ∧
    nbytes = padded_size cfg (length combined) ∧
    ndrives = length av ∧
    0 < ndrives ∧
    unchanged_outside (av ++ local_parity_drives cfg
                          ++ global_parity_drives cfg ++ spare_drives cfg) st st' ∧
    holds_chunks cfg st' (get_all_data_drives cfg) cpd ∧
    (∀ j d, av !! j = Some d →
       content st' d
       = ljust (read_at (ljust combined (ndrives * cpd * chunk_size cfg))
                        (j * cpd * chunk_size cfg) (cpd * chunk_size cfg))
               (drive_size cfg)) ∧
    (∀ g p, g ∈ all_groups cfg → g_parity_drive g = Some p →
       content st' p
       = parity_image cfg st' plain (online_drives st' (g_data_drives g)) cpd) ∧
    (∀ db, db ∈ dboxes cfg →
       content st' (d_global_parity_drive db)
       = parity_image cfg st' weighted (online_drives st' (d_data_drives db)) cpd) ∧
    (∀ s, s ∈ spare_drives cfg → content st' s = replicate (drive_size cfg) 0%Z).
Proof.
  intros Hwf Hex Hha Hw av cpd.
  destruct (write_files_normal_inv cfg st st' files nbytes ndrives Hha Hw)
    as (combined & name & Hc & Hcs & Hfiles & Hrun).
  set (st0 := set_stored st combined name) in *.
  set (data := ljust combined (padded_size cfg (length combined))) in *.
  assert (drives_exist st0 (all_roles cfg)) as Hex0 by done.
  destruct (decide (online_drives st0 (get_all_data_drives cfg) = [])) as [Hnone|Hav].
  { rewrite normal_write_no_drives in Hrun; [done | | done | done].
    by destruct (roles_exist cfg st0 Hex0). }
  destruct (normal_write_full cfg st0 data Hwf Hex0 Hcs Hav)
    as (st1 & Hrun1 & Hun & Hhold & Hdata & Hlp & Hgp & Hsp).
  rewrite Hrun1 in Hrun. injection Hrun as <- <- <-.
  pose proof (padded_size_ge cfg (length combined) Hcs) as Hge.
  assert (length data = padded_size cfg (length combined)) as Hlen.
  { unfold data. rewrite length_ljust. lia. }
  pose proof (combine_files_length files [] combined Hc) as Hclen. simpl in Hclen.
  change (online_drives st0 (get_all_data_drives cfg)) with av in *.
  assert (0 < length av) as Havpos.
  { unfold av. destruct (online_drives st (get_all_data_drives cfg));
      [done | simpl; lia]. }
  exists combined. split; [done|]. split; [done|]. split; [lia|].
  split; [done|]. split; [done|]. split; [done|].
  split; [exact Hun|]. split; [exact Hhold|]. split; [|done].
  intros j d Hj. rewrite (Hdata j d Hj). do 2 f_equal.
  rewrite Hlen, padded_size_chunks by done.
  rewrite <- Hlen, firstn_all. unfold data. apply ljust_ljust; [done|].
  pose proof (ceil_div_covers (length data / chunk_size cfg) (length av) Havpos) as Hceil.
  unfold cpd. rewrite Hlen in Hceil |- *.
  pose proof (padded_size_chunks cfg (length combined) Hcs). nia.
Qed.

Lemma length_read_at (c : bytes) (off n : nat) :
  off + n ≤ length c → length (read_at c off n) = n.
Proof. intros H. unfold read_at. rewrite length_take, length_drop. lia. Qed.

Lemma take_ljust (x : bytes) (n m : nat) : length x = n → take n (ljust x m) = x.
Proof. intros <-. unfold ljust. by rewrite take_app_length. Qed.

(** X1: a Normal-mode write cuts the packed input, padded with zeros, into
    consecutive runs of [chunks_per_drive] chunks and gives the [j]-th run
    to the [j]-th online data drive; reading the first run of every one of
    these drives, in drive order, gives the packed input back. *)
Theorem normal_write_reads_back
    (cfg : config) (st st' : state) (files : list input_file)
    (nbytes ndrives : nat) :
  wf_layout cfg →
  drives_exist st (all_roles cfg) →
  ha_mode st = false →
  write_files cfg st files = Some ((true, WroteNormal nbytes ndrives), st') →
  ∃ combined,
    combine_files files [] = Some combined ∧
    let run := chunks_per_drive_of (nbytes / chunk_size cfg) ndrives
               * chunk_size cfg in
    (∀ j d, online_drives st (get_all_data_drives cfg) !! j = Some d →
       content st' d
       = ljust (read_at (ljust combined (ndrives * run)) (j * run) run)
               (drive_size cfg)) ∧
    concat (map (fun d => take run (content st' d))
                (online_drives st (get_all_data_drives cfg)))
    = ljust combined (ndrives * run).
Proof.
  intros Hwf Hex Hha Hw.
  destruct (normal_write_files_full cfg st st' files nbytes ndrives Hwf Hex Hha Hw)
    as (combined & Hc & Hcs & Hpos & Hnb & Hnd & Hndpos & _ & _ & Hdata & _).
  exists combined. split; [done|].
  set (cpd := chunks_per_drive_of (nbytes / chunk_size cfg) ndrives) in *.
  set (av := online_drives st (get_all_data_drives cfg)) in *.
  cbv zeta. set (run := cpd * chunk_size cfg).
  set (P := ljust combined (ndrives * run)).
  assert (∀ j d, av !! j = Some d →
            content st' d = ljust (read_at P (j * run) run) (drive_size cfg)) as Hrunj.
  { intros j d Hj. rewrite (Hdata j d Hj). unfold P, run.
    by rewrite !Nat.mul_assoc. }
  split; [exact Hrunj|].
  assert (length P = ndrives * run) as HP.
  { unfold P. rewrite length_ljust.
    pose proof (ceil_div_covers (nbytes / chunk_size cfg) ndrives Hndpos) as Hceil.
    fold cpd in Hceil.
    pose proof (padded_size_ge cfg (length combined) Hcs).
    pose proof (padded_size_chunks cfg (length combined) Hcs).
    unfold run. rewrite <- Hnb in *. nia. }
  rewrite <- (concat_chunks run ndrives P HP). f_equal.
  apply list_eq. intros j. rewrite !list_lookup_fmap.
  destruct (decide (j < ndrives)) as [Hj|Hj].
  - rewrite lookup_seq_lt by done. simpl.
    destruct (lookup_lt_is_Some_2 av j) as [d Hd]; [by rewrite <- Hnd|].
    rewrite Hd. simpl. f_equal. rewrite (Hrunj j d Hd).
    apply take_ljust. apply length_read_at. rewrite HP. nia.
  - rewrite lookup_seq_ge by lia. rewrite lookup_ge_None_2; [done|].
    rewrite <- Hnd. lia.
Qed.

Lemma normal_write_reads_back_witness :
  ∃ combined,
    combine_files [sample_file] [] = Some combined ∧
    let run := chunks_per_drive_of (22 / chunk_size tiny_pool) 4
               * chunk_size tiny_pool in
    (∀ j d, online_drives (initialize_drives tiny_pool)
                          (get_all_data_drives tiny_pool) !! j = Some d →
       content tiny_written d
       = ljust (read_at (ljust combined (4 * run)) (j * run) run)
               (drive_size tiny_pool)) ∧
    concat (map (fun d => take run (content tiny_written d))
                (online_drives (initialize_drives tiny_pool)
                               (get_all_data_drives tiny_pool)))
    = ljust combined (4 * run).
Proof.
  apply (normal_write_reads_back tiny_pool (initialize_drives tiny_pool)
           tiny_written [sample_file] 22 4).
  - by_compute.
  - by_compute.
  - reflexivity.
  - vm_compute. reflexivity.
Defined.

(** X2: a Normal-mode write changes no drive status and no file other than
    those of the online data drives, the parity drives and the spares: an
    offline data drive keeps what it held, and so does any drive outside the
    layout.  Every spare, online or not, ends as [drive_size] zero bytes. *)
Theorem normal_write_touches_only_its_targets
    (cfg : config) (st st' : state) (files : list input_file)
    (nbytes ndrives : nat) :
  wf_layout cfg →
  drives_exist st (all_roles cfg) →
  ha_mode st = false →
  write_files cfg st files = Some ((true, WroteNormal nbytes ndrives), st') →
  drive_status st' = drive_status st ∧
  length (disk st') = length (disk st) ∧
  ndrives = length (online_drives st (get_all_data_drives cfg)) ∧
  (∀ d, d ∈ get_all_data_drives cfg → is_online st d = false →
        content st' d = content st d) ∧
  (∀ d, d ∉ all_roles cfg → disk st' !! d = disk st !! d) ∧
  (∀ s, s ∈ spare_drives cfg → content st' s = replicate (drive_size cfg) 0%Z).
Proof.
  intros Hwf Hex Hha Hw.
  destruct (normal_write_files_full cfg st st' files nbytes ndrives Hwf Hex Hha Hw)
    as (combined & _ & _ & _ & _ & Hnd & _ & Hun & _ & _ & _ & _ & Hsp).
  destruct (wf_layout_parts cfg Hwf) as (_ & Hdataout & _).
  split; [by destruct Hun as (? & _)|]. split; [by destruct Hun as (_ & ? & _)|].
  split; [done|]. split; [|split; [|done]].
  - intros d Hd Hoff. apply (unchanged_content _ st st' d Hun).
    intros Hin. apply elem_of_app in Hin as [Hin|Hin].
    + apply list_elem_of_filter in Hin as [Hon _]. rewrite Hoff in Hon. done.
    + by apply (Hdataout d Hd).
  - intros d Hd. destruct Hun as (_ & _ & Hun). apply Hun.
    intros Hin. apply Hd. unfold all_roles.
    apply elem_of_app in Hin as [Hin|Hin]; [|by apply elem_of_app; right].
    apply list_elem_of_filter in Hin as [_ Hin]. apply elem_of_app. by left.
Qed.

Lemma length_parity_chunk_online_tr (cfg : config) (st : state)
    (tr : nat → bytes → bytes) (drives : list nat) (n j : nat) :
  (∀ d c, length (tr d c) = length c) →
  holds_chunks cfg st drives n → j < n →
  length (parity_chunk_of cfg st tr (online_drives st drives) j) = chunk_size cfg.
Proof.
  intros Htr Hhold Hj. unfold parity_chunk_of. apply length_xor_fold.
  apply Forall_map. apply Forall_forall. intros d Hd. simpl. rewrite Htr.
  apply list_elem_of_filter in Hd as [Hon Hin].
  unfold holds_chunks in Hhold. rewrite Forall_forall in Hhold.
  eapply chunk_full; eauto.
Qed.

(** X3: after a completed Normal-mode write, chunk [i] of the global-parity
    drive of every domain is the XOR of the weighted chunks [i] of the
    online data drives of that domain, for every chunk index the pass
    wrote. *)
Theorem normal_write_keeps_global_parity
    (cfg : config) (st st' : state) (files : list input_file)
    (nbytes ndrives : nat) :
  wf_layout cfg →
  drives_exist st (all_roles cfg) →
  ha_mode st = false →
  write_files cfg st files = Some ((true, WroteNormal nbytes ndrives), st') →
  ∀ (db : dbox) (i : nat),
    db ∈ dboxes cfg →
    i < chunks_per_drive_of (nbytes / chunk_size cfg) ndrives →
    chunk cfg st' (d_global_parity_drive db) i
    = xor_fold (chunk_size cfg)
        (map (fun d => weighted d (chunk cfg st' d i))
             (online_drives st' (d_data_drives db))).
Proof.
  intros Hwf Hex Hha Hw db i Hdb Hi.
  destruct (normal_write_files_full cfg st st' files nbytes ndrives Hwf Hex Hha Hw)
    as (combined & _ & _ & _ & _ & _ & _ & _ & Hhold & _ & _ & Hgp & _).
  unfold chunk at 1. rewrite (Hgp db Hdb).
  rewrite read_parity_image; [done | | done].
  intros j Hj. eapply length_parity_chunk_online_tr;
    [apply length_weighted | | exact Hj].
  eapply holds_chunks_subset; [|exact Hhold].
  apply Forall_forall. intros d Hd. by eapply elem_of_concat_map.
Qed.

Lemma normal_write_keeps_global_parity_witness :
  chunk tiny_pool tiny_written 6 1
  = xor_fold (chunk_size tiny_pool)
      (map (fun d => weighted d (chunk tiny_pool tiny_written d 1))
           (online_drives tiny_written (d_data_drives tiny_dbox))).
Proof.
  apply (normal_write_keeps_global_parity
           tiny_pool (initialize_drives tiny_pool) tiny_written
           [sample_file] 22 4) with (db := tiny_dbox).
  - by_compute.
  - by_compute.
  - reflexivity.
  - vm_compute. reflexivity.
  - apply list_elem_of_lookup. by exists 0.
  - vm_compute. lia.
Defined.

(** *** A rebuild after a write *)

(** If the parity drive of a group holds the XOR of all its data drives,
    a rebuild of one of them, the others being online, writes back what it
    held. *)
Lemma rebuild_recovers
    (cfg : config) (st0 : state) (failed : nat)
    (db : dbox) (g : group) (p : nat) (junk : bytes) (bring_online : bool) :
  rebuild_route cfg failed db g p →
  NoDup (g_data_drives g) →
  p < length (disk st0) →
  drives_exist st0 (g_data_drives g) →
  chunk_size cfg ≠ 0 →
  chunk_size cfg ≤ drive_size cfg →
  length (content st0 failed)
    = drive_size cfg / chunk_size cfg * chunk_size cfg →
  whole_files cfg st0 (p :: g_data_drives g) →
  parity_consistent cfg st0 g p →
  Forall (fun d => d ≠ failed → is_online st0 d) (g_data_drives g) →
  ∃ drives_read notes st',
    rebuild_drives cfg (failed_state st0 failed junk) [failed] bring_online
    = Some (drives_read, notes, st') ∧
    content st' failed = content st0 failed.
Proof.
  intros Hroute Hnd Hplt Hex Hcs Hle Hflen Hwhole Hpar Hothers.
  destruct (rebuild_route_member cfg failed db g p Hroute) as [Hin Hne].
  set (n := drive_size cfg / chunk_size cfg) in *.
  set (st := failed_state st0 failed junk).
  inversion Hwhole as [|? ? Hplen Hdlen]; subst.
  unfold drives_exist in Hex. rewrite Forall_forall in Hex, Hdlen, Hothers.
  destruct (Hex failed Hin) as [Hfs Hfd].
  assert (∀ d, d ≠ failed → is_online st d = is_online st0 d) as Hon.
  { intros d Hd. unfold is_online, st, failed_state, toggle. simpl.
    by rewrite list_lookup_insert_ne. }
  assert (∀ d, d ≠ failed → content st d = content st0 d) as Hcont.
  { intros d Hd. unfold content, st, failed_state. simpl.
    by rewrite list_lookup_insert_ne. }
  assert (drive_status st !! failed = Some false) as Hoff.
  { unfold st, failed_state, toggle. simpl. by apply list_lookup_insert_eq. }
  assert (length (disk st) = length (disk st0)) as Hdl.
  { unfold st, failed_state. simpl. by rewrite length_insert. }
  assert (length (drive_status st) = length (drive_status st0)) as Hsl.
  { unfold st, failed_state, toggle. simpl. by rewrite length_insert. }
  destruct (rebuild_one_data_drive cfg st failed db g p bring_online)
    as (notes & st' & Hrun & Hc); try done.
  { by rewrite Hdl. }
  { by rewrite Hdl. }
  { apply Forall_forall. intros d Hd. rewrite Hsl, Hdl. by apply Hex. }
  { apply Forall_forall. intros d Hd Hd_on.
    destruct (decide (d = failed)) as [->|Hdne].
    - unfold is_online in Hd_on. rewrite Hoff in Hd_on. done.
    - rewrite Hcont by done. by apply Hdlen. }
  { by rewrite Hcont. }
  eexists _, notes, st'. split; [exact Hrun|]. rewrite Hc. fold n.
  rewrite <- (concat_chunks (chunk_size cfg) n (content st0 failed)) by done.
  f_equal. apply map_ext_in. intros i Hi. apply in_seq in Hi.
  unfold rebuilt_chunk.
  assert (peers st failed (g_data_drives g)
          = filter (fun d => d ≠ failed) (g_data_drives g)) as ->.
  { unfold peers. apply filter_ext_in. intros d Hd. split; [by intros [? _]|].
    intros Hdne. split; [done|]. rewrite Hon by done. by apply Hothers. }
  assert (chunk cfg st p i
          = xor_fold (chunk_size cfg)
              (map (fun d => chunk cfg st0 d i) (g_data_drives g))) as ->.
  { unfold parity_consistent in Hpar. rewrite Forall_forall in Hpar.
    rewrite <- (Hpar i) by (apply elem_of_seq; fold n; lia).
    unfold chunk. by rewrite Hcont. }
  assert (map (fun d => chunk cfg st d i)
              (filter (fun d => d ≠ failed) (g_data_drives g))
          = map (fun d => chunk cfg st0 d i)
                (filter (fun d => d ≠ failed) (g_data_drives g))) as ->.
  { apply map_ext_in. intros d Hd.
    apply list_elem_of_In, list_elem_of_filter in Hd as [Hdne _].
    unfold chunk. by rewrite Hcont. }
  apply (xor_recover (chunk_size cfg) (fun d => chunk cfg st0 d i)); [done..|].
  apply Forall_forall. intros d Hd.
  eapply (chunk_full cfg st0 d i n); [lia|]. by apply Hdlen.
Qed.

Lemma read_at_ljust_pad (x : bytes) (m off n : nat) :
  length x ≤ off → off + n ≤ m → read_at (ljust x m) off n = replicate n 0%Z.
Proof.
  intros Hx Hfit. apply list_eq. intros i. rewrite lookup_read_at.
  destruct (decide (i < n)) as [Hi|Hi].
  - rewrite lookup_replicate_2 by done. unfold ljust.
    rewrite lookup_app_r by lia. apply lookup_replicate_2. lia.
  - symmetry. apply lookup_replicate_None. lia.
Qed.

Lemma xor_fold_zeros (n : nat) (l : list nat) :
  xor_fold n (map (fun _ => replicate n 0%Z) l) = replicate n 0%Z.
Proof.
  unfold xor_fold. induction l as [|d l IH]; simpl; [done|].
  rewrite <- (length_replicate n 0%Z) at 1.
  rewrite xor_bytes_zero_l. exact IH.
Qed.

Lemma div_mul_exact (a b : nat) : a mod b = 0 → a / b * b = a.
Proof. intros H. pose proof (Nat.div_mod_eq a b). lia. Qed.

Lemma length_concat_rows (f : nat → bytes) (cs : nat) : ∀ (n a : nat),
  (∀ j, a ≤ j < a + n → length (f j) = cs) →
  length (concat (map f (seq a n))) = n * cs.
Proof.
  induction n as [|n IH]; intros a Hf; simpl; [done|].
  rewrite length_app, Hf by lia. rewrite IH; [lia|].
  intros j Hj. apply Hf. lia.
Qed.

(** X4: write, lose a data drive, rebuild.  After a completed Normal-mode
    write whose runs fit the drives, if every data drive of a local group
    was online during the write and one of them then fails, whatever its
    file then holds, [rebuild_drives] writes back to it byte for byte what
    the write had left there. *)
Theorem write_then_rebuild_restores
    (cfg : config) (st st' : state) (files : list input_file)
    (nbytes ndrives : nat) (failed : nat) (db : dbox) (g : group) (p : nat)
    (junk : bytes) (bring_online : bool) :
  wf_layout cfg →
  drives_exist st (all_roles cfg) →
  ha_mode st = false →
  write_files cfg st files = Some ((true, WroteNormal nbytes ndrives), st') →
  rebuild_route cfg failed db g p →
  NoDup (g_data_drives g) →
  Forall (fun d => is_online st d) (g_data_drives g) →
  chunk_size cfg ≤ drive_size cfg →
  drive_size cfg mod chunk_size cfg = 0 →
  chunks_per_drive_of (nbytes / chunk_size cfg) ndrives * chunk_size cfg
    ≤ drive_size cfg →
  ∃ drives_read notes st'',
    rebuild_drives cfg (failed_state st' failed junk) [failed] bring_online
    = Some (drives_read, notes, st'') ∧
    content st'' failed = content st' failed.
Proof.
  intros Hwf Hex Hha Hw Hroute Hnodup Hon Hle Hmod Hfit.
  destruct (normal_write_files_full cfg st st' files nbytes ndrives Hwf Hex Hha Hw)
    as (combined & _ & Hcs & _ & Hnb & Hnd & Hndpos & Hun & Hhold & Hdata & Hlp & _).
  set (cpd := chunks_per_drive_of (nbytes / chunk_size cfg) ndrives) in *.
  set (av := online_drives st (get_all_data_drives cfg)) in *.
  set (cs := chunk_size cfg) in *.
  pose proof (div_mul_exact (drive_size cfg) cs Hmod) as Hn.
  set (n := drive_size cfg / cs) in *.
  pose proof Hroute as (_ & Hdb & _ & Hg & Hp & _).
  apply list_elem_of_lookup_2 in Hdb.
  apply first_group_Some in Hg as [_ Hg].
  pose proof (group_in_all_groups cfg db g Hdb Hg) as Hgall.
  destruct (roles_exist cfg st Hex) as (Hexd & Hexl & _ & _).
  pose proof Hwf as [_ Hsub]. rewrite Forall_forall in Hsub.
  specialize (Hsub g Hgall). rewrite Forall_forall in Hsub, Hon.
  assert (online_drives st' (g_data_drives g) = g_data_drives g) as Hall.
  { apply filter_all. apply Forall_forall. intros d Hd.
    rewrite (unchanged_online _ st st' d Hun). by apply Hon. }
  assert (holds_chunks cfg st' (g_data_drives g) cpd) as Hholdg.
  { eapply holds_chunks_subset; [|exact Hhold]. by apply Forall_forall. }
  assert (∀ d, d ∈ g_data_drives g →
            ∃ R, length R = cpd * cs ∧ content st' d = ljust R (drive_size cfg))
    as Hrun.
  { intros d Hd.
    assert (d ∈ av) as Hdav.
    { apply list_elem_of_filter. split; [by apply Hon | by apply Hsub]. }
    apply list_elem_of_lookup in Hdav as [j Hj].
    eexists. split; [|exact (Hdata j d Hj)].
    apply length_read_at. rewrite length_ljust.
    apply lookup_lt_Some in Hj. rewrite <- Hnd in Hj. nia. }
  assert (length (concat (map (parity_chunk_of cfg st' plain (g_data_drives g))
                              (seq 0 cpd))) = cpd * cs) as Hrows.
  { apply length_concat_rows. intros j Hj. rewrite <- Hall.
    apply length_parity_chunk_online with (n := cpd); [done | lia]. }
  assert (content st' p
          = ljust (concat (map (parity_chunk_of cfg st' plain (g_data_drives g))
                               (seq 0 cpd))) (drive_size cfg)) as Hpc.
  { rewrite (Hlp g p Hgall Hp), Hall. done. }
  apply (rebuild_recovers cfg st' failed db g p junk bring_online); try done.
  - destruct Hun as (_ & -> & _). rewrite Forall_forall in Hexl. apply Hexl.
    apply list_elem_of_omap. by exists g.
  - eapply unchanged_drives_exist; [exact Hun|].
    eapply drives_exist_subset; [|exact Hexd]. done.
  - destruct (rebuild_route_member cfg failed db g p Hroute) as [Hin _].
    destruct (Hrun failed Hin) as (R & HR & ->). rewrite length_ljust. fold n cs. lia.
  - constructor.
    + rewrite Hpc, length_ljust. fold n cs. lia.
    + apply Forall_forall. intros d Hd. destruct (Hrun d Hd) as (R & HR & ->).
      rewrite length_ljust. fold n cs. lia.
  - apply Forall_forall. intros i Hi. apply elem_of_seq in Hi. fold cs n in Hi.
    destruct (decide (i < cpd)) as [Hlt|Hge].
    + unfold chunk at 1. rewrite (Hlp g p Hgall Hp).
      rewrite read_parity_image; [by rewrite Hall | | done].
      intros j Hj. by apply length_parity_chunk_online with (n := cpd).
    + unfold chunk at 1. rewrite Hpc. fold cs.
      rewrite read_at_ljust_pad by nia.
      rewrite <- (xor_fold_zeros cs (g_data_drives g)). f_equal.
      apply map_ext_in. intros d Hd. apply list_elem_of_In in Hd.
      destruct (Hrun d Hd) as (R & HR & Hc). unfold chunk. rewrite Hc. fold cs.
      symmetry. apply read_at_ljust_pad; nia.
  - apply Forall_forall. intros d Hd _.
    rewrite (unchanged_online _ st st' d Hun). by apply Hon.
Qed.

Lemma write_then_rebuild_restores_witness :
  ∃ drives_read notes st'',
    rebuild_drives tiny_pool (failed_state tiny_written 2 [1; 2; 3]%Z) [2] false
    = Some (drives_read, notes, st'') ∧
    content st'' 2 = content tiny_written 2.
Proof.
  apply (write_then_rebuild_restores
           tiny_pool (initialize_drives tiny_pool) tiny_written [sample_file] 22 4
           2 tiny_dbox tiny_group1 5 [1; 2; 3]%Z false).
  - by_compute.
  - by_compute.
  - reflexivity.
  - vm_compute. reflexivity.
  - by_compute.
  - by_compute.
  - by_compute.
  - vm_compute. lia.
  - reflexivity.
  - vm_compute. lia.
Defined.

Lemma normal_write_touches_only_its_targets_witness :
  drive_status tiny_rewritten = drive_status tiny_degraded ∧
  length (disk tiny_rewritten) = length (disk tiny_degraded) ∧
  3 = length (online_drives tiny_degraded (get_all_data_drives tiny_pool)) ∧
  (∀ d, d ∈ get_all_data_drives tiny_pool → is_online tiny_degraded d = false →
        content tiny_rewritten d = content tiny_degraded d) ∧
  (∀ d, d ∉ all_roles tiny_pool → disk tiny_rewritten !! d = disk tiny_degraded !! d) ∧
  (∀ s, s ∈ spare_drives tiny_pool →
        content tiny_rewritten s = replicate (drive_size tiny_pool) 0%Z).
Proof.
  apply (normal_write_touches_only_its_targets
           tiny_pool tiny_degraded tiny_rewritten [sample_file] 22 3).
  - by_compute.
  - by_compute.
  - reflexivity.
  - vm_compute. reflexivity.
Defined.

(** *** What a rebuild writes, and what it leaves alone *)

Lemma rebuild_data_drive_inv (cfg : config) (st st' : state) (failed : nat)
    (g : group) (read : gset nat) :
  _rebuild_data_drive cfg st failed g = Some (read, st') →
  ∃ data, st' = set_disk st (<[failed := data]> (disk st)).
Proof.
  unfold _rebuild_data_drive. case_bool_decide; [done|].
  destruct (mapM _ _) as [rounds|]; simpl; [|done].
  destruct (write_wb st failed _) as [st1|] eqn:Hw; simpl; [|done].
  intros [= _ <-]. apply write_wb_inv in Hw as [_ ->]. by eexists.
Qed.

Lemma local_parity_group_inv (cfg : config) (st st' : state) (g : group) (n : nat) :
  _calculate_local_parity_group cfg st g n = Some st' →
  st' = st ∨
  ∃ p data, g_parity_drive g = Some p ∧ st' = set_disk st (<[p := data]> (disk st)).
Proof.
  unfold _calculate_local_parity_group. destruct (g_parity_drive g) as [p|].
  - destruct (parity_data _ _ _ _ _) as [pd|]; simpl; [|done].
    intros Hw. apply write_wb_inv in Hw as [_ ->]. right. by eexists _, _.
  - intros [= <-]. by left.
Qed.

Lemma global_parity_dbox_inv (cfg : config) (st st' : state) (db : dbox) (n : nat) :
  _calculate_global_parity_dbox cfg st db n = Some st' →
  ∃ data, st' = set_disk st (<[d_global_parity_drive db := data]> (disk st)).
Proof.
  unfold _calculate_global_parity_dbox.
  destruct (parity_data _ _ _ _ _) as [pd|]; simpl; [|done].
  intros Hw. apply write_wb_inv in Hw as [_ ->]. by eexists.
Qed.

(** One round of the rebuild loop: the only file it may replace is that of
    the drive it is called for, and not even that one when the drive is
    online, a spare, or outside the layout. *)
Lemma rebuild_one_frame (cfg : config) (bring_online : bool)
    (read read' : gset nat) (notes notes' : list rebuild_note)
    (st st' : state) (d : nat) :
  (get_drive_type cfg d = GlobalParity →
   d_global_parity_drive <$> dboxes cfg !! (d / drives_per_dbox cfg) = Some d) →
  rebuild_one cfg bring_online (read, notes, st) d = Some (read', notes', st') →
  drive_status st'
  = (if bring_online then <[d := true]> (drive_status st) else drive_status st) ∧
  length (disk st') = length (disk st) ∧
  (∀ d', d' ≠ d → disk st' !! d' = disk st !! d') ∧
  (drive_status st !! d = Some true ∨ get_drive_type cfg d = HotSpare
   ∨ get_drive_type cfg d = Unknown → disk st' = disk st).
Proof.
  intros Hgp. unfold rebuild_one.
  destruct (drive_status st !! d) as [[|]|] eqn:Hs; cbn [mbind option_bind]; [| |done].
  { intros [= <- <- <-]. split; [|by repeat split].
    destruct bring_online; [|done]. by rewrite list_insert_id. }
  unfold get_dbox_for_drive.
  destruct (decide (drives_per_dbox cfg = 0)) as [Hdpd|Hdpd].
  { by rewrite (bool_decide_eq_true_2 (drives_per_dbox cfg = 0)). }
  rewrite (bool_decide_eq_false_2 (drives_per_dbox cfg = 0)) by done.
  cbn [mbind option_bind].
  destruct (dboxes cfg !! (d / drives_per_dbox cfg)) as [db|] eqn:Hdb;
    cbn [mbind option_bind]; [|done].
  set (finish := fun (acc : rebuild_acc) =>
         let '(drives_read, rebuild_info, s) := acc in
         let s := if bring_online
                  then set_status s (<[d := true]> (drive_status s)) else s in
         _ ← disk s !! d; Some (drives_read, rebuild_info, s)).
  assert (∀ (acc : rebuild_acc) data,
            acc.2 = st ∨ acc.2 = set_disk st (<[d := data]> (disk st)) →
            finish acc = Some (read', notes', st') →
            drive_status st'
            = (if bring_online then <[d := true]> (drive_status st)
               else drive_status st) ∧
            length (disk st') = length (disk st) ∧
            (∀ d', d' ≠ d → disk st' !! d' = disk st !! d') ∧
            (acc.2 = st → disk st' = disk st)) as Hfinish.
  { intros [[r n] s] data Hs' Hf. unfold finish in Hf. simpl in Hs'.
    cbv zeta in Hf.
    assert (disk (if bring_online
                  then set_status s (<[d := true]> (drive_status s)) else s)
            = disk s) as Hd by (by destruct bring_online).
    rewrite Hd in Hf.
    destruct (disk s !! d) eqn:Hl; cbn [mbind option_bind] in Hf; [|done].
    injection Hf as <- <- <-.
    destruct Hs' as [->| ->]; destruct bring_online; simpl;
      rewrite ?length_insert; repeat split; try done;
      try (intros d' Hd'; by rewrite list_lookup_insert_ne);
      intros Heq; apply (f_equal disk) in Heq; simpl in Heq; done. }
  destruct (get_drive_type cfg d) eqn:Htype.
  - destruct (first_group _ (d_local_groups db)) as [g|] eqn:Hg.
    + destruct (_rebuild_data_drive cfg st d g) as [[rd st1]|] eqn:Hr;
        cbn [mbind option_bind]; [|done].
      apply rebuild_data_drive_inv in Hr as [data ->].
      intros Hf. destruct (Hfinish (_, _, _) data (or_intror eq_refl) Hf)
        as (H1 & H2 & H3 & _).
      repeat split; try done. intros [?|[?|?]]; done.
    + intros Hf. destruct (Hfinish (_, _, _) [] (or_introl eq_refl) Hf)
        as (H1 & H2 & H3 & _).
      repeat split; try done. intros [?|[?|?]]; done.
  - destruct (first_group _ (d_local_groups db)) as [g|] eqn:Hg.
    + case_bool_decide; [done|].
      destruct (_calculate_local_parity_group cfg st g _) as [st1|] eqn:Hr;
        cbn [mbind option_bind]; [|done].
      apply first_group_Some in Hg as [Hg _]. apply bool_decide_eq_true_1 in Hg.
      apply local_parity_group_inv in Hr as [->|(p & data & Hp & ->)].
      * intros Hf. destruct (Hfinish (_, _, _) [] (or_introl eq_refl) Hf)
          as (H1 & H2 & H3 & _).
        repeat split; try done. intros [?|[?|?]]; done.
      * assert (p = d) as -> by congruence.
        intros Hf. destruct (Hfinish (_, _, _) data (or_intror eq_refl) Hf)
          as (H1 & H2 & H3 & _).
        repeat split; try done. intros [?|[?|?]]; done.
    + intros Hf. destruct (Hfinish (_, _, _) [] (or_introl eq_refl) Hf)
        as (H1 & H2 & H3 & _).
      repeat split; try done. intros [?|[?|?]]; done.
  - case_bool_decide; [done|].
    destruct (_calculate_global_parity_dbox cfg st db _) as [st1|] eqn:Hr;
      cbn [mbind option_bind]; [|done].
    apply global_parity_dbox_inv in Hr as [data Hst1].
    specialize (Hgp eq_refl). simpl in Hgp. injection Hgp as Hgp.
    rewrite Hgp in Hst1. subst st1.
    intros Hf. destruct (Hfinish (_, _, _) data (or_intror eq_refl) Hf)
      as (H1 & H2 & H3 & _).
    repeat split; try done. intros [?|[?|?]]; done.
  - intros Hf. destruct (Hfinish (_, _, _) [] (or_introl eq_refl) Hf)
      as (H1 & H2 & H3 & H4).
    repeat split; try done. intros _. by apply H4.
  - intros Hf. destruct (Hfinish (_, _, _) [] (or_introl eq_refl) Hf)
      as (H1 & H2 & H3 & H4).
    repeat split; try done. intros _. by apply H4.
Qed.

Lemma brought_online_keeps (drives : list nat) : ∀ (status : list bool) (d : nat),
  status !! d = Some true → brought_online status drives !! d = Some true.
Proof.
  unfold brought_online. induction drives as [|x drives IH]; intros status d Hd;
    simpl; [done|].
  apply IH. destruct (decide (d = x)) as [->|Hne].
  - by rewrite list_insert_id.
  - by rewrite list_lookup_insert_ne.
Qed.

Lemma rebuild_loop_frame (cfg : config) (bring_online : bool) (drives : list nat) :
  ∀ (read read' : gset nat) (notes notes' : list rebuild_note) (st st' : state),
    global_parity_by_division cfg drives →
    for_each (rebuild_one cfg bring_online) drives (read, notes, st)
    = Some (read', notes', st') →
    drive_status st'
    = (if bring_online then brought_online (drive_status st) drives
       else drive_status st) ∧
    length (disk st') = length (disk st) ∧
    ∀ d, d ∉ drives ∨ drive_status st !! d = Some true
         ∨ get_drive_type cfg d = HotSpare ∨ get_drive_type cfg d = Unknown →
         disk st' !! d = disk st !! d.
Proof.
  induction drives as [|x drives IH]; intros read read' notes notes' st st' Hgp Hrun.
  - injection Hrun as <- <- <-. by destruct bring_online.
  - apply Forall_cons in Hgp as [Hgpx Hgp]. cbn [for_each] in Hrun.
    destruct (rebuild_one cfg bring_online (read, notes, st) x)
      as [[[read1 notes1] st1]|] eqn:Hone; cbn [mbind option_bind] in Hrun; [|done].
    destruct (rebuild_one_frame cfg bring_online read read1 notes notes1 st st1 x
                Hgpx Hone) as (Hs1 & Hl1 & Hf1 & Hsame1).
    destruct (IH read1 read' notes1 notes' st1 st' Hgp Hrun) as (Hs & Hl & Hf).
    split; [|split].
    + rewrite Hs, Hs1. by destruct bring_online.
    + by rewrite Hl.
    + intros d Hd.
      assert (disk st1 !! d = disk st !! d) as Hd1.
      { destruct (decide (d = x)) as [->|Hne]; [|by apply Hf1].
        rewrite Hsame1; [done|]. destruct Hd as [Hd|Hd]; [|done].
        exfalso. apply Hd. by left. }
      rewrite <- Hd1. apply Hf. destruct Hd as [Hd|[Hd|Hd]].
      * left. intros Hin. apply Hd. by right.
      * right. left. rewrite Hs1. destruct bring_online; [|done].
        apply (brought_online_keeps [x]). done.
      * by right; right.
Qed.

(** X5: [rebuild_drives] replaces no file but those of the drives it is
    called for, and of these it leaves alone every drive that is online,
    a spare or outside the layout; "rebuild to spare" writes to no spare.
    The status list changes only by the requested drives being set online,
    and not at all when [bring_online] is false. *)
Theorem rebuild_changes_only_requested_drives
    (cfg : config) (st st' : state) (drives : list nat) (bring_online : bool)
    (drives_read : gset nat) (notes : list rebuild_note) :
  global_parity_by_division cfg drives →
  rebuild_drives cfg st drives bring_online = Some (drives_read, notes, st') →
  drive_status st'
  = (if bring_online then brought_online (drive_status st) drives
     else drive_status st) ∧
  length (disk st') = length (disk st) ∧
  ∀ d, d ∉ drives ∨ drive_status st !! d = Some true
       ∨ get_drive_type cfg d = HotSpare ∨ get_drive_type cfg d = Unknown →
       disk st' !! d = disk st !! d.
Proof. intros Hgp Hrun. by eapply rebuild_loop_frame. Qed.

Lemma rebuild_changes_only_requested_drives_witness :
  drive_status tiny_rebuilt
  = brought_online (drive_status tiny_four_failed) [1; 4; 6; 7; 0] ∧
  length (disk tiny_rebuilt) = length (disk tiny_four_failed) ∧
  ∀ d, d ∉ [1; 4; 6; 7; 0] ∨ drive_status tiny_four_failed !! d = Some true
       ∨ get_drive_type tiny_pool d = HotSpare
       ∨ get_drive_type tiny_pool d = Unknown →
       disk tiny_rebuilt !! d = disk tiny_four_failed !! d.
Proof.
  eapply (rebuild_changes_only_requested_drives
            tiny_pool tiny_four_failed tiny_rebuilt [1; 4; 6; 7; 0] true).
  - by_compute.
  - vm_compute. reflexivity.
Defined.

(** X6: a rebuild of an offline local-parity drive recomputes it over the
    whole drive from the online data drives of its group, and reports every
    data drive of the group as read, the offline ones too. *)
Theorem rebuild_local_parity_drive
    (cfg : config) (st : state) (failed : nat) (db : dbox) (g : group)
    (bring_online : bool) :
  parity_route cfg failed db g →
  drive_status st !! failed = Some false →
  failed < length (disk st) →
  drives_exist st (g_data_drives g) →
  chunk_size cfg ≠ 0 →
  holds_chunks cfg st (g_data_drives g) (drive_size cfg / chunk_size cfg) →
  ∃ st',
    rebuild_drives cfg st [failed] bring_online
    = Some (list_to_set (g_data_drives g),
            [ParityRebuild failed (length (g_data_drives g))], st') ∧
    content st' failed
    = parity_image cfg st plain (online_drives st (g_data_drives g))
        (drive_size cfg / chunk_size cfg).
Proof.
  intros (Hdpd & Hdb & Htype & Hg) Hoff Hflt Hex Hcs Hhold.
  pose proof (first_group_Some _ _ _ Hg) as [Hp _].
  apply bool_decide_eq_true_1 in Hp.
  unfold rebuild_drives. cbn [for_each]. unfold rebuild_one.
  rewrite Hoff. cbn [mbind option_bind]. unfold get_dbox_for_drive.
  rewrite (bool_decide_eq_false_2 (drives_per_dbox cfg = 0)) by done.
  cbn [mbind option_bind]. rewrite Hdb. cbn [mbind option_bind].
  rewrite Htype, Hg.
  rewrite (bool_decide_eq_false_2 (chunk_size cfg = 0)) by done.
  rewrite (local_parity_written cfg st g failed) by done.
  cbn [mbind option_bind].
  set (img := parity_image cfg st plain _ _).
  set (st1 := set_disk st (<[failed := img]> (disk st))).
  assert (content st1 failed = img) as Hc1.
  { unfold st1. by apply content_set_disk_eq. }
  assert (failed < length (disk st1)) as Hflt1.
  { unfold st1. simpl. by rewrite length_insert. }
  rewrite (left_id_L ∅ (∪)).
  destruct bring_online.
  - rewrite (lookup_disk (set_status st1 _) failed) by done.
    cbn [mbind option_bind]. eexists. split; [done | exact Hc1].
  - rewrite (lookup_disk st1 failed) by done.
    cbn [mbind option_bind]. eexists. split; [done | exact Hc1].
Qed.

Lemma rebuild_local_parity_drive_witness :
  ∃ st',
    rebuild_drives tiny_pool tiny_four_failed [4] true
    = Some (list_to_set (g_data_drives tiny_group0),
            [ParityRebuild 4 (length (g_data_drives tiny_group0))], st') ∧
    content st' 4
    = parity_image tiny_pool tiny_four_failed plain
        (online_drives tiny_four_failed (g_data_drives tiny_group0))
        (drive_size tiny_pool / chunk_size tiny_pool).
Proof.
  apply (rebuild_local_parity_drive tiny_pool tiny_four_failed 4 tiny_dbox
           tiny_group0 true); by_compute.
Defined.

(** X7: a rebuild of an offline global-parity drive recomputes it over the
    whole drive as the weighted XOR of the online data drives of its
    domain, and reports every data drive of the domain as read. *)
Theorem rebuild_global_parity_drive
    (cfg : config) (st : state) (failed : nat) (db : dbox)
    (bring_online : bool) :
  global_route cfg failed db →
  drive_status st !! failed = Some false →
  failed < length (disk st) →
  drives_exist st (d_data_drives db) →
  chunk_size cfg ≠ 0 →
  holds_chunks cfg st (d_data_drives db) (drive_size cfg / chunk_size cfg) →
  ∃ st',
    rebuild_drives cfg st [failed] bring_online
    = Some (list_to_set (d_data_drives db),
            [GlobalRebuild failed (length (d_data_drives db))], st') ∧
    content st' failed
    = parity_image cfg st weighted (online_drives st (d_data_drives db))
        (drive_size cfg / chunk_size cfg).
Proof.
  intros (Hdpd & Hdb & Htype & Hgp) Hoff Hflt Hex Hcs Hhold.
  unfold rebuild_drives. cbn [for_each]. unfold rebuild_one.
  rewrite Hoff. cbn [mbind option_bind]. unfold get_dbox_for_drive.
  rewrite (bool_decide_eq_false_2 (drives_per_dbox cfg = 0)) by done.
  cbn [mbind option_bind]. rewrite Hdb. cbn [mbind option_bind].
  rewrite Htype.
  rewrite (bool_decide_eq_false_2 (chunk_size cfg = 0)) by done.
  rewrite (global_parity_written cfg st db) by (done || by rewrite Hgp).
  cbn [mbind option_bind]. rewrite Hgp.
  set (img := parity_image cfg st weighted _ _).
  set (st1 := set_disk st (<[failed := img]> (disk st))).
  assert (content st1 failed = img) as Hc1.
  { unfold st1. by apply content_set_disk_eq. }
  assert (failed < length (disk st1)) as Hflt1.
  { unfold st1. simpl. by rewrite length_insert. }
  rewrite (left_id_L ∅ (∪)).
  destruct bring_online.
  - rewrite (lookup_disk (set_status st1 _) failed) by done.
    cbn [mbind option_bind]. eexists. split; [done | exact Hc1].
  - rewrite (lookup_disk st1 failed) by done.
    cbn [mbind option_bind]. eexists. split; [done | exact Hc1].
Qed.

Lemma rebuild_global_parity_drive_witness :
  ∃ st',
    rebuild_drives tiny_pool tiny_four_failed [6] false
    = Some (list_to_set (d_data_drives tiny_dbox),
            [GlobalRebuild 6 (length (d_data_drives tiny_dbox))], st') ∧
    content st' 6
    = parity_image tiny_pool tiny_four_failed weighted
        (online_drives tiny_four_failed (d_data_drives tiny_dbox))
        (drive_size tiny_pool / chunk_size tiny_pool).
Proof.
  apply (rebuild_global_parity_drive tiny_pool tiny_four_failed 6 tiny_dbox false);
    by_compute.
Defined.

(** *** The analyzer under more failures *)

Lemma check_data_integrity_result (cfg : config) (st : state) :
  layout_indexed cfg st →
  ∃ summary,
    check_data_integrity cfg st
    = Some (bool_decide (filter (fun db => 2 < max_offline st db) (dboxes cfg) = []),
            summary,
            map d_id (filter (fun db => 2 < max_offline st db) (dboxes cfg))).
Proof.
  intros Hl. unfold check_data_integrity. case_bool_decide as Hnone.
  - rewrite (no_offline_no_flag st (dboxes cfg) _ Hnone) by (intros; lia).
    by eexists.
  - rewrite (check_dboxes_flags st (dboxes cfg) Hl []). simpl.
    destruct (filter _ (dboxes cfg)) as [|db dbs]; simpl; by eexists.
Qed.

Lemma v21_check_data_integrity_result (cfg : config) (st : state) :
  layout_indexed cfg st →
  ∃ summary,
    V21.check_data_integrity cfg st
    = Some (bool_decide
              (filter (fun dn => 2 < max_offline st dn ∨
                                 (max_offline st dn = 2 ∧ parity_offline st dn))
                      (dboxes cfg) = []),
            summary,
            map d_id (filter (fun dn => 2 < max_offline st dn ∨
                                        (max_offline st dn = 2 ∧ parity_offline st dn))
                             (dboxes cfg))).
Proof.
  intros Hl. unfold V21.check_data_integrity. case_bool_decide as Hnone.
  - rewrite (no_offline_no_flag st (dboxes cfg) _ Hnone) by (intros; lia).
    by eexists.
  - rewrite (check_dnodes_flags st (dboxes cfg) Hl []). simpl.
    destruct (filter _ (dboxes cfg)) as [|db dbs]; simpl; by eexists.
Qed.

Lemma layout_indexed_length (cfg : config) (st st' : state) :
  length (drive_status st') = length (drive_status st) →
  layout_indexed cfg st → layout_indexed cfg st'.
Proof. unfold layout_indexed. by intros ->. Qed.

Lemma more_failures_offline (st st' : state) (d : nat) :
  more_failures st st' → is_offline st d → is_offline st' d.
Proof.
  unfold more_failures, is_offline. intros H Hd.
  destruct (drive_status st !! d) as [[|]|] eqn:Hs; try done.
  destruct (Forall2_lookup_l _ _ _ d false H Hs) as (b & -> & Hb).
  destruct b; [|done]. by apply Hb.
Qed.

Lemma filter_length_mono {A} (P Q : A → Prop) `{∀ x, Decision (P x)}
    `{∀ x, Decision (Q x)} (l : list A) :
  (∀ x, P x → Q x) → length (filter P l) ≤ length (filter Q l).
Proof.
  intros HPQ. induction l as [|x l IH]; [done|].
  rewrite !filter_cons.
  destruct (decide (P x)) as [HP|HP], (decide (Q x)) as [HQ|HQ]; simpl; try lia.
  by apply HPQ in HP.
Qed.

Lemma max_offline_mono (st st' : state) (db : dbox) :
  more_failures st st' → max_offline st db ≤ max_offline st' db.
Proof.
  intros H. unfold max_offline, max_offline_of.
  induction (d_local_groups db) as [|g gs IH]; simpl; [done|].
  assert (offline_count st (g_data_drives g) ≤ offline_count st' (g_data_drives g)).
  { apply filter_length_mono. intros d. by apply more_failures_offline. }
  lia.
Qed.

Lemma parity_offline_mono (st st' : state) (db : dbox) :
  more_failures st st' → parity_offline st db → parity_offline st' db.
Proof.
  intros H HP. unfold parity_offline in *. eapply Exists_impl; [exact HP|].
  intros p. by apply more_failures_offline.
Qed.

Lemma filter_nil_mono {A} (P Q : A → Prop) `{∀ x, Decision (P x)}
    `{∀ x, Decision (Q x)} (l : list A) :
  (∀ x, P x → Q x) → filter Q l = [] → filter P l = [].
Proof.
  intros HPQ HQ. apply length_0_nil.
  pose proof (filter_length_mono P Q l HPQ) as Hle.
  rewrite HQ in Hle. simpl in Hle. lia.
Qed.

Lemma flagged_mono (P Q : dbox → Prop) `{∀ x, Decision (P x)}
    `{∀ x, Decision (Q x)} (l : list dbox) (x : nat) :
  (∀ db, P db → Q db) → x ∈ map d_id (filter P l) → x ∈ map d_id (filter Q l).
Proof.
  intros HPQ Hx. apply list_elem_of_fmap in Hx as (db & -> & Hdb).
  apply list_elem_of_filter in Hdb as [HP Hin].
  apply list_elem_of_fmap_2. apply list_elem_of_filter. auto.
Qed.

(** X8: more failures never improve the verdict.  If every drive that is
    offline in [st] is offline in [st'] too, then, for both analyzers, a
    pool reported recoverable in [st'] is reported recoverable in [st], and
    every domain listed as vulnerable in [st] is listed in [st']. *)
Theorem integrity_verdict_monotone (cfg : config) (st st' : state) :
  layout_indexed cfg st →
  more_failures st st' →
  (∃ ok summary vulnerable ok' summary' vulnerable',
     check_data_integrity cfg st = Some (ok, summary, vulnerable) ∧
     check_data_integrity cfg st' = Some (ok', summary', vulnerable') ∧
     (ok' = true → ok = true) ∧
     (∀ x, x ∈ vulnerable → x ∈ vulnerable')) ∧
  (∃ ok summary vulnerable ok' summary' vulnerable',
     V21.check_data_integrity cfg st = Some (ok, summary, vulnerable) ∧
     V21.check_data_integrity cfg st' = Some (ok', summary', vulnerable') ∧
     (ok' = true → ok = true) ∧
     (∀ x, x ∈ vulnerable → x ∈ vulnerable')).
Proof.
  intros Hl Hmore.
  assert (layout_indexed cfg st') as Hl'.
  { eapply layout_indexed_length; [|exact Hl]. symmetry.
    by eapply Forall2_length. }
  assert (∀ db, 2 < max_offline st db → 2 < max_offline st' db) as Hmono.
  { intros db Hdb. pose proof (max_offline_mono st st' db Hmore). lia. }
  assert (∀ db, 2 < max_offline st db ∨
                (max_offline st db = 2 ∧ parity_offline st db) →
                2 < max_offline st' db ∨
                (max_offline st' db = 2 ∧ parity_offline st' db)) as Hmono21.
  { intros db Hdb. pose proof (max_offline_mono st st' db Hmore).
    destruct Hdb as [?|[? Hp]]; [left; lia|].
    apply (parity_offline_mono st st' db Hmore) in Hp.
    destruct (decide (2 < max_offline st' db)); [by left|right]. split; [lia|done]. }
  split.
  - destruct (check_data_integrity_result cfg st Hl) as [s ->].
    destruct (check_data_integrity_result cfg st' Hl') as [s' ->].
    eexists _, _, _, _, _, _. split; [done|]. split; [done|]. split.
    + intros H. apply bool_decide_eq_true_1 in H. apply bool_decide_eq_true_2.
      exact (filter_nil_mono _ _ _ Hmono H).
    + intros x. by apply flagged_mono.
  - destruct (v21_check_data_integrity_result cfg st Hl) as [s ->].
    destruct (v21_check_data_integrity_result cfg st' Hl') as [s' ->].
    eexists _, _, _, _, _, _. split; [done|]. split; [done|]. split.
    + intros H. apply bool_decide_eq_true_1 in H. apply bool_decide_eq_true_2.
      exact (filter_nil_mono _ _ _ Hmono21 H).
    + intros x. by apply flagged_mono.
Qed.

Lemma integrity_verdict_monotone_witness :
  (∃ ok summary vulnerable ok' summary' vulnerable',
     check_data_integrity tiny_pool tiny_degraded = Some (ok, summary, vulnerable) ∧
     check_data_integrity tiny_pool tiny_four_failed
     = Some (ok', summary', vulnerable') ∧
     (ok' = true → ok = true) ∧
     (∀ x, x ∈ vulnerable → x ∈ vulnerable')) ∧
  (∃ ok summary vulnerable ok' summary' vulnerable',
     V21.check_data_integrity tiny_pool tiny_degraded
     = Some (ok, summary, vulnerable) ∧
     V21.check_data_integrity tiny_pool tiny_four_failed
     = Some (ok', summary', vulnerable') ∧
     (ok' = true → ok = true) ∧
     (∀ x, x ∈ vulnerable → x ∈ vulnerable')).
Proof.
  apply (integrity_verdict_monotone tiny_pool tiny_degraded tiny_four_failed);
    by_compute.
Defined.

(** *** A whole domain offline *)

Lemma set_status_set_status (st : state) (s1 s2 : list bool) :
  set_status (set_status st s1) s2 = set_status st s2.
Proof. done. Qed.

Lemma set_status_all_Some (drives : list nat) (value : bool) : ∀ st : state,
  Forall (fun d => d < length (drive_status st)) drives →
  ∃ status',
    set_status_all st drives value = Some (set_status st status') ∧
    length status' = length (drive_status st) ∧
    (∀ d, d ∈ drives → status' !! d = Some value) ∧
    (∀ d, d ∉ drives → status' !! d = drive_status st !! d).
Proof.
  unfold set_status_all.
  induction drives as [|x drives IH]; intros st Hvalid; cbn [for_each].
  - exists (drive_status st). split; [by destruct st|]. split; [done|].
    split; [|done]. intros d Hd. inversion Hd.
  - inversion Hvalid as [|? ? Hx Hrest]; subst.
    rewrite bool_decide_eq_true_2 by done. cbn [mbind option_bind].
    set (st1 := set_status st (<[x := value]> (drive_status st))).
    destruct (IH st1) as (status' & Hrun & Hlen & Hin & Hout).
    { simpl. by rewrite length_insert. }
    exists status'. rewrite Hrun. split; [done|]. split.
    { rewrite Hlen. simpl. by rewrite length_insert. }
    split.
    + intros d Hd. destruct (decide (d ∈ drives)) as [Hd'|Hd']; [by apply Hin|].
      apply elem_of_cons in Hd as [->|?]; [|done].
      rewrite (Hout x Hd'). simpl. by apply list_lookup_insert_eq.
    + intros d Hd. apply not_elem_of_cons in Hd as [Hne Hd].
      rewrite (Hout d Hd). simpl. by apply list_lookup_insert_ne.
Qed.




(** *** VDATASIM-v1.0: what the analyzer counts *)

Lemma offline_from_filter (status : list bool) : ∀ i : nat,
  offline_from i status
  = filter (fun d => status !! (d - i) = Some false) (seq i (length status)).
Proof.
  induction status as [|b status IH]; intros i; [done|].
  cbn [offline_from length seq]. rewrite filter_cons, Nat.sub_diag. cbn [lookup list_lookup].
  assert (filter (fun d => (b :: status) !! (d - i) = Some false)
                 (seq (S i) (length status))
          = offline_from (S i) status) as Hrest.
  { rewrite IH. apply filter_ext_in. intros d Hd. apply elem_of_seq in Hd.
    replace (d - i) with (S (d - S i)) by lia. done. }
  rewrite Hrest. destruct b.
  - by rewrite decide_False.
  - by rewrite decide_True.
Qed.

Lemma offline_drives_filter (st : state) :
  offline_from 0 (drive_status st)
  = filter (fun d => is_offline st d) (seq 0 (length (drive_status st))).
Proof.
  rewrite offline_from_filter. apply filter_ext_in. intros d _.
  rewrite Nat.sub_0_r. unfold is_offline.
  destruct (drive_status st !! d) as [[|]|]; simpl; split; (done || intros [=]).
Qed.

Lemma filter_and_in {A} (R Q : A → Prop) `{∀ x, Decision (R x)}
    `{∀ x, Decision (Q x)} (l : list A) :
  (∀ x, x ∈ l → R x) → filter R (filter Q l) = filter Q l.
Proof.
  intros HR. apply filter_all. apply Forall_forall. intros x Hx.
  apply list_elem_of_filter in Hx as [_ Hx]. by apply HR.
Qed.

Lemma filter_and_out {A} (R Q : A → Prop) `{∀ x, Decision (R x)}
    `{∀ x, Decision (Q x)} (l : list A) :
  (∀ x, x ∈ l → ¬ R x) → filter R (filter Q l) = [].
Proof.
  intros HR. induction l as [|x l IH]; [done|].
  rewrite (filter_cons Q). destruct (decide (Q x)).
  - rewrite filter_cons, decide_False by (apply HR; by left).
    apply IH. intros y Hy. apply HR. by right.
  - apply IH. intros y Hy. apply HR. by right.
Qed.

(** X10: the analyzer of VDATASIM-v1.0 reports the pool recoverable exactly
    when at most two of the 142 data drives are offline; the status of the
    four parity drives never changes its verdict. *)
Theorem v10_recoverable_iff_two_data_failures (st : state) :
  length (drive_status st) = 146 →
  (V10Analyzer.check_data_integrity st).1 = true
  ↔ offline_count st (seq 0 V10.num_data_drives) ≤ 2.
Proof.
  intros Hlen. unfold V10Analyzer.check_data_integrity, V10.num_data_drives.
  rewrite offline_drives_filter, Hlen.
  change (seq 0 146) with (seq 0 71 ++ seq 71 71 ++ seq 142 4).
  change (seq 0 142) with (seq 0 71 ++ seq 71 71).
  unfold offline_count. rewrite !filter_app, !length_app.
  rewrite (filter_and_in (fun d => d < 71) _ (seq 0 71))
    by (intros d Hd; apply elem_of_seq in Hd; lia).
  rewrite (filter_and_out (fun d => d < 71) _ (seq 71 71))
    by (intros d Hd; apply elem_of_seq in Hd; lia).
  rewrite (filter_and_out (fun d => d < 71) _ (seq 142 4))
    by (intros d Hd; apply elem_of_seq in Hd; lia).
  rewrite (filter_and_out (fun d => 71 ≤ d ∧ d < 142) _ (seq 0 71))
    by (intros d Hd; apply elem_of_seq in Hd; lia).
  rewrite (filter_and_in (fun d => 71 ≤ d ∧ d < 142) _ (seq 71 71))
    by (intros d Hd; apply elem_of_seq in Hd; lia).
  rewrite (filter_and_out (fun d => 71 ≤ d ∧ d < 142) _ (seq 142 4))
    by (intros d Hd; apply elem_of_seq in Hd; lia).
  cbn [length app].
  set (a := length (filter _ (seq 0 71))).
  set (b := length (filter _ (seq 71 71))).
  set (c := length (filter _ (seq 142 4))).
  repeat case_bool_decide; simpl; split; intros; (done || lia).
Qed.

Lemma v10_recoverable_iff_two_data_failures_witness :
  (V10Analyzer.check_data_integrity v10_parity_lost).1 = true
  ↔ offline_count v10_parity_lost (seq 0 V10.num_data_drives) ≤ 2.
Proof.
  apply (v10_recoverable_iff_two_data_failures v10_parity_lost). reflexivity.
Defined.

(** *** VDSimm-v1.1: the loss of a whole Dnode *)

Lemma two_offline (st : state) (l : list nat) (x y : nat) :
  x ≠ y → x ∈ l → y ∈ l → is_offline st x → is_offline st y →
  1 < offline_count st l.
Proof.
  intros Hne Hx Hy Hox Hoy. unfold offline_count.
  assert ([x; y] ⊆+ filter (fun d => is_offline st d) l) as Hsub.
  { apply NoDup_submseteq.
    - apply NoDup_cons. split; [by rewrite list_elem_of_singleton|].
      apply NoDup_singleton.
    - intros d Hd. apply list_elem_of_filter.
      apply elem_of_cons in Hd as [->|Hd]; [done|].
      apply list_elem_of_singleton in Hd as ->. done. }
  apply submseteq_length in Hsub. simpl in Hsub. lia.
Qed.

Lemma v11_check_groups_length (st : state) (gs : list group) :
  Forall (fun g => Forall (fun d => d < length (drive_status st)) (g_data_drives g) ∧
                   ∃ p, g_parity_drive g = Some p ∧ p < length (drive_status st))
         gs →
  ∀ (group_id : nat) (acc : list nat),
    ∃ v, V11.check_groups st group_id gs acc = Some v ∧
         length acc
         + length (filter (fun g => 1 < offline_count st (g_data_drives g)) gs)
         ≤ length v.
Proof.
  induction 1 as [|g gs [Hg (p & Hp & Hplt)] _ IH]; intros group_id acc.
  - exists acc. split; [done | simpl; lia].
  - cbn [V11.check_groups]. rewrite group_failures_count by done.
    cbn [mbind option_bind]. rewrite Hp. cbn [mbind option_bind].
    rewrite lookup_status by done. cbn [mbind option_bind].
    rewrite filter_cons. case_bool_decide as Hrisk.
    + destruct (IH (S group_id) (acc ++ [group_id])) as (v & -> & Hv).
      exists v. split; [done|]. rewrite length_app in Hv.
      destruct (decide _); simpl in *; lia.
    + destruct (IH (S group_id) acc) as (v & -> & Hv).
      exists v. split; [done|].
      rewrite decide_False; [done|]. intros Hlt. apply Hrisk. by left.
Qed.

Lemma three_flagged (P : group → Prop) `{∀ g, Decision (P g)}
    (l1 l2 : list group) (ga gb gc : group) :
  P ga → P gb → P gc → 3 ≤ length (filter P (l1 ++ [ga; gb; gc] ++ l2)).
Proof.
  intros Ha Hb Hc. rewrite !filter_app, !length_app.
  rewrite !filter_cons, !decide_True by done. simpl. lia.
Qed.

Lemma v11_local_groups_valid (st : state) :
  length (drive_status st) = 156 →
  Forall (fun g => Forall (fun d => d < length (drive_status st)) (g_data_drives g) ∧
                   ∃ p, g_parity_drive g = Some p ∧ p < length (drive_status st))
         V11.local_groups.
Proof.
  intros Hlen. unfold V11.local_groups. apply Forall_forall. intros g Hg.
  apply list_elem_of_fmap in Hg as (i & -> & Hi). apply elem_of_seq in Hi.
  cbn [g_data_drives g_parity_drive]. rewrite Hlen. split.
  - apply Forall_forall. intros d Hd. apply elem_of_seq in Hd. lia.
  - exists (142 + i). split; [done | lia].
Qed.

(** The verdict of the v1.1 analyzer once three local groups have two
    offline data drives each. *)
Lemma v11_three_groups_lost (st : state) (l1 l2 : list group) (ga gb gc : group) :
  length (drive_status st) = 156 →
  V11.local_groups = l1 ++ [ga; gb; gc] ++ l2 →
  1 < offline_count st (g_data_drives ga) →
  1 < offline_count st (g_data_drives gb) →
  1 < offline_count st (g_data_drives gc) →
  ∃ summary vulnerable,
    V11.check_data_integrity st = Some (false, summary, vulnerable).
Proof.
  intros Hlen Hgroups Ha Hb Hc. unfold V11.check_data_integrity.
  case_bool_decide as Hnone.
  { exfalso. apply length_0_nil in Hnone.
    assert (offline_count st (g_data_drives ga) = 0); [|lia].
    apply offline_count_0. apply Forall_forall. intros d _ Hoff.
    apply elem_of_offline_drives in Hoff. rewrite Hnone in Hoff. inversion Hoff. }
  destruct (v11_check_groups_length st V11.local_groups
              (v11_local_groups_valid st Hlen) 0 []) as (v & -> & Hv).
  cbn [mbind option_bind].
  rewrite group_failures_count
    by (unfold V11.global_parity_drives; rewrite Hlen; repeat constructor; lia).
  cbn [mbind option_bind].
  rewrite Hgroups in Hv.
  pose proof (three_flagged (fun g => 1 < offline_count st (g_data_drives g))
                l1 l2 ga gb gc Ha Hb Hc) as H3.
  cbn [length] in Hv. case_bool_decide; [by eexists _, _|].
  rewrite bool_decide_eq_true_2 by lia. by eexists _, _.
Qed.

Lemma restore_status (st : state) (status' : list bool) :
  set_status (set_status st status') (drive_status st) = st.
Proof. by destruct st. Qed.

(** X11: according to the analyzer of VDSimm-v1.1 the pool never survives
    the loss of a whole Dnode.  Whatever the status of the 156 drives,
    [check_dnode_failure_impact] returns [False] for each of the four
    Dnodes, and it leaves the status list as it found it. *)
Theorem v11_dnode_loss_is_never_recoverable (st : state) (dnode_id : nat) :
  length (drive_status st) = 156 →
  dnode_id < 4 →
  ∃ summary vulnerable,
    V11.check_dnode_failure_impact st dnode_id
    = Some ((false, summary, vulnerable), st).
Proof.
  intros Hlen Hid. unfold V11.check_dnode_failure_impact.
  destruct (lookup_lt_is_Some_2 V11._configure_dnodes dnode_id) as [dn Hdn];
    [done|].
  rewrite Hdn. cbn [mbind option_bind].
  assert (Forall (fun d => d < length (drive_status st)) (V11.n_drives dn)) as Hvalid.
  { rewrite Hlen.
    do 4 (destruct dnode_id as [|dnode_id]; [injection Hdn as <-; by_compute|]).
    lia. }
  destruct (set_status_all_Some (V11.n_drives dn) false st Hvalid)
    as (status' & -> & Hslen & Hin & _).
  cbn [mbind option_bind]. set (st1 := set_status st status').
  assert (∀ d, d ∈ V11.n_drives dn → is_offline st1 d) as Hoff.
  { intros d Hd. unfold is_offline. simpl. by rewrite (Hin d Hd). }
  assert (length (drive_status st1) = 156) as Hlen1 by (simpl; congruence).
  assert (∃ summary vulnerable,
            V11.check_data_integrity st1 = Some (false, summary, vulnerable))
    as (summary & vulnerable & ->).
  { assert (∀ a n x, a ≤ x < a + n → x ∈ seq a n) as Hseq
      by (intros; by apply elem_of_seq).
    destruct dnode_id as [|[|[|[|n]]]]; [| | | |lia];
      injection Hdn as <-; cbn [V11.n_drives] in Hoff.
    - apply (v11_three_groups_lost st1 (take 0 V11.local_groups)
               (drop 3 V11.local_groups)
               (Group (seq 0 14) (Some 142)) (Group (seq 14 14) (Some 143))
               (Group (seq 28 14) (Some 144))); [done | done | | |].
      + apply (two_offline st1 _ 0 1); [lia | by apply Hseq; lia..| |];
          apply Hoff; by_compute.
      + apply (two_offline st1 _ 14 15); [lia | by apply Hseq; lia..| |];
          apply Hoff; by_compute.
      + apply (two_offline st1 _ 28 29); [lia | by apply Hseq; lia..| |];
          apply Hoff; by_compute.
    - apply (v11_three_groups_lost st1 (take 2 V11.local_groups)
               (drop 5 V11.local_groups)
               (Group (seq 28 14) (Some 144)) (Group (seq 42 14) (Some 145))
               (Group (seq 56 14) (Some 146))); [done | done | | |].
      + apply (two_offline st1 _ 35 36); [lia | by apply Hseq; lia..| |];
          apply Hoff; by_compute.
      + apply (two_offline st1 _ 42 43); [lia | by apply Hseq; lia..| |];
          apply Hoff; by_compute.
      + apply (two_offline st1 _ 56 57); [lia | by apply Hseq; lia..| |];
          apply Hoff; by_compute.
    - apply (v11_three_groups_lost st1 (take 5 V11.local_groups)
               (drop 8 V11.local_groups)
               (Group (seq 70 14) (Some 147)) (Group (seq 84 14) (Some 148))
               (Group (seq 98 14) (Some 149))); [done | done | | |].
      + apply (two_offline st1 _ 70 71); [lia | by apply Hseq; lia..| |];
          apply Hoff; by_compute.
      + apply (two_offline st1 _ 84 85); [lia | by apply Hseq; lia..| |];
          apply Hoff; by_compute.
      + apply (two_offline st1 _ 98 99); [lia | by apply Hseq; lia..| |];
          apply Hoff; by_compute.
    - apply (v11_three_groups_lost st1 (take 7 V11.local_groups)
               (drop 10 V11.local_groups)
               (Group (seq 98 14) (Some 149)) (Group (seq 112 14) (Some 150))
               (Group (seq 126 14) (Some 151))); [done | done | | |].
      + apply (two_offline st1 _ 105 106); [lia | by apply Hseq; lia..| |];
          apply Hoff; by_compute.
      + apply (two_offline st1 _ 112 113); [lia | by apply Hseq; lia..| |];
          apply Hoff; by_compute.
      + apply (two_offline st1 _ 126 127); [lia | by apply Hseq; lia..| |];
          apply Hoff; by_compute. }
  cbn [mbind option_bind]. unfold st1. rewrite restore_status. by eexists _, _.
Qed.

Lemma v11_dnode_loss_is_never_recoverable_witness :
  ∃ summary vulnerable,
    V11.check_dnode_failure_impact v11_fresh 3
    = Some ((false, summary, vulnerable), v11_fresh).
Proof.
  apply (v11_dnode_loss_is_never_recoverable v11_fresh 3).
  - reflexivity.
  - lia.
Defined.

(** *** The layout built by [_configure_dboxes] *)

Lemma slice_seq (a n start stop : nat) :
  stop ≤ n → slice (seq a n) start stop = seq (a + start) (stop - start).
Proof.
  intros H. unfold slice. rewrite drop_seq, take_seq. f_equal. lia.
Qed.

(** X12: in every domain [_configure_dboxes] builds, the data drives, the
    local-parity drives, the global-parity drive and the spares follow one
    another and make up exactly the 44 drive ids of the domain; the three
    local groups cut the data drives into runs of 13, 13 and 12, and group
    [i] has local-parity drive [i]. *)
Theorem configure_dbox_tiles_its_range (drives_per dbox_id : nat) :
  let db := configure_dbox drives_per dbox_id in
  d_data_drives db ++ d_local_parity_drives db
    ++ [d_global_parity_drive db] ++ d_spare_drives db
  = d_all_drives db ∧
  d_all_drives db = seq (dbox_id * drives_per) 44 ∧
  concat (map g_data_drives (d_local_groups db)) = d_data_drives db ∧
  map (fun g => length (g_data_drives g)) (d_local_groups db) = [13; 13; 12] ∧
  map g_parity_drive (d_local_groups db) = map Some (d_local_parity_drives db).
Proof.
  cbv zeta. unfold configure_dbox. cbn [d_data_drives d_local_parity_drives
    d_global_parity_drive d_spare_drives d_all_drives d_local_groups].
  set (b := dbox_id * drives_per).
  split; [|split; [done|split; [|split]]].
  - change 44 with (38 + (3 + (1 + 2))). rewrite !seq_app.
    replace (b + 38 + 3) with (b + 41) by lia.
    replace (b + 41 + 1) with (b + 42) by lia. done.
  - change (seq 0 3) with [0; 1; 2].
    cbn [map concat g_data_drives Nat.mul Nat.add Nat.min].
    rewrite !slice_seq by lia. rewrite app_nil_r.
    change (seq b 38) with (seq b (13 + (13 + 12))). rewrite !seq_app.
    cbn [Nat.sub]. by rewrite Nat.add_0_r, <- Nat.add_assoc.
  - change (seq 0 3) with [0; 1; 2].
    cbn [map g_data_drives Nat.mul Nat.add Nat.min].
    rewrite !slice_seq by lia. by rewrite !length_seq.
  - change (seq 0 3) with [0; 1; 2]. done.
Qed.

Lemma drive_type_in_dboxes (n : nat) : ∀ a d : nat,
  drive_type_in (map (configure_dbox 44) (seq a n)) d
  = if decide (a * 44 ≤ d < (a + n) * 44) then role_by_offset (d mod 44)
    else Unknown.
Proof.
  induction n as [|n IH]; intros a d.
  - by rewrite decide_False by lia.
  - cbn [seq map drive_type_in].
    set (rest := map (configure_dbox 44) (seq (S a) n)).
    unfold configure_dbox.
    cbn [d_data_drives d_local_parity_drives d_global_parity_drive d_spare_drives].
    destruct (decide (a * 44 ≤ d < a * 44 + 44)) as [Hin|Hout].
    + assert (d mod 44 = d - a * 44) as Hmod.
      { symmetry. apply (Nat.mod_unique d 44 a); lia. }
      rewrite decide_True by lia. rewrite Hmod. unfold role_by_offset.
      repeat case_bool_decide; try done; exfalso;
        rewrite ?elem_of_seq in *; lia.
    + rewrite !bool_decide_eq_false_2 by (rewrite ?elem_of_seq; lia).
      unfold rest. rewrite IH.
      destruct (decide (S a * 44 ≤ d < (S a + n) * 44)),
               (decide (a * 44 ≤ d < (a + S n) * 44)); (done || lia).
Qed.

(** X13: in the 484-drive layout the role [get_drive_type] finds by
    searching the domains is a function of the offset of the drive in its
    domain, [drive_id mod 44], and the domain [get_dbox_for_drive] finds by
    division is the one whose id range holds the drive; ids from 484 on
    have no role and no domain. *)
Theorem pool_drive_type_by_offset (dsz csz d : nat) :
  get_drive_type (pool dsz csz) d
  = (if decide (d < 484) then role_by_offset (d mod 44) else Unknown) ∧
  get_dbox_for_drive (pool dsz csz) d = Some (d / 44) ∧
  dboxes (pool dsz csz) !! (d / 44)
  = (if decide (d < 484) then Some (configure_dbox 44 (d / 44)) else None) ∧
  d ∈ d_all_drives (configure_dbox 44 (d / 44)).
Proof.
  split; [|split; [done|split]].
  - unfold get_drive_type, pool, _configure_dboxes. cbn [dboxes].
    rewrite drive_type_in_dboxes.
    destruct (decide (0 * 44 ≤ d < (0 + 11) * 44)), (decide (d < 484));
      (done || lia).
  - unfold pool, _configure_dboxes. cbn [dboxes]. rewrite list_lookup_fmap.
    destruct (decide (d < 484)) as [Hlt|Hge].
    + rewrite lookup_seq_lt; [done|]. apply Nat.Div0.div_lt_upper_bound. lia.
    + rewrite lookup_seq_ge; [done|].
      assert (11 * 44 ≤ d) as H by lia.
      apply (Nat.Div0.div_le_mono _ _ 44) in H. by rewrite Nat.div_mul in H.
  - unfold configure_dbox. cbn [d_all_drives]. apply elem_of_seq.
    pose proof (Nat.div_mod_eq d 44). pose proof (Nat.mod_upper_bound d 44). lia.
Qed.

(** *** The XOR-fold does not depend on the order of the chunks *)

(** The right operand of [^=] as numpy broadcasts it to the shape of the
    left one. *)
Lemma ixor_broadcast (p c : bytes) :
  ixor p c
  = (e ← (if bool_decide (length c = length p) then Some c
          else match c with [v] => Some (replicate (length p) v) | _ => None end);
     Some (xor_bytes p e)).
Proof.
  unfold ixor. case_bool_decide; [done|].
  destruct c as [|v [|? ?]]; try done. simpl. f_equal.
  unfold xor_bytes. clear. induction p as [|a p IH]; simpl; [done|]. by rewrite IH.
Qed.

Lemma xor_bytes_comm (a : bytes) : ∀ b : bytes, xor_bytes a b = xor_bytes b a.
Proof.
  unfold xor_bytes. induction a as [|x a IH]; intros [|y b]; simpl; try done.
  by rewrite Z.lxor_comm, IH.
Qed.

Lemma xor_bytes_swap (p x y : bytes) :
  xor_bytes (xor_bytes p x) y = xor_bytes (xor_bytes p y) x.
Proof. by rewrite !xor_bytes_assoc, (xor_bytes_comm x y). Qed.

Lemma length_xor_bytes_same (p e : bytes) :
  length e = length p → length (xor_bytes p e) = length p.
Proof. intros H. unfold xor_bytes. rewrite length_zip_with. lia. Qed.

Lemma ixor_swap (p x y : bytes) :
  (q ← ixor p x; ixor q y) = (q ← ixor p y; ixor q x).
Proof.
  rewrite (ixor_broadcast p x), (ixor_broadcast p y).
  set (ex := if bool_decide (length x = length p) then Some x
             else match x with [v] => Some (replicate (length p) v) | _ => None end).
  set (ey := if bool_decide (length y = length p) then Some y
             else match y with [v] => Some (replicate (length p) v) | _ => None end).
  assert (∀ e, ex = Some e → length e = length p) as Hex.
  { intros e. unfold ex. case_bool_decide; [by intros [= <-]|].
    destruct x as [|v [|? ?]]; try done. intros [= <-]. by rewrite length_replicate. }
  assert (∀ e, ey = Some e → length e = length p) as Hey.
  { intros e. unfold ey. case_bool_decide; [by intros [= <-]|].
    destruct y as [|v [|? ?]]; try done. intros [= <-]. by rewrite length_replicate. }
  destruct ex as [e1|] eqn:E1, ey as [e2|] eqn:E2; cbn [mbind option_bind].
  - rewrite !ixor_broadcast.
    rewrite !length_xor_bytes_same by auto.
    fold ex ey. rewrite E1, E2. cbn [mbind option_bind].
    by rewrite xor_bytes_swap.
  - rewrite ixor_broadcast, length_xor_bytes_same by auto.
    fold ey. by rewrite E2.
  - rewrite ixor_broadcast, length_xor_bytes_same by auto.
    fold ex. by rewrite E1.
  - done.
Qed.

Lemma xor_into_perm (l1 l2 : list bytes) :
  l1 ≡ₚ l2 → ∀ p : bytes, xor_into p l1 = xor_into p l2.
Proof.
  induction 1 as [|x l1 l2 _ IH|x y l|l1 l2 l3 _ IH1 _ IH2]; intros p.
  - done.
  - cbn [xor_into]. destruct (ixor p x); cbn [mbind option_bind]; [apply IH | done].
  - cbn [xor_into].
    transitivity (r ← (q ← ixor p y; ixor q x); xor_into r l).
    { by destruct (ixor p y). }
    rewrite ixor_swap. by destruct (ixor p x).
  - by rewrite IH1.
Qed.

(** X14: [calculate_parity] gives the same result for the same chunks in
    any order, and fails for the same chunks in any order. *)
Theorem calculate_parity_order_independent
    (cfg : config) (chunks chunks' : list bytes) :
  chunks ≡ₚ chunks' →
  calculate_parity cfg chunks = calculate_parity cfg chunks'.
Proof.
  intros Hperm. unfold calculate_parity.
  rewrite (Permutation_length Hperm). case_bool_decide; [done|].
  by apply xor_into_perm.
Qed.

Lemma calculate_parity_order_independent_witness :
  calculate_parity tiny_pool [[1; 2]; [3; 4]; [5; 6]]%Z
  = calculate_parity tiny_pool [[5; 6]; [1; 2]; [3; 4]]%Z.
Proof.
  apply (calculate_parity_order_independent tiny_pool). by_compute.
Defined.

(** *** The packed buffer and the file table of v2.1 *)



Lemma read_at_prefix (c tail : bytes) (off n : nat) :
  off + n ≤ length c → read_at (c ++ tail) off n = read_at c off n.
Proof.
  intros H. apply list_eq. intros i. rewrite !lookup_read_at.
  destruct (decide (i < n)); [|done]. by rewrite lookup_app_l by lia.
Qed.






(** *** What a write leaves of the other fields of [self] *)

Lemma same_store_refl (st : state) : same_store st st.
Proof. done. Qed.

Lemma same_store_trans (st1 st2 st3 : state) :
  same_store st1 st2 → same_store st2 st3 → same_store st1 st3.
Proof.
  intros (H1 & H2 & H3 & H4) (H1' & H2' & H3' & H4'). unfold same_store.
  by rewrite H1', H2', H3', H4'.
Qed.

Lemma same_store_set_disk (st : state) (dk : list bytes) :
  same_store st (set_disk st dk).
Proof. done. Qed.

Lemma write_wb_store (st st' : state) (d : nat) (data : bytes) :
  write_wb st d data = Some st' → same_store st st'.
Proof. intros H. apply write_wb_inv in H as [_ ->]. apply same_store_set_disk. Qed.

Lemma write_rplus_store (st st' : state) (d off : nat) (data : bytes) :
  write_rplus st d off data = Some st' → same_store st st'.
Proof. intros H. apply write_rplus_inv in H as [_ ->]. apply same_store_set_disk. Qed.

Lemma for_each_store {A} (body : state → A → option state) (l : list A) :
  (∀ s x s', body s x = Some s' → same_store s s') →
  ∀ st st', for_each body l st = Some st' → same_store st st'.
Proof.
  intros Hbody. induction l as [|x l IH]; intros st st' Hrun; simpl in Hrun.
  - injection Hrun as <-. apply same_store_refl.
  - destruct (body st x) as [s1|] eqn:Hb; simpl in Hrun; [|done].
    eapply same_store_trans; [by eapply Hbody | by apply IH].
Qed.

Lemma write_drives_store (cfg : config) (data : bytes) (N cpd : nat)
    (available : list nat) :
  ∀ (st st' : state) (ci : nat),
    write_drives cfg data N cpd available st ci = Some st' → same_store st st'.
Proof.
  induction available as [|d rest IH]; intros st st' ci Hrun; cbn [write_drives] in Hrun.
  - injection Hrun as <-. apply same_store_refl.
  - destruct (fill_drive cfg data N cpd ci []) as [drive_data ci'].
    destruct (write_wb st d _) as [s1|] eqn:Hw; cbn [mbind option_bind] in Hrun; [|done].
    eapply same_store_trans; [by eapply write_wb_store | by eapply IH].
Qed.

Lemma local_parity_group_store (cfg : config) (st st' : state) (g : group) (n : nat) :
  _calculate_local_parity_group cfg st g n = Some st' → same_store st st'.
Proof.
  intros H. apply local_parity_group_inv in H as [->|(p & data & _ & ->)];
    [apply same_store_refl | apply same_store_set_disk].
Qed.

Lemma global_parity_dbox_store (cfg : config) (st st' : state) (db : dbox) (n : nat) :
  _calculate_global_parity_dbox cfg st db n = Some st' → same_store st st'.
Proof.
  intros H. apply global_parity_dbox_inv in H as [data ->]. apply same_store_set_disk.
Qed.

Lemma normal_mode_store (cfg : config) (st st' : state) (data : bytes)
    (r : bool * message) :
  _write_data_normal_mode cfg st data = Some (r, st') → same_store st st'.
Proof.
  unfold _write_data_normal_mode. case_bool_decide; [done|].
  destruct (online_of st _) as [av|]; cbn [mbind option_bind]; [|done].
  case_bool_decide; [intros [= _ <-]; apply same_store_refl|].
  destruct (write_drives _ _ _ _ _ _ _) as [s1|] eqn:H1;
    cbn [mbind option_bind]; [|done].
  destruct (local_parity_pass _ _ s1) as [s2|] eqn:H2;
    cbn [mbind option_bind]; [|done].
  destruct (global_parity_pass _ _ s2) as [s3|] eqn:H3;
    cbn [mbind option_bind]; [|done].
  destruct (clear_spares _ s3) as [s4|] eqn:H4;
    cbn [mbind option_bind]; [|done].
  intros [= _ <-].
  apply write_drives_store in H1.
  unfold local_parity_pass in H2. rewrite for_each_nested in H2.
  apply for_each_store in H2; [|intros; by eapply local_parity_group_store].
  apply for_each_store in H3; [|intros; by eapply global_parity_dbox_store].
  unfold clear_spares in H4. rewrite for_each_nested in H4.
  apply for_each_store in H4; [|intros; by eapply write_wb_store].
  eauto using same_store_trans.
Qed.

Lemma ha_stripe_store (cfg : config) (data : bytes) (N s : nat) (drives : list nat) :
  ∀ (st st' : state) (ci ci' : nat),
    ha_stripe cfg data N s drives st ci = Some (st', ci') → same_store st st'.
Proof.
  induction drives as [|d drives IH]; intros st st' ci ci' Hrun;
    cbn [ha_stripe] in Hrun.
  - injection Hrun as <- _. apply same_store_refl.
  - case_bool_decide; [|injection Hrun as <- _; apply same_store_refl].
    destruct (write_rplus st d _ _) as [s1|] eqn:Hw;
      cbn [mbind option_bind] in Hrun; [|done].
    eapply same_store_trans; [by eapply write_rplus_store | by eapply IH].
Qed.

Lemma ha_stripes_store (cfg : config) (data : bytes) (N : nat) (sel : list nat)
    (fuel : nat) :
  ∀ (st st' : state) (s ci n : nat),
    ha_stripes fuel cfg data N sel st s ci = Some (st', n) → same_store st st'.
Proof.
  induction fuel as [|fuel IH]; intros st st' s ci n Hrun; cbn [ha_stripes] in Hrun.
  - case_bool_decide; [done|]. injection Hrun as <- _. apply same_store_refl.
  - case_bool_decide; [|injection Hrun as <- _; apply same_store_refl].
    destruct (ha_stripe _ _ _ _ _ _ _) as [[s1 ci1]|] eqn:Hs;
      cbn [mbind option_bind] in Hrun; [|done].
    eapply same_store_trans; [by eapply ha_stripe_store | by eapply IH].
Qed.

Lemma ha_local_pass_store (cfg : config) (data_drives : list nat) (n : nat)
    (lps : list nat) :
  ∀ (idx : nat) (st st' : state),
    ha_local_pass cfg data_drives n idx lps st = Some st' → same_store st st'.
Proof.
  induction lps as [|p lps IH]; intros idx st st' Hrun; cbn [ha_local_pass] in Hrun.
  - injection Hrun as <-. apply same_store_refl.
  - destruct (ha_parity_data _ _ _ _) as [pd|]; cbn [mbind option_bind] in Hrun; [|done].
    destruct (write_wb st p _) as [s1|] eqn:Hw; cbn [mbind option_bind] in Hrun; [|done].
    eapply same_store_trans; [by eapply write_wb_store | by eapply IH].
Qed.

Lemma ha_mode_store (cfg : config) (st st' : state) (data : bytes)
    (r : bool * message) :
  _write_data_ha_mode cfg st data = Some (r, st') → same_store st st'.
Proof.
  unfold _write_data_ha_mode. case_bool_decide; [done|].
  destruct (ha_select st _) as [sel|]; cbn [mbind option_bind]; [|done].
  case_bool_decide; [intros [= _ <-]; apply same_store_refl|].
  destruct (ha_stripes _ _ _ _ _ _ _ _) as [[s1 n]|] eqn:H1;
    cbn [mbind option_bind]; [|done].
  destruct (_calculate_ha_parity _ s1 _ _) as [s2|] eqn:H2;
    cbn [mbind option_bind]; [|done].
  intros [= _ <-].
  apply ha_stripes_store in H1. unfold _calculate_ha_parity in H2.
  destruct (ha_parity_drives 0 _) as [[lps gps]|]; cbn [mbind option_bind] in H2; [|done].
  destruct (ha_local_pass _ _ _ _ _ s1) as [s3|] eqn:H3;
    cbn [mbind option_bind] in H2; [|done].
  apply ha_local_pass_store in H3.
  apply for_each_store in H2.
  - eauto using same_store_trans.
  - intros s p s' Hb.
    destruct (ha_parity_data _ _ _ _) as [pd|]; cbn [mbind option_bind] in Hb; [|done].
    by eapply write_wb_store.
Qed.

(** X16: after any call of [write_files] with files that returns, accepted
    or refused, [retrieve_file] gives the packed bytes of exactly these
    files, unpadded, under the name the call stored; it reads no drive. *)
Theorem write_then_retrieve
    (cfg : config) (st st' : state) (files : list input_file)
    (result : bool * message) :
  0 < length files →
  write_files cfg st files = Some (result, st') →
  ∃ combined,
    combine_files files [] = Some combined ∧
    retrieve_file st' = (Some combined, FileRetrieved) ∧
    stored_file_name st'
    = Some (match files with [f] => f_path f | _ => "combined_files.dat"%string end).
Proof.
  intros Hfiles Hw. unfold write_files in Hw.
  destruct files as [|f fs]; [simpl in Hfiles; lia|].
  destruct (combine_files (f :: fs) []) as [combined|] eqn:Hc;
    cbn -[get_storage_stats set_stored] in Hw; [|done].
  pose proof (combine_files_length _ _ _ Hc) as Hlen. cbn [length] in Hlen.
  set (name := match fs with [] => f_path f | _ => "combined_files.dat"%string end) in *.
  set (st0 := set_stored st combined name) in *.
  assert (same_store st0 st') as (_ & Hd & Hn & _).
  { case_bool_decide; [by injection Hw as _ <-|].
    case_bool_decide; [done|]. cbn -[set_stored] in Hw.
    destruct (ha_mode st0); destruct result;
      [by eapply ha_mode_store | by eapply normal_mode_store]. }
  exists combined. split; [done|]. split.
  - unfold retrieve_file. rewrite Hd. simpl.
    destruct combined; [simpl in Hlen; lia | done].
  - rewrite Hn. simpl. unfold name. by destruct fs.
Qed.

Lemma write_then_retrieve_witness :
  ∃ combined,
    combine_files [big_file] [] = Some combined ∧
    retrieve_file tiny_rejected = (Some combined, FileRetrieved) ∧
    stored_file_name tiny_rejected = Some (f_path big_file).
Proof.
  apply (write_then_retrieve tiny_pool tiny_written tiny_rejected [big_file]
           (false, FilesTooLarge 59 5)).
  - simpl. lia.
  - vm_compute. reflexivity.
Defined.

(** X17: VDATASIM-v2.1 judges a Normal-mode write by the raw sizes of the
    files against the capacity of the online data drives: when the sizes
    add up to more, the call is refused before anything is read, and
    neither the pool nor the file table changes. *)
Theorem v21_write_refused_over_online_capacity
    (cfg : config) (st : state) (stored_files : list V21Files.file_meta)
    (files : list input_file) :
  0 < length files →
  ha_mode st = false →
  Forall (fun d => d < length (drive_status st)) (get_all_data_drives cfg) →
  length (online_drives st (get_all_data_drives cfg)) * drive_size cfg
    < foldr Nat.add 0 (map (fun f => length (f_data f)) files) →
  V21Files.write_files cfg st stored_files files
  = Some ((false,
           FilesTooLarge
             (Z.of_nat (foldr Nat.add 0 (map (fun f => length (f_data f)) files)))
             (Z.of_nat (length (online_drives st (get_all_data_drives cfg))
                        * drive_size cfg))),
          st, stored_files).
Proof.
  intros Hfiles Hha Hvalid Hover. unfold V21Files.write_files.
  destruct files as [|f fs]; [simpl in Hfiles; lia|].
  unfold V21Files.get_available_capacity. rewrite Hha.
  rewrite online_of_online_drives by done. cbn [mbind option_bind].
  assert (Nat.min (length (get_all_data_drives cfg))
                  (length (online_drives st (get_all_data_drives cfg)))
          = length (online_drives st (get_all_data_drives cfg))) as ->.
  { apply Nat.min_r. apply length_filter. }
  by rewrite bool_decide_eq_true_2.
Qed.

Lemma v21_write_refused_over_online_capacity_witness :
  V21Files.write_files tiny_pool tiny_four_failed [] [big_file; big_file]
  = Some ((false,
           FilesTooLarge
             (Z.of_nat (foldr Nat.add 0
                          (map (fun f => length (f_data f)) [big_file; big_file])))
             (Z.of_nat (length (online_drives tiny_four_failed
                                  (get_all_data_drives tiny_pool))
                        * drive_size tiny_pool))),
          tiny_four_failed, []).
Proof.
  apply (v21_write_refused_over_online_capacity tiny_pool tiny_four_failed []
           [big_file; big_file]).
  - simpl. lia.
  - reflexivity.
  - by_compute.
  - vm_compute. lia.
Defined.

(** *** What an HA-mode write leaves *)

Lemma write_rplus_frame (st st' : state) (d off : nat) (data : bytes) :
  write_rplus st d off data = Some st' → unchanged_outside [d] st st'.
Proof. intros H. apply write_rplus_inv in H as [_ ->]. apply unchanged_set_disk. Qed.

Lemma ha_stripe_frame (cfg : config) (data : bytes) (N s : nat) (drives : list nat) :
  ∀ (st st' : state) (ci ci' : nat),
    ha_stripe cfg data N s drives st ci = Some (st', ci') →
    unchanged_outside drives st st'.
Proof.
  induction drives as [|d drives IH]; intros st st' ci ci' Hrun;
    cbn [ha_stripe] in Hrun.
  - injection Hrun as <- _. apply unchanged_refl.
  - case_bool_decide; [|injection Hrun as <- _; apply unchanged_refl].
    destruct (write_rplus st d _ _) as [s1|] eqn:Hw;
      cbn [mbind option_bind] in Hrun; [|done].
    apply (unchanged_trans [d] drives st s1 st');
      [by eapply write_rplus_frame | by eapply IH].
Qed.

Lemma ha_stripes_frame (cfg : config) (data : bytes) (N : nat) (sel : list nat)
    (fuel : nat) :
  ∀ (st st' : state) (s ci n : nat),
    ha_stripes fuel cfg data N sel st s ci = Some (st', n) →
    unchanged_outside sel st st'.
Proof.
  induction fuel as [|fuel IH]; intros st st' s ci n Hrun; cbn [ha_stripes] in Hrun.
  - case_bool_decide; [done|]. injection Hrun as <- _. apply unchanged_refl.
  - case_bool_decide; [|injection Hrun as <- _; apply unchanged_refl].
    destruct (ha_stripe _ _ _ _ _ _ _) as [[s1 ci1]|] eqn:Hs;
      cbn [mbind option_bind] in Hrun; [|done].
    apply (unchanged_weaken (sel ++ sel)).
    { intros d Hd. apply elem_of_app in Hd. tauto. }
    eapply unchanged_trans; [by eapply ha_stripe_frame | by eapply IH].
Qed.

Lemma full_chunks_whole (cfg : config) (st : state) (drives : list nat) (i : nat) :
  Forall (fun d => d < length (disk st)) drives →
  full_chunks cfg st drives i
  = Some (map (fun d => chunk cfg st d i) (whole_chunk_drives cfg st drives i)).
Proof.
  unfold whole_chunk_drives. induction 1 as [|d drives Hd _ IH]; [done|].
  cbn [full_chunks]. rewrite read_chunk_chunk by done. cbn [mbind option_bind].
  rewrite IH. cbn [mbind option_bind]. rewrite filter_cons.
  case_bool_decide; [by rewrite decide_True | by rewrite decide_False].
Qed.

Lemma ha_parity_data_image (cfg : config) (st : state) (drives : list nat)
    (n : nat) :
  Forall (fun d => d < length (disk st)) drives →
  (pd ← ha_parity_data cfg st drives n; Some (ljust pd (drive_size cfg)))
  = Some (ha_parity_image cfg st drives n).
Proof.
  intros Hvalid. unfold ha_parity_data, ha_parity_image.
  rewrite (mapM_total _ (fun i => xor_fold (chunk_size cfg)
                                    (map (fun d => chunk cfg st d i)
                                         (whole_chunk_drives cfg st drives i)))).
  - done.
  - apply Forall_forall. intros i _. rewrite full_chunks_whole by done.
    cbn [mbind option_bind]. apply calculate_parity_fold.
    apply Forall_map. apply Forall_forall. intros d Hd.
    by apply list_elem_of_filter in Hd as [? _].
Qed.

Lemma ha_parity_image_agree (cfg : config) (st st' : state) (drives : list nat)
    (n : nat) :
  (∀ d, d ∈ drives → content st' d = content st d) →
  ha_parity_image cfg st' drives n = ha_parity_image cfg st drives n.
Proof.
  intros Hsame. unfold ha_parity_image. do 2 f_equal.
  apply map_ext. intros i.
  assert (∀ d, d ∈ drives → chunk cfg st' d i = chunk cfg st d i) as Hchunk.
  { intros d Hd. unfold chunk. by rewrite Hsame. }
  assert (whole_chunk_drives cfg st' drives i = whole_chunk_drives cfg st drives i)
    as ->.
  { unfold whole_chunk_drives. apply filter_ext_in. intros d Hd.
    by rewrite Hchunk. }
  f_equal. apply map_ext_in. intros d Hd. apply Hchunk.
  apply list_elem_of_In in Hd. by apply list_elem_of_filter in Hd as [_ ?].
Qed.

Lemma ha_write_parity_drive (cfg : config) (st : state) (drives : list nat)
    (n p : nat) :
  Forall (fun d => d < length (disk st)) drives →
  p < length (disk st) →
  (pd ← ha_parity_data cfg st drives n;
   write_wb st p (ljust pd (drive_size cfg)))
  = Some (set_disk st (<[p := ha_parity_image cfg st drives n]> (disk st))).
Proof.
  intros Hvalid Hp.
  pose proof (ha_parity_data_image cfg st drives n Hvalid) as Himg.
  destruct (ha_parity_data cfg st drives n) as [pd|]; cbn [mbind option_bind] in *;
    [|done].
  injection Himg as <-. by apply write_wb_Some.
Qed.

Lemma elem_of_slice {A} (l : list A) (a b : nat) (x : A) :
  x ∈ slice l a b → x ∈ l.
Proof.
  unfold slice. intros H. apply (subseteq_drop a l). by apply (subseteq_take (b - a)).
Qed.

Lemma ha_local_pass_written (cfg : config) (data_drives : list nat) (n : nat)
    (lps : list nat) :
  NoDup lps →
  Forall (fun p => p ∉ data_drives) lps →
  ∀ (idx : nat) (st : state),
    Forall (fun d => d < length (disk st)) data_drives →
    Forall (fun p => p < length (disk st)) lps →
    ∃ st', ha_local_pass cfg data_drives n idx lps st = Some st' ∧
           unchanged_outside lps st st' ∧
           ∀ k p, lps !! k = Some p →
             content st' p
             = ha_parity_image cfg st
                 (slice data_drives ((idx + k) * 9) ((idx + k) * 9 + 9)) n.
Proof.
  induction lps as [|p lps IH]; intros Hnd Hout idx st Hd Hp; cbn [ha_local_pass].
  - exists st. split; [done|]. split; [apply unchanged_refl|].
    intros k p Hk. by rewrite lookup_nil in Hk.
  - apply NoDup_cons in Hnd as [Hp_lps Hnd].
    inversion Hout as [|? ? Hp_data Hout']; subst.
    inversion Hp as [|? ? Hplt Hrest]; subst.
    assert (∀ a b, Forall (fun d => d < length (disk st)) (slice data_drives a b))
      as Hslice.
    { intros a b. unfold slice. by apply Forall_take, Forall_drop. }
    pose proof (ha_write_parity_drive cfg st (slice data_drives (idx * 9) (idx * 9 + 9))
                  n p (Hslice _ _) Hplt) as Hw.
    destruct (ha_parity_data cfg st _ n) as [pd|]; cbn [mbind option_bind] in Hw |- *;
      [|done].
    rewrite Hw. cbn [mbind option_bind].
    set (img := ha_parity_image cfg st _ n) in *.
    set (st1 := set_disk st (<[p := img]> (disk st))).
    pose proof (unchanged_set_disk st p img) as Hun1. fold st1 in Hun1.
    destruct (IH Hnd Hout' (S idx) st1) as (st' & Hrun & Hun & Himg).
    { simpl. by rewrite length_insert. }
    { simpl. by rewrite length_insert. }
    exists st'. split; [done|]. split.
    + by apply (unchanged_trans [p] lps st st1 st').
    + intros k q Hk. destruct k as [|k]; simpl in Hk.
      * injection Hk as <-. rewrite (unchanged_content lps st1 st') by done.
        unfold st1. rewrite content_set_disk_eq by done. unfold img.
        by rewrite Nat.add_0_r.
      * rewrite (Himg k q Hk). replace (S idx + k) with (idx + S k) by lia.
        apply ha_parity_image_agree. intros d Hdin.
        apply (unchanged_content [p] st st1 d Hun1).
        intros Hin. apply list_elem_of_singleton in Hin as ->.
        apply Hp_data. by eapply elem_of_slice.
Qed.

Lemma ha_global_pass_written (cfg : config) (data_drives : list nat) (n : nat)
    (gps : list nat) :
  NoDup gps →
  Forall (fun p => p ∉ data_drives) gps →
  ∀ st : state,
    Forall (fun d => d < length (disk st)) data_drives →
    Forall (fun p => p < length (disk st)) gps →
    ∃ st', for_each (fun s parity_drive =>
                       pd ← ha_parity_data cfg s data_drives n;
                       write_wb s parity_drive (ljust pd (drive_size cfg)))
                    gps st = Some st' ∧
           unchanged_outside gps st st' ∧
           ∀ g, g ∈ gps → content st' g = ha_parity_image cfg st data_drives n.
Proof.
  induction gps as [|p gps IH]; intros Hnd Hout st Hd Hp; cbn [for_each].
  - exists st. split; [done|]. split; [apply unchanged_refl|].
    intros g Hg. inversion Hg.
  - apply NoDup_cons in Hnd as [Hp_gps Hnd].
    inversion Hout as [|? ? Hp_data Hout']; subst.
    inversion Hp as [|? ? Hplt Hrest]; subst.
    rewrite (ha_write_parity_drive cfg st data_drives n p Hd Hplt).
    cbn [mbind option_bind].
    set (img := ha_parity_image cfg st data_drives n).
    set (st1 := set_disk st (<[p := img]> (disk st))).
    pose proof (unchanged_set_disk st p img) as Hun1. fold st1 in Hun1.
    destruct (IH Hnd Hout' st1) as (st' & Hrun & Hun & Himg).
    { simpl. by rewrite length_insert. }
    { simpl. by rewrite length_insert. }
    exists st'. split; [done|]. split.
    + by apply (unchanged_trans [p] gps st st1 st').
    + intros g Hg. destruct (decide (g ∈ gps)) as [Hin|Hnin].
      * rewrite (Himg g Hin). apply ha_parity_image_agree. intros d Hdin.
        apply (unchanged_content [p] st st1 d Hun1).
        intros Hd'. apply list_elem_of_singleton in Hd' as ->. done.
      * apply elem_of_cons in Hg as [->|?]; [|done].
        rewrite (unchanged_content gps st1 st') by done.
        unfold st1. by rewrite content_set_disk_eq.
Qed.

(** The HA-mode write as a whole. *)
Lemma ha_write_full (cfg : config) (st : state) (data : bytes)
    (selected lps gps : list nat) :
  chunk_size cfg ≠ 0 →
  ha_select st (dboxes cfg) = Some selected →
  18 ≤ length selected →
  NoDup (take 18 selected) →
  Forall (fun d => d < length (disk st)) (take 18 selected) →
  ha_parity_drives 0 (take 4 (dboxes cfg)) = Some (lps, gps) →
  NoDup (lps ++ gps) →
  Forall (fun p => p < length (disk st) ∧ p ∉ take 18 selected) (lps ++ gps) →
  let n := (length data / chunk_size cfg + 18 - 1) / 18 in
  ∃ st',
    _write_data_ha_mode cfg st data
    = Some ((true, WroteHA (length data) 18), st') ∧
    unchanged_outside (take 18 selected ++ lps ++ gps) st st' ∧
    (∀ k p, lps !! k = Some p →
       content st' p
       = ha_parity_image cfg st' (slice (take 18 selected) (k * 9) (k * 9 + 9)) n) ∧
    (∀ g, g ∈ gps → content st' g = ha_parity_image cfg st' (take 18 selected) n).
Proof.
  intros Hcs Hsel H18 Hnd Hvalid Hpd Hndp Hpar n.
  assert (length (take 18 selected) = 18) as Hlen by (rewrite length_take; lia).
  apply NoDup_app in Hndp as (Hndl & Hlg & Hndg).
  apply Forall_app in Hpar as [Hl Hg].
  unfold _write_data_ha_mode. rewrite bool_decide_eq_false_2 by done.
  rewrite Hsel. cbn [mbind option_bind]. rewrite bool_decide_eq_false_2 by lia.
  destruct (ha_write_places_chunks_in_stripes_aux cfg st data (take 18 selected))
    as (st1 & Hrun & Hdisk & _); [lia | done | done |].
  pose proof (ha_stripes_frame _ _ _ _ _ _ _ _ _ _ Hrun) as Hun1.
  rewrite Hlen in Hrun. rewrite Hrun. cbn [mbind option_bind]. fold n.
  unfold _calculate_ha_parity. rewrite Hpd. cbn [mbind option_bind].
  destruct (ha_local_pass_written cfg (take 18 selected) n lps Hndl) with (idx := 0)
    (st := st1) as (st2 & -> & Hun2 & Himg2).
  { eapply Forall_impl; [exact Hl|]. by intros ? [_ ?]. }
  { by rewrite Hdisk. }
  { rewrite Hdisk. eapply Forall_impl; [exact Hl|]. by intros ? [? _]. }
  cbn [mbind option_bind].
  destruct (ha_global_pass_written cfg (take 18 selected) n gps Hndg) with (st := st2)
    as (st3 & -> & Hun3 & Himg3).
  { eapply Forall_impl; [exact Hg|]. by intros ? [_ ?]. }
  { destruct Hun2 as (_ & -> & _). by rewrite Hdisk. }
  { destruct Hun2 as (_ & -> & _). rewrite Hdisk.
    eapply Forall_impl; [exact Hg|]. by intros ? [? _]. }
  cbn [mbind option_bind]. rewrite Hlen. exists st3. split; [done|].
  pose proof (unchanged_trans _ _ _ _ _ Hun2 Hun3) as Hun23.
  split; [by eapply unchanged_trans|].
  assert (∀ d, d ∈ take 18 selected → d ∉ lps ++ gps) as Hselout.
  { intros d Hd Hin. apply elem_of_app in Hin as [Hin|Hin].
    - rewrite Forall_forall in Hl. by destruct (Hl d Hin).
    - rewrite Forall_forall in Hg. by destruct (Hg d Hin). }
  split.
  - intros k p Hk.
    rewrite (unchanged_content gps st2 st3 p Hun3).
    2:{ apply Hlg. by eapply list_elem_of_lookup_2. }
    rewrite (Himg2 k p Hk). symmetry. apply ha_parity_image_agree.
    intros d Hd. apply (unchanged_content _ st1 st3 d Hun23). apply Hselout.
    by eapply elem_of_slice.
  - intros g Hgin. rewrite (Himg3 g Hgin). symmetry. apply ha_parity_image_agree.
    intros d Hd. apply (unchanged_content _ st2 st3 d Hun3).
    intros Hin. apply (Hselout d Hd). apply elem_of_app. by right.
Qed.

(** X18: an HA-mode write that goes through changes no drive status and no
    file other than those of the 18 selected data drives and of the four
    parity drives of the mode: every other drive, and what an earlier write
    left on it, stays as it was. *)
Theorem ha_write_touches_only_selected_and_parity
    (cfg : config) (st : state) (data : bytes) (selected lps gps : list nat) :
  chunk_size cfg ≠ 0 →
  ha_select st (dboxes cfg) = Some selected →
  18 ≤ length selected →
  NoDup (take 18 selected) →
  Forall (fun d => d < length (disk st)) (take 18 selected) →
  ha_parity_drives 0 (take 4 (dboxes cfg)) = Some (lps, gps) →
  NoDup (lps ++ gps) →
  Forall (fun p => p < length (disk st) ∧ p ∉ take 18 selected) (lps ++ gps) →
  ∃ st',
    _write_data_ha_mode cfg st data
    = Some ((true, WroteHA (length data) 18), st') ∧
    drive_status st' = drive_status st ∧
    length (disk st') = length (disk st) ∧
    ∀ d, d ∉ take 18 selected ++ lps ++ gps → disk st' !! d = disk st !! d.
Proof.
  intros Hcs Hsel H18 Hnd Hvalid Hpd Hndp Hpar.
  destruct (ha_write_full cfg st data selected lps gps) as (st' & Hrun & Hun & _);
    try done.
  exists st'. split; [done|]. exact Hun.
Qed.

Lemma ha_write_touches_only_selected_and_parity_witness :
  ∃ st',
    _write_data_ha_mode small_pool small_ha_fresh forty_bytes
    = Some ((true, WroteHA (length forty_bytes) 18), st') ∧
    drive_status st' = drive_status small_ha_fresh ∧
    length (disk st') = length (disk small_ha_fresh) ∧
    ∀ d, d ∉ take 18 ha_selected_22 ++ [38; 82] ++ [129; 173] →
         disk st' !! d = disk small_ha_fresh !! d.
Proof.
  apply (ha_write_touches_only_selected_and_parity
           small_pool small_ha_fresh forty_bytes ha_selected_22 [38; 82] [129; 173]).
  - by_compute.
  - vm_compute. reflexivity.
  - vm_compute. lia.
  - by_compute.
  - by_compute.
  - vm_compute. reflexivity.
  - by_compute.
  - by_compute.
Defined.

(** X19: after an HA-mode write the parity drives hold plain XORs of what
    the selected drives now hold, stripe by stripe: local-parity drive [k]
    of the mode over the selected drives [9k .. 9k+8], and every
    global-parity drive of the mode over all 18, with no weights, so that
    the global-parity drives of the mode end byte-identical. *)
Theorem ha_write_parity
    (cfg : config) (st : state) (data : bytes) (selected lps gps : list nat) :
  chunk_size cfg ≠ 0 →
  ha_select st (dboxes cfg) = Some selected →
  18 ≤ length selected →
  NoDup (take 18 selected) →
  Forall (fun d => d < length (disk st)) (take 18 selected) →
  ha_parity_drives 0 (take 4 (dboxes cfg)) = Some (lps, gps) →
  NoDup (lps ++ gps) →
  Forall (fun p => p < length (disk st) ∧ p ∉ take 18 selected) (lps ++ gps) →
  ∃ st',
    _write_data_ha_mode cfg st data
    = Some ((true, WroteHA (length data) 18), st') ∧
    (∀ k p, lps !! k = Some p →
       content st' p
       = ha_parity_image cfg st' (slice (take 18 selected) (k * 9) (k * 9 + 9))
           ((length data / chunk_size cfg + 18 - 1) / 18)) ∧
    (∀ g, g ∈ gps →
       content st' g
       = ha_parity_image cfg st' (take 18 selected)
           ((length data / chunk_size cfg + 18 - 1) / 18)) ∧
    (∀ g g', g ∈ gps → g' ∈ gps → content st' g = content st' g').
Proof.
  intros Hcs Hsel H18 Hnd Hvalid Hpd Hndp Hpar.
  destruct (ha_write_full cfg st data selected lps gps)
    as (st' & Hrun & _ & Hl & Hg); try done.
  exists st'. split; [done|]. split; [done|]. split; [done|].
  intros g g' Hin Hin'. by rewrite (Hg g Hin), (Hg g' Hin').
Qed.

Lemma ha_write_parity_witness :
  ∃ st',
    _write_data_ha_mode small_pool small_ha_fresh forty_bytes
    = Some ((true, WroteHA (length forty_bytes) 18), st') ∧
    (∀ k p, [38; 82] !! k = Some p →
       content st' p
       = ha_parity_image small_pool st'
           (slice (take 18 ha_selected_22) (k * 9) (k * 9 + 9))
           ((length forty_bytes / chunk_size small_pool + 18 - 1) / 18)) ∧
    (∀ g, g ∈ [129; 173] →
       content st' g
       = ha_parity_image small_pool st' (take 18 ha_selected_22)
           ((length forty_bytes / chunk_size small_pool + 18 - 1) / 18)) ∧
    (∀ g g', g ∈ [129; 173] → g' ∈ [129; 173] → content st' g = content st' g').
Proof.
  apply (ha_write_parity
           small_pool small_ha_fresh forty_bytes ha_selected_22 [38; 82] [129; 173]).
  - by_compute.
  - vm_compute. reflexivity.
  - vm_compute. lia.
  - by_compute.
  - by_compute.
  - vm_compute. reflexivity.
  - by_compute.
  - by_compute.
Defined.

(** *** VDATASIM-v1.0 writes in place *)







(** *** Rebuild everything, then ask the analyzer *)

Lemma rebuild_one_status (cfg : config) (bring_online : bool)
    (read read' : gset nat) (notes notes' : list rebuild_note)
    (st st' : state) (d : nat) :
  rebuild_one cfg bring_online (read, notes, st) d = Some (read', notes', st') →
  drive_status st'
  = (if bring_online then <[d := true]> (drive_status st) else drive_status st).
Proof.
  unfold rebuild_one.
  destruct (drive_status st !! d) as [[|]|] eqn:Hs; cbn [mbind option_bind]; [| |done].
  { intros [= <- <- <-]. destruct bring_online; [|done]. by rewrite list_insert_id. }
  destruct (get_dbox_for_drive cfg d) as [dbox_id|]; cbn [mbind option_bind]; [|done].
  destruct (dboxes cfg !! dbox_id) as [db|]; cbn [mbind option_bind]; [|done].
  assert (∀ (r : gset nat) (n : list rebuild_note) (s : state),
            drive_status s = drive_status st →
            (_ ← disk (if bring_online
                       then set_status s (<[d := true]> (drive_status s)) else s) !! d;
             Some (r, n, if bring_online
                         then set_status s (<[d := true]> (drive_status s)) else s))
            = Some (read', notes', st') →
            drive_status st'
            = (if bring_online then <[d := true]> (drive_status st)
               else drive_status st)) as Hfinish.
  { intros r n s Hs' Hf.
    destruct (disk _ !! d); cbn [mbind option_bind] in Hf; [|done].
    injection Hf as <- <- <-. destruct bring_online; simpl; by rewrite Hs'. }
  destruct (get_drive_type cfg d).
  - destruct (first_group _ (d_local_groups db)) as [g|];
      [|intros Hf; by eapply Hfinish; [|exact Hf]].
    destruct (_rebuild_data_drive cfg st d g) as [[rd st1]|] eqn:Hr;
      cbn [mbind option_bind]; [|done].
    apply rebuild_data_drive_inv in Hr as [data ->].
    intros Hf. by eapply Hfinish; [|exact Hf].
  - destruct (first_group _ (d_local_groups db)) as [g|];
      [|intros Hf; by eapply Hfinish; [|exact Hf]].
    case_bool_decide; [done|].
    destruct (_calculate_local_parity_group cfg st g _) as [st1|] eqn:Hr;
      cbn [mbind option_bind]; [|done].
    apply local_parity_group_store in Hr as [Hr _].
    intros Hf. by eapply Hfinish; [|exact Hf].
  - case_bool_decide; [done|].
    destruct (_calculate_global_parity_dbox cfg st db _) as [st1|] eqn:Hr;
      cbn [mbind option_bind]; [|done].
    apply global_parity_dbox_store in Hr as [Hr _].
    intros Hf. by eapply Hfinish; [|exact Hf].
  - intros Hf. by eapply Hfinish; [|exact Hf].
  - intros Hf. by eapply Hfinish; [|exact Hf].
Qed.

Lemma rebuild_loop_status (cfg : config) (bring_online : bool) (drives : list nat) :
  ∀ (read read' : gset nat) (notes notes' : list rebuild_note) (st st' : state),
    for_each (rebuild_one cfg bring_online) drives (read, notes, st)
    = Some (read', notes', st') →
    drive_status st'
    = (if bring_online then brought_online (drive_status st) drives
       else drive_status st).
Proof.
  induction drives as [|x drives IH]; intros read read' notes notes' st st' Hrun.
  - injection Hrun as <- <- <-. by destruct bring_online.
  - cbn [for_each] in Hrun.
    destruct (rebuild_one cfg bring_online (read, notes, st) x)
      as [[[read1 notes1] st1]|] eqn:Hone; cbn [mbind option_bind] in Hrun; [|done].
    apply rebuild_one_status in Hone. apply IH in Hrun.
    rewrite Hrun, Hone. by destruct bring_online.
Qed.

Lemma length_brought_online (drives : list nat) : ∀ status : list bool,
  length (brought_online status drives) = length status.
Proof.
  unfold brought_online. induction drives as [|x drives IH]; intros status; simpl;
    [done|]. by rewrite IH, length_insert.
Qed.

Lemma brought_online_lookup (drives : list nat) : ∀ (status : list bool) (x : nat),
  x ∈ drives → x < length status →
  brought_online status drives !! x = Some true.
Proof.
  induction drives as [|h drives IH]; intros status x Hx Hlt; [inversion Hx|].
  change (brought_online status (h :: drives))
    with (brought_online (<[h := true]> status) drives).
  destruct (decide (x = h)) as [->|Hne].
  - apply brought_online_keeps. by apply list_lookup_insert_eq.
  - apply IH; [|by rewrite length_insert].
    apply elem_of_cons in Hx as [?|?]; done.
Qed.

(** X22: a rebuild of every offline drive with [bring_online] ends with
    every drive online, so that the analyzer then reports "All drives
    online", whether or not the rebuild could recover what the drives
    held. *)
Theorem rebuild_all_then_check_reports_all_online
    (cfg : config) (st st' : state) (drives_read : gset nat)
    (notes : list rebuild_note) :
  rebuild_drives cfg st (offline_from 0 (drive_status st)) true
  = Some (drives_read, notes, st') →
  offline_from 0 (drive_status st') = [] ∧
  check_data_integrity cfg st' = Some (true, AllDrivesOnline, []).
Proof.
  intros Hrun. apply rebuild_loop_status in Hrun.
  assert (offline_from 0 (drive_status st') = []) as Hnone.
  { apply elem_of_nil_inv. intros d Hd.
    apply elem_of_offline_from in Hd as (j & -> & Hj). simpl in Hj.
    rewrite Hrun in Hj.
    assert (j < length (drive_status st)) as Hlt.
    { apply lookup_lt_Some in Hj. by rewrite length_brought_online in Hj. }
    destruct (lookup_lt_is_Some_2 (drive_status st) j Hlt) as [[|] Hs].
    - by rewrite (brought_online_keeps _ _ _ Hs) in Hj.
    - rewrite brought_online_lookup in Hj; [done | | done].
      apply elem_of_offline_from. exists j. by split. }
  split; [done|]. unfold check_data_integrity. by rewrite Hnone.
Qed.

Lemma rebuild_all_then_check_reports_all_online_witness :
  offline_from 0 (drive_status tiny_all_rebuilt) = [] ∧
  check_data_integrity tiny_pool tiny_all_rebuilt = Some (true, AllDrivesOnline, []).
Proof.
  eapply (rebuild_all_then_check_reports_all_online tiny_pool tiny_four_failed
            tiny_all_rebuilt).
  vm_compute. reflexivity.
Defined.

(** *** VDSimm-v1.1: the data drives of no group *)

(** X21: in VDSimm-v1.1 the drives 140 and 141 belong to no local group.
    When one of them is the only drive offline, the analyzer reports the
    pool recoverable, [rebuild_drive] leaves its file as it is, whatever it
    holds, and [rebuild_all] sets it online and reports one drive
    rebuilt. *)
Theorem v11_ungrouped_drive_is_declared_rebuilt
    (cfg : config) (d : nat) (dk : list bytes) :
  d = 140 ∨ d = 141 →
  length dk = 156 →
  V11.check_data_integrity (v11_one_offline d dk)
  = Some (true, V11.RecoverableWith 1, []) ∧
  V11.rebuild_drive cfg (v11_one_offline d dk) d = Some (v11_one_offline d dk) ∧
  V11.rebuild_all cfg (v11_one_offline d dk)
  = Some (V11.Rebuilt 1, State (replicate 156 true) dk None None false).
Proof.
  intros Hd Hlen.
  assert (V11.check_data_integrity (v11_one_offline d dk)
          = Some (true, V11.RecoverableWith 1, [])) as Hcheck.
  { destruct Hd as [-> | ->]; vm_compute; reflexivity. }
  assert (V11.rebuild_drive cfg (v11_one_offline d dk) d
          = Some (v11_one_offline d dk)) as Hrebuild.
  { unfold V11.rebuild_drive.
    destruct (lookup_lt_is_Some_2 dk d) as [c Hc]; [destruct Hd; lia|].
    assert (first_group (fun g => bool_decide (d ∈ g_data_drives g)) V11.local_groups
            = None) as -> by (destruct Hd as [-> | ->]; vm_compute; reflexivity).
    rewrite (bool_decide_eq_false_2 (Some d ∈ _))
      by (destruct Hd as [-> | ->]; by_compute).
    rewrite (bool_decide_eq_false_2 (d ∈ V11.global_parity_drives))
      by (destruct Hd as [-> | ->]; by_compute).
    cbn [mbind option_bind]. change (disk (v11_one_offline d dk)) with dk.
    by rewrite Hc. }
  split; [done|]. split; [done|].
  unfold V11.rebuild_all. rewrite Hcheck. cbn [mbind option_bind negb].
  assert (offline_from 0 (drive_status (v11_one_offline d dk)) = [d]) as ->
    by (destruct Hd as [-> | ->]; vm_compute; reflexivity).
  cbn [length]. rewrite bool_decide_eq_false_2 by done.
  cbn [for_each]. rewrite Hrebuild. cbn [mbind option_bind].
  rewrite bool_decide_eq_true_2
    by (destruct Hd as [-> | ->]; vm_compute; lia).
  cbn [mbind option_bind]. do 2 f_equal.
  destruct Hd as [-> | ->]; vm_compute; reflexivity.
Qed.

Lemma v11_ungrouped_drive_is_declared_rebuilt_witness :
  V11.check_data_integrity (v11_one_offline 140 (replicate 156 [7; 7]%Z))
  = Some (true, V11.RecoverableWith 1, []) ∧
  V11.rebuild_drive (V11.pool 2 2) (v11_one_offline 140 (replicate 156 [7; 7]%Z)) 140
  = Some (v11_one_offline 140 (replicate 156 [7; 7]%Z)) ∧
  V11.rebuild_all (V11.pool 2 2) (v11_one_offline 140 (replicate 156 [7; 7]%Z))
  = Some (V11.Rebuilt 1,
          State (replicate 156 true) (replicate 156 [7; 7]%Z) None None false).
Proof.
  apply (v11_ungrouped_drive_is_declared_rebuilt (V11.pool 2 2) 140
           (replicate 156 [7; 7]%Z)).
  - by left.
  - reflexivity.
Defined.

(** *** What a rebuild computes when more than one drive is offline *)

Lemma xor_fold_perm (n : nat) (l l' : list bytes) :
  l ≡ₚ l' → Forall (fun c => length c = n) l → xor_fold n l = xor_fold n l'.
Proof.
  intros Hperm Hl.
  assert (Forall (fun c => length c = n) l') as Hl' by by rewrite <- Hperm.
  assert (Some (xor_fold n l) = Some (xor_fold n l')) as H; [|by injection H].
  unfold xor_fold.
  rewrite <- !xor_into_fold
    by (rewrite length_replicate; done).
  by apply xor_into_perm.
Qed.

Lemma lxor_cancel (a b : Z) : Z.lxor (Z.lxor a b) a = b.
Proof.
  by rewrite (Z.lxor_comm a b), Z.lxor_assoc, Z.lxor_nilpotent, Z.lxor_0_r.
Qed.

Lemma xor_bytes_cancel (A : bytes) : ∀ B : bytes,
  length A = length B → xor_bytes (xor_bytes A B) A = B.
Proof.
  unfold xor_bytes. induction A as [|a A IH]; intros [|b B] H; simpl in *; try done.
  f_equal; [apply lxor_cancel|]. apply IH. lia.
Qed.

(** The parity of a whole group folded with the chunks of some of its
    members is the XOR of the chunks of the others. *)
Lemma xor_leaves_the_rest (n : nat) (c : nat → bytes) (drives : list nat)
    (P : nat → Prop) `{∀ d, Decision (P d)} :
  Forall (fun d => length (c d) = n) drives →
  xor_fold n (xor_fold n (map c drives) :: map c (filter P drives))
  = xor_fold n (map c (filter (fun d => ¬ P d) drives)).
Proof.
  intros Hlen.
  assert (∀ l, (∀ d, d ∈ l → d ∈ drives) →
               Forall (fun b => length b = n) (map c l)) as Hmap.
  { intros l Hl. apply Forall_map. apply Forall_forall. intros d Hd. simpl.
    rewrite Forall_forall in Hlen. auto. }
  assert (∀ Q `{∀ d, Decision (Q d)} d, d ∈ filter Q drives → d ∈ drives) as Hsub.
  { intros Q ? d Hd. by apply list_elem_of_filter in Hd as [_ ?]. }
  rewrite (xor_fold_perm n (map c drives)
             (map c (filter P drives) ++ map c (filter (fun d => ¬ P d) drives))).
  2:{ rewrite <- map_app. apply fmap_Permutation. symmetry.
      apply filter_app_complement. }
  2:{ by apply Hmap. }
  rewrite xor_fold_cons.
  - rewrite !xor_fold_foldr by (rewrite <- ?map_app; apply Hmap; intros d Hd;
      rewrite ?elem_of_app in Hd; destruct_or?; eauto).
    rewrite foldr_xor_app by (apply Hmap; eauto).
    apply xor_bytes_cancel.
    rewrite !length_foldr_xor by (apply Hmap; eauto). done.
  - apply length_xor_fold. rewrite <- map_app. apply Hmap. intros d Hd.
    apply elem_of_app in Hd as [?|?]; eauto.
  - apply Hmap. eauto.
Qed.

(** X23: what a rebuild computes.  If the local-parity drive of a group
    holds the XOR of all the data drives of the group, the rebuild of an
    offline data drive writes, chunk for chunk, the XOR of the chunks of
    all the data drives of the group that are offline at that moment: what
    the drive held when it is the only one, and the XOR of the lost drives,
    with no error, when there are more. *)
Theorem rebuild_gives_xor_of_offline_drives
    (cfg : config) (st : state) (failed : nat)
    (db : dbox) (g : group) (p : nat) (bring_online : bool) :
  rebuild_route cfg failed db g p →
  drive_status st !! failed = Some false →
  p < length (disk st) →
  drives_exist st (g_data_drives g) →
  chunk_size cfg ≠ 0 →
  chunk_size cfg ≤ drive_size cfg →
  whole_files cfg st (p :: g_data_drives g) →
  parity_consistent cfg st g p →
  ∃ drives_read notes st',
    rebuild_drives cfg st [failed] bring_online = Some (drives_read, notes, st') ∧
    content st' failed
    = concat (map (fun i =>
                     xor_fold (chunk_size cfg)
                       (map (fun d => chunk cfg st d i)
                            (offline_drives st (g_data_drives g))))
                  (seq 0 (drive_size cfg / chunk_size cfg))).
Proof.
  intros Hroute Hoff Hplt Hex Hcs Hle Hwhole Hpar.
  destruct (rebuild_route_member cfg failed db g p Hroute) as [Hin Hne].
  set (n := drive_size cfg / chunk_size cfg) in *.
  inversion Hwhole as [|? ? Hplen Hdlen]; subst.
  pose proof Hex as Hex'. unfold drives_exist in Hex'.
  rewrite Forall_forall in Hex', Hdlen.
  destruct (Hex' failed Hin) as [_ Hfd].
  destruct (rebuild_one_data_drive cfg st failed db g p bring_online)
    as (notes & st' & Hrun & Hc); try done.
  { apply Forall_forall. intros d Hd _. by apply Hdlen. }
  eexists _, notes, st'. split; [exact Hrun|]. rewrite Hc. fold n.
  f_equal. apply map_ext_in. intros i Hi. apply in_seq in Hi.
  unfold rebuilt_chunk.
  assert (peers st failed (g_data_drives g)
          = filter (fun d => is_online st d) (g_data_drives g)) as ->.
  { unfold peers. apply filter_ext_in. intros d Hd. split; [by intros [_ ?]|].
    intros Hon. split; [|done]. intros ->.
    unfold is_online in Hon. by rewrite Hoff in Hon. }
  unfold parity_consistent in Hpar. rewrite Forall_forall in Hpar.
  rewrite (Hpar i) by (apply elem_of_seq; fold n; lia).
  apply (xor_leaves_the_rest (chunk_size cfg) (fun d => chunk cfg st d i)).
  apply Forall_forall. intros d Hd.
  eapply (chunk_full cfg st d i n); [lia|]. by apply Hdlen.
Qed.

Lemma rebuild_gives_xor_of_offline_drives_witness :
  ∃ drives_read notes st',
    rebuild_drives tiny_pool tiny_two_failed [1] true
    = Some (drives_read, notes, st') ∧
    content st' 1
    = concat (map (fun i =>
                     xor_fold (chunk_size tiny_pool)
                       (map (fun d => chunk tiny_pool tiny_two_failed d i)
                            (offline_drives tiny_two_failed
                               (g_data_drives tiny_group0))))
                  (seq 0 (drive_size tiny_pool / chunk_size tiny_pool))).
Proof.
  apply (rebuild_gives_xor_of_offline_drives
           tiny_pool tiny_two_failed 1 tiny_dbox tiny_group0 4 true);
    by_compute.
Defined.
